(** * AudioBook-Reader: chunking pipeline and WAV encoder

    A shallow embedding of [utils/audiobookUtils.ts] (paragraph splitting,
    the recursive heuristic splitter, the paragraph aggregator, token-count
    validation with retries) and of [utils/wavUtils.ts] (trailing-silence
    trimming and the 44-byte RIFF header), with the properties the
    specification states about them.

    Conventions.
    - A JavaScript string is the list of its UTF-16 code units, each a [Z].
    - JavaScript numbers that are always integers in the code (lengths,
      cursors, token counts, byte offsets) are [Z].
    - [onProgress] callbacks and [console] output do not influence any
      returned value and are left out.
    - Loops whose termination depends on the arguments take fuel and return
      [None] when it runs out. *)

From Stdlib Require Import String Ascii DecimalString.
From Stdlib Require Import ZArith List Lia Bool.
Import ListNotations.
Open Scope Z_scope.

(* ================================================================== *)
(** * JavaScript strings                                                *)
(* ================================================================== *)

Module JS.

Definition jsstring := list Z.

(** A string literal of the source, as code units. *)
Definition lit (s : string) : jsstring :=
  map (fun a => Z.of_N (N_of_ascii a)) (list_ascii_of_string s).

(** [s.length] *)
Definition len (s : jsstring) : Z := Z.of_nat (List.length s).

(** Truthiness of a string: [if (s)], [!s], [s.length > 0]. *)
Definition nonEmpty (s : jsstring) : bool :=
  match s with [] => false | _ :: _ => true end.

(** The characters matched by [\s], which are also those removed by
    [String.prototype.trim] (WhiteSpace and LineTerminator). *)
Definition isWhiteSpace (c : Z) : bool :=
  (c =? 9) || (c =? 10) || (c =? 11) || (c =? 12) || (c =? 13) ||
  (c =? 32) || (c =? 160) || (c =? 5760) ||
  ((8192 <=? c) && (c <=? 8202)) ||
  (c =? 8232) || (c =? 8233) || (c =? 8239) || (c =? 8287) ||
  (c =? 12288) || (c =? 65279).

Fixpoint dropWhile (f : Z -> bool) (s : jsstring) : jsstring :=
  match s with
  | [] => []
  | c :: s' => if f c then dropWhile f s' else s
  end.

Definition trimStart (s : jsstring) : jsstring := dropWhile isWhiteSpace s.
Definition trimEnd (s : jsstring) : jsstring := rev (dropWhile isWhiteSpace (rev s)).

(** [s.trim()] *)
Definition trim (s : jsstring) : jsstring := trimEnd (trimStart s).

(** [s.substring(a, b)]: both indices are clamped to [0, s.length] and
    swapped when out of order. *)
Definition clamp (s : jsstring) (i : Z) : Z := Z.max 0 (Z.min i (len s)).

Definition substring (s : jsstring) (a b : Z) : jsstring :=
  let a' := clamp s a in
  let b' := clamp s b in
  let lo := Z.min a' b' in
  let hi := Z.max a' b' in
  firstn (Z.to_nat (hi - lo)) (skipn (Z.to_nat lo) s).

(** [s.startsWith(p)] *)
Fixpoint startsWith (s p : jsstring) : bool :=
  match p, s with
  | [], _ => true
  | _ :: _, [] => false
  | a :: p', b :: s' => (a =? b) && startsWith s' p'
  end.

(** [s.includes(p)] *)
Fixpoint includes (s p : jsstring) : bool :=
  startsWith s p ||
  match s with
  | [] => false
  | _ :: s' => includes s' p
  end.

(** [s.endsWith(p)] *)
Definition endsWith (s p : jsstring) : bool := startsWith (rev s) (rev p).

(** [parts.join(sep)] *)
Fixpoint join (sep : jsstring) (parts : list jsstring) : jsstring :=
  match parts with
  | [] => []
  | [p] => p
  | p :: rest => p ++ sep ++ join sep rest
  end.

(** [String(n)] for an integer [n]: its decimal numeral. *)
Definition numberToString (n : Z) : jsstring :=
  lit (NilEmpty.string_of_int (Z.to_int n)).

(** [s.padStart(width, fill)] for a one-character [fill]. *)
Definition padStart (s : jsstring) (width : nat) (fill : Z) : jsstring :=
  repeat fill (width - List.length s) ++ s.

(** ** [String.prototype.split] with a regular expression

    The regular expressions of the source have no capture groups. A
    regular expression is given by [matchAt before rest]: the length of its
    match starting at the position whose preceding characters are [before]
    (nearest first, for lookbehind) and whose following characters are
    [rest]; [None] when it does not match there.

    [splitLoop] follows the loop of the language definition: [q] runs over
    the positions; [cur] holds [S[p..q]] reversed; a match that ends at [p]
    (an empty match right after the previous separator) is skipped; any
    other match closes the current piece and moves [p] and [q] to its end.
    [skip] counts the characters of a separator still to be passed over.
    An empty match at [q > p] closes the piece and leaves [p = q]; the next
    round finds the same empty match, now with [e = p], and advances [q],
    which is what the [Some O] case does in one step. *)
Section Split.

Variable matchAt : jsstring -> jsstring -> option nat.

Fixpoint splitLoop (before cur : jsstring) (skip : nat) (rest : jsstring)
  : list jsstring :=
  match rest with
  | [] => [rev cur]
  | c :: rest' =>
    match skip with
    | S k => splitLoop (c :: before) cur k rest'
    | O =>
      match matchAt before rest with
      | Some (S k) => rev cur :: splitLoop (c :: before) [] k rest'
      | Some O =>
        match cur with
        | [] => splitLoop (c :: before) [c] O rest'
        | _ :: _ => rev cur :: splitLoop (c :: before) [c] O rest'
        end
      | None => splitLoop (c :: before) (c :: cur) O rest'
      end
    end
  end.

Definition split (s : jsstring) : list jsstring := splitLoop [] [] O s.

End Split.

(** Length of the longest prefix of [s] whose characters satisfy [f]. *)
Fixpoint runLength (f : Z -> bool) (s : jsstring) : nat :=
  match s with
  | [] => O
  | c :: s' => if f c then S (runLength f s') else O
  end.

End JS.

Import JS.

(* ================================================================== *)
(** * utils/audiobookUtils.ts                                           *)
(* ================================================================== *)

(** ** Chunking strategy parameters *)

Definition MAX_TTS_TOKENS : Z := 8000.
Definition IDEAL_TOKENS_PER_CHUNK : Z := 2000.
Definition IDEAL_CHARS_PER_CHUNK_TARGET : Z := 6000.
(** [IDEAL_CHUNK_SIZE_MULTIPLIER = 1.5], kept as the fraction 3/2. *)
Definition IDEAL_CHUNK_SIZE_MULTIPLIER_NUM : Z := 3.
Definition IDEAL_CHUNK_SIZE_MULTIPLIER_DEN : Z := 2.
Definition FINE_GRAINED_SPLIT_DIVISOR : Z := 2.

(** [Math.floor(IDEAL_TOKENS_PER_CHUNK * IDEAL_CHUNK_SIZE_MULTIPLIER)] *)
Definition IDEAL_CHUNK_TOKEN_UPPER_BOUND : Z :=
  (IDEAL_TOKENS_PER_CHUNK * IDEAL_CHUNK_SIZE_MULTIPLIER_NUM)
    / IDEAL_CHUNK_SIZE_MULTIPLIER_DEN.

(** [Math.floor(IDEAL_CHARS_PER_CHUNK_TARGET / FINE_GRAINED_SPLIT_DIVISOR)] *)
Definition FINE_GRAINED_RECURSIVE_CHAR_TARGET : Z :=
  IDEAL_CHARS_PER_CHUNK_TARGET / FINE_GRAINED_SPLIT_DIVISOR.

(** ** The two regular expressions *)

Definition NL : Z := 10.
Definition isNewline (c : Z) : bool := c =? NL.

(** [/\n\n+/]: two newlines, then as many more as follow. *)
Definition matchBlankLines (before rest : jsstring) : option nat :=
  match rest with
  | a :: b :: rest' =>
    if isNewline a && isNewline b
    then Some (S (S (runLength isNewline rest')))
    else None
  | _ => None
  end.

(** [[.?!]] *)
Definition isSentenceEnd (c : Z) : bool :=
  (c =? 46) || (c =? 63) || (c =? 33).

(** The class of the two lookaheads: Latin capitals, Cyrillic capitals
    U+0410..U+042F and U+0401, digits, the double quote (34), the opening
    quotes U+201C, U+00AB, U+2018, U+201E, and the opening square and round
    brackets. *)
Definition isSentenceStart (c : Z) : bool :=
  ((65 <=? c) && (c <=? 90)) ||
  ((1040 <=? c) && (c <=? 1071)) ||
  (c =? 1025) ||
  ((48 <=? c) && (c <=? 57)) ||
  (c =? 34) || (c =? 8220) || (c =? 171) || (c =? 8216) || (c =? 8222) ||
  (c =? 91) || (c =? 40).

(** The sentence expression: after one of [.?!], one or more white-space
    characters, then a character of the class above (not consumed); or,
    after a newline, zero or more white-space characters and such a
    character. In both alternatives the lookahead wants a non-space character, so only the
    whole run of white space can be the match. *)
Definition matchSentenceBreak (before rest : jsstring) : option nat :=
  let k := runLength isWhiteSpace rest in
  let ahead :=
    match nth_error rest k with
    | Some c => isSentenceStart c
    | None => false
    end in
  match before with
  | b :: _ =>
    if isSentenceEnd b && negb (Nat.eqb k 0) && ahead then Some k
    else if isNewline b && ahead then Some k
    else None
  | [] => None
  end.

(** ** splitTextIntoParagraphs *)

Definition splitTextIntoParagraphs (text : jsstring) : list jsstring :=
  filter nonEmpty (map trim (split matchBlankLines text)).

(** ** forceSplitTextRecursive_SYNC *)

(** [/\s/.test(text[i])] *)
Definition isSpaceAt (text : jsstring) (i : Z) : bool :=
  if i <? 0 then false
  else match nth_error text (Z.to_nat i) with
       | Some c => isWhiteSpace c
       | None => false
       end.

(** [for (let i = splitPoint; i > currentPos; i--)] with
    [splitPoint = currentPos + n], looking for white space. *)
Fixpoint findSpaceBack (text : jsstring) (currentPos : Z) (n : nat) : option Z :=
  match n with
  | O => None
  | S n' =>
    let i := currentPos + Z.of_nat n in
    if isSpaceAt text i then Some i else findSpaceBack text currentPos n'
  end.

(** One round of the character-window loop: the value of [splitPoint]
    when the part is cut. [splitPoint - currentPos < targetCharLength / 2]
    is compared after doubling both sides. *)
Definition nextSplitPoint (text : jsstring) (targetCharLength currentPos : Z) : Z :=
  let splitPoint := Z.min (currentPos + targetCharLength) (len text) in
  if splitPoint <? len text then
    match findSpaceBack text currentPos (Z.to_nat (splitPoint - currentPos)) with
    | Some i => i + 1
    | None =>
      if (2 * (splitPoint - currentPos) <? targetCharLength)
         && (currentPos + targetCharLength <? len text)
      then currentPos + targetCharLength
      else splitPoint
    end
  else splitPoint.

(** [while (currentPos < text.length) { ... }] *)
Fixpoint charWindowLoop (fuel : nat) (text : jsstring) (targetCharLength : Z)
         (currentPos : Z) (results : list jsstring) : option (list jsstring) :=
  if currentPos <? len text then
    match fuel with
    | O => None
    | S fuel' =>
      let splitPoint := nextSplitPoint text targetCharLength currentPos in
      let part := trim (substring text currentPos splitPoint) in
      charWindowLoop fuel' text targetCharLength splitPoint
                     (if nonEmpty part then results ++ [part] else results)
    end
  else Some results.

(** [results.push(...f(x))] for each [x], in order. *)
Fixpoint flatMapM {A B : Type} (f : A -> option (list B)) (l : list A)
  : option (list B) :=
  match l with
  | [] => Some []
  | x :: l' =>
    match f x with
    | None => None
    | Some ys =>
      match flatMapM f l' with
      | None => None
      | Some zs => Some (ys ++ zs)
      end
    end
  end.

(** The splitter. [rfuel] bounds the nesting of recursive calls and
    [lfuel] the rounds of each character-window loop.
    [text.length <= targetCharLength * 1.5] is compared after doubling. *)
Fixpoint forceSplit (rfuel lfuel : nat) (text : jsstring) (targetCharLength : Z)
         (depth : nat) : option (list jsstring) :=
  match rfuel with
  | O => None
  | S rfuel' =>
    if negb (nonEmpty (trim text)) then Some []
    else if (15 <? depth)%nat then Some [text]
    else if (2 * len text <=? 3 * targetCharLength) && (0 <? depth)%nat
    then Some [text]
    else
      let recurse (piece : jsstring) :=
        let piece' := trim piece in
        if nonEmpty piece'
        then forceSplit rfuel' lfuel piece' targetCharLength (S depth)
        else Some [] in
      let paragraphs := split matchBlankLines text in
      if (1 <? List.length paragraphs)%nat then
        option_map (filter nonEmpty) (flatMapM recurse paragraphs)
      else
        let sentences :=
          filter nonEmpty (map trim (split matchSentenceBreak text)) in
        if (1 <? List.length sentences)%nat then
          option_map (filter nonEmpty) (flatMapM recurse sentences)
        else
          match charWindowLoop lfuel text targetCharLength 0 [] with
          | None => None
          | Some results =>
            let results' :=
              if (Nat.eqb (List.length results) 0) && (0 <? len text)
              then results ++ [text] else results in
            Some (filter nonEmpty results')
          end
  end.

(** The function of the source: recursion fuel beyond the depth limit and
    loop fuel beyond the text length; [forceSplit_more_fuel] shows that more
    fuel never changes a result. *)
Definition DEPTH_FUEL : nat := 17.

Definition forceSplitTextRecursive_SYNC (text : jsstring) (targetCharLength : Z)
           (depth : nat) : option (list jsstring) :=
  forceSplit DEPTH_FUEL (S (List.length text)) text targetCharLength depth.

(** ** aggregateParagraphsIntoChunks *)

Definition BLANK_LINE : jsstring := [NL; NL].

(** The body of the [for] loop, on the pair [(chunks, currentChunk)]. *)
Definition aggregateStep (charTarget : Z) (st : list jsstring * jsstring)
           (paragraph : jsstring) : list jsstring * jsstring :=
  let '(chunks, currentChunk) := st in
  if (len currentChunk =? 0) && (charTarget <=? len paragraph) then
    (chunks ++ [paragraph], currentChunk)
  else
    let separator := if 0 <? len currentChunk then BLANK_LINE else [] in
    if (charTarget <? len currentChunk + len separator + len paragraph)
       && (0 <? len currentChunk)
    then (chunks ++ [currentChunk], paragraph)
    else (chunks, currentChunk ++ separator ++ paragraph).

Definition aggregateFlush (st : list jsstring * jsstring) : list jsstring :=
  let '(chunks, currentChunk) := st in
  if 0 <? len currentChunk then chunks ++ [currentChunk] else chunks.

Definition aggregateParagraphsIntoChunks (paragraphs : list jsstring)
           (charTarget : Z) : list jsstring :=
  match paragraphs with
  | [] => []
  | _ :: _ =>
    aggregateFlush (fold_left (aggregateStep charTarget) paragraphs ([], []))
  end.

(** The rule of the specification, written from its words: paragraphs are
    gathered in a buffer, separated by a blank line; when the buffer is not
    empty and the next paragraph, with its separator, would take it beyond
    [charTarget], the buffer is flushed and restarted with that paragraph;
    a paragraph that meets an empty buffer and is longer than [charTarget]
    by itself becomes a candidate at once; what remains is flushed at the
    end. Used only to be compared with the function of the source. *)
Definition greedyRuleStep (charTarget : Z) (st : list jsstring * jsstring)
           (paragraph : jsstring) : list jsstring * jsstring :=
  let '(candidates, buffer) := st in
  match buffer with
  | [] =>
    if charTarget <? len paragraph
    then (candidates ++ [paragraph], [])
    else (candidates, paragraph)
  | _ :: _ =>
    if charTarget <? len (buffer ++ BLANK_LINE ++ paragraph)
    then (candidates ++ [buffer], paragraph)
    else (candidates, buffer ++ BLANK_LINE ++ paragraph)
  end.

Definition greedyRule (paragraphs : list jsstring) (charTarget : Z)
  : list jsstring :=
  let '(candidates, buffer) :=
    fold_left (greedyRuleStep charTarget) paragraphs ([], []) in
  match buffer with
  | [] => candidates
  | _ :: _ => candidates ++ [buffer]
  end.

(** ** Data types of [types.ts] *)

Module ExtractedChapter.
Record t := { title : option jsstring; content : jsstring }.
End ExtractedChapter.

Inductive ChunkStatus := pending | generating | success | error.

Module AudiobookChunk.
Record t := {
  id : jsstring;
  index : Z;
  text : jsstring;
  fileName : jsstring;
  chapterTitle : option jsstring;
  status : ChunkStatus;
  errorDetails : option jsstring;
  tokenCount : option Z
}.
End AudiobookChunk.

(** [ExtractedChapter[] | string[]] *)
Inductive ChunkingInput :=
| chapters (l : list ExtractedChapter.t)
| strings (l : list jsstring).

(** ** The token-counting service

    A value thrown by [ai.models.countTokens], by what the code observes of
    it: [e instanceof Error], [e.message], [e?.toString()] (absent for
    [null] and [undefined]) and [String(e)]. *)
Module Thrown.
Record t := {
  instanceofError : bool;
  message : jsstring;
  toString : option jsstring;
  asString : jsstring
}.
(** [null], the initial value of [lastError]. *)
Definition null : t :=
  {| instanceofError := false; message := []; toString := None;
     asString := lit "null" |}.
End Thrown.

Inductive TokenResponse :=
| totalTokens (n : Z)
| rejects (e : Thrown.t).

(** The service answers its [k]-th request, for the text it carries. *)
Definition Oracle := nat -> jsstring -> TokenResponse.

(** What a run leaves behind besides its result: the number of requests
    sent to the service, the delays waited with [setTimeout] (oldest
    first), and the number of identifiers drawn from [crypto.randomUUID]. *)
Record World := {
  oracleCalls : nat;
  timeouts : list Z;
  uuidsDrawn : nat
}.

Definition initialWorld : World :=
  {| oracleCalls := O; timeouts := []; uuidsDrawn := O |}.

(** Computations on the world; [None] stands for a run that does not end. *)
Definition M (A : Type) : Type := World -> option (A * World).

Definition ret {A : Type} (a : A) : M A := fun w => Some (a, w).

Definition bind {A B : Type} (m : M A) (k : A -> M B) : M B :=
  fun w =>
    match m w with
    | None => None
    | Some (a, w') => k a w'
    end.

Declare Scope m_scope.
Delimit Scope m_scope with m.
Notation "x <- m ;; k" := (bind m (fun x => k))
  (at level 61, m at next level, right associativity) : m_scope.
Notation "m ;;; k" := (bind m (fun _ => k))
  (at level 61, right associativity) : m_scope.
Open Scope m_scope.

(** [await new Promise(resolve => setTimeout(resolve, ms))] *)
Definition sleep (ms : Z) : M unit :=
  fun w => Some (tt, {| oracleCalls := oracleCalls w;
                        timeouts := timeouts w ++ [ms];
                        uuidsDrawn := uuidsDrawn w |}).

(** A pure computation that may not end. *)
Definition liftOption {A : Type} (o : option A) : M A :=
  fun w => match o with None => None | Some a => Some (a, w) end.

(** [for (const x of l) { ... }] with the loop variables in [acc]. *)
Fixpoint forEachM {A S : Type} (body : S -> A -> M S) (l : list A) (acc : S)
  : M S :=
  match l with
  | [] => ret acc
  | x :: l' => acc' <- body acc x ;; forEachM body l' acc'
  end.

Definition MAX_RETRIES : Z := 2.
Definition RETRY_DELAY_MS : Z := 1000.

(** [tokenError?.toString().includes('500') ||
     tokenError?.toString().includes('Internal error')] *)
Definition isServerError (e : Thrown.t) : bool :=
  match Thrown.toString e with
  | None => false
  | Some s => includes s (lit "500") || includes s (lit "Internal error")
  end.

(** [error instanceof Error ? error.message : String(error)] *)
Definition errorText (e : Thrown.t) : jsstring :=
  if Thrown.instanceofError e then Thrown.message e else Thrown.asString e.

(** [/[^a-zA-Z0-9_-]/] *)
Definition isFileNameChar (c : Z) : bool :=
  ((97 <=? c) && (c <=? 122)) || ((65 <=? c) && (c <=? 90)) ||
  ((48 <=? c) && (c <=? 57)) || (c =? 95) || (c =? 45).

(** [s.replace(/[^a-zA-Z0-9_-]/g, '_')] *)
Definition replaceOtherChars (s : jsstring) : jsstring :=
  map (fun c => if isFileNameChar c then c else 95) s.

(** [a || b] on strings. *)
Definition orElse (a b : jsstring) : jsstring :=
  if nonEmpty a then a else b.

(** [const fullTextToCount = voicePrompt.trim()
      ? `${voicePrompt.trim()}: ${textToCount}` : textToCount]: the text
    of the request sent for [textToCount]. *)
Definition requestText (voicePrompt textToCount : jsstring) : jsstring :=
  if nonEmpty (trim voicePrompt)
  then trim voicePrompt ++ lit ": " ++ textToCount
  else textToCount.

(** What [createAudiobookChunks] resolves to or throws. *)
Inductive Completion :=
| returns (chunks : list AudiobookChunk.t)
| throws (message : jsstring).

Section CreateAudiobookChunks.

(** [utils/transliterate.ts] is not part of the sources at hand; the
    function is a parameter. So is the sequence of identifiers that
    [crypto.randomUUID] hands out. *)
Variable transliterate : jsstring -> jsstring.
Variable randomUUID : nat -> jsstring.

Definition drawUUID : M jsstring :=
  fun w => Some (randomUUID (uuidsDrawn w),
                 {| oracleCalls := oracleCalls w;
                    timeouts := timeouts w;
                    uuidsDrawn := S (uuidsDrawn w) |}).

Section WithOracle.

Variable ai : Oracle.
Variable voicePrompt : jsstring.
Variable mainTitleForChunks : jsstring.
Variable sanitizedFileNameBase : jsstring.

(** [await ai.models.countTokens(tokenCountRequest)] *)
Definition countTokens (fullTextToCount : jsstring) : M TokenResponse :=
  fun w => Some (ai (oracleCalls w) fullTextToCount,
                 {| oracleCalls := S (oracleCalls w);
                    timeouts := timeouts w;
                    uuidsDrawn := uuidsDrawn w |}).

(** The [for (attempt = 0; attempt <= MAX_RETRIES; attempt++)] loop of
    [countTokensForText], with [remaining] rounds left; [inl] is a
    thrown value and [inr] the count. *)
Fixpoint countTokensAttempts (remaining : nat) (attempt : Z)
         (lastError : Thrown.t) (textToCount : jsstring)
  : M (Thrown.t + Z) :=
  match remaining with
  | O => ret (inl lastError)
  | S remaining' =>
    (if 0 <? attempt then sleep (RETRY_DELAY_MS * attempt) else ret tt) ;;;
    let fullTextToCount := requestText voicePrompt textToCount in
    response <- countTokens fullTextToCount ;;
    match response with
    | totalTokens n => ret (inr n)
    | rejects tokenError =>
      if isServerError tokenError && (attempt <? MAX_RETRIES)
      then countTokensAttempts remaining' (attempt + 1) tokenError textToCount
      else ret (inl tokenError)
    end
  end.

Definition countTokensForText (textToCount : jsstring) : M (Thrown.t + Z) :=
  countTokensAttempts (Z.to_nat (MAX_RETRIES + 1)) 0 Thrown.null textToCount.

(** [finalAudiobookChunks.push({ id: crypto.randomUUID(),
      index: chunkIndex++, ..., fileName: `..._Part_${
      String(chunkIndex).padStart(3, '0')}...wav`, ... })]:
    the properties are evaluated in order, so [index] receives the old
    value of [chunkIndex] and [fileName] is built from the new one. *)
Definition pushChunk (st : list AudiobookChunk.t * Z)
           (text suffix : jsstring) (status : ChunkStatus)
           (tokenCount : option Z) (errorDetails : option jsstring)
  : M (list AudiobookChunk.t * Z) :=
  let '(finalAudiobookChunks, chunkIndex) := st in
  newId <- drawUUID ;;
  let index := chunkIndex in
  let chunkIndex := chunkIndex + 1 in
  ret (finalAudiobookChunks ++
         [{| AudiobookChunk.id := newId;
             AudiobookChunk.index := index;
             AudiobookChunk.text := text;
             AudiobookChunk.fileName :=
               sanitizedFileNameBase ++ lit "_Part_" ++
               padStart (numberToString chunkIndex) 3 48 ++
               suffix ++ lit ".wav";
             AudiobookChunk.chapterTitle := Some mainTitleForChunks;
             AudiobookChunk.status := status;
             AudiobookChunk.errorDetails := errorDetails;
             AudiobookChunk.tokenCount := tokenCount |}],
       chunkIndex).

(** [`Error: Token counting failed. Snippet: ${t.substring(0,100)}...`] *)
Definition errorSnippet (t : jsstring) : jsstring :=
  lit "Error: Token counting failed. Snippet: " ++ substring t 0 100 ++
  lit "...".

(** The body of [for (const subSegmentText of subSegmentsToValidate)]. *)
Definition validateSubSegment (st : list AudiobookChunk.t * Z)
           (subSegmentText : jsstring) : M (list AudiobookChunk.t * Z) :=
  if negb (nonEmpty (trim subSegmentText)) then ret st
  else
    counted <- countTokensForText subSegmentText ;;
    match counted with
    | inl subError =>
      pushChunk st (errorSnippet subSegmentText) (lit "_SUB_TOKEN_ERR")
                error None
                (Some (lit "Token counting failed for this re-split sub-segment: "
                       ++ errorText subError))
    | inr subTokenCount =>
      if subTokenCount <=? MAX_TTS_TOKENS
      then pushChunk st subSegmentText [] pending (Some subTokenCount) None
      else pushChunk st subSegmentText (lit "_OVERSIZED") pending
                     (Some subTokenCount) None
    end.

(** The body of [for (let i = 0; i < candidateChunkTexts.length; i++)]. *)
Definition validateCandidate (st : list AudiobookChunk.t * Z)
           (candidateText : jsstring) : M (list AudiobookChunk.t * Z) :=
  counted <- countTokensForText candidateText ;;
  match counted with
  | inl err =>
    pushChunk st (errorSnippet candidateText) (lit "_TOKEN_ERR") error None
              (Some (lit "Token counting failed for this candidate chunk: "
                     ++ errorText err))
  | inr tokenCount =>
    if tokenCount <=? IDEAL_CHUNK_TOKEN_UPPER_BOUND
    then pushChunk st candidateText [] pending (Some tokenCount) None
    else
      subSegmentsToValidate <-
        liftOption (forceSplitTextRecursive_SYNC
                      candidateText FINE_GRAINED_RECURSIVE_CHAR_TARGET 0) ;;
      forEachM validateSubSegment subSegmentsToValidate st
  end.

End WithOracle.

(** The chunk returned when aggregation yields nothing. *)
Definition aggregateErrorChunk (newId bookFileNameBase : jsstring)
  : AudiobookChunk.t :=
  {| AudiobookChunk.id := newId;
     AudiobookChunk.index := 0;
     AudiobookChunk.text := lit "Error: Could not aggregate paragraphs into chunks.";
     AudiobookChunk.fileName := bookFileNameBase ++ lit "_Part_001_AGGREGATE_ERR.wav";
     AudiobookChunk.chapterTitle := None;
     AudiobookChunk.status := error;
     AudiobookChunk.errorDetails :=
       Some (lit "Paragraph aggregation yielded no segments from non-empty input.");
     AudiobookChunk.tokenCount := None |}.

(** The text to chunk and the title, or [None] for an empty array. *)
Definition readInput (input : ChunkingInput) (bookFileNameBase : jsstring)
  : option (jsstring * jsstring) :=
  match input with
  | chapters (chapter :: _) =>
    Some (ExtractedChapter.content chapter,
          orElse (match ExtractedChapter.title chapter with
                  | Some t => t
                  | None => []
                  end)
                 (orElse bookFileNameBase (lit "BookContent")))
  | strings (s :: l) =>
    Some (join BLANK_LINE (s :: l), orElse bookFileNameBase (lit "PastedText"))
  | _ => None
  end.

(** [transliterate(t).replace(...).substring(0, 50) || "AudiobookPart"] *)
Definition sanitizeFileNameBase (mainTitleForChunks : jsstring) : jsstring :=
  orElse (substring (replaceOtherChars (transliterate mainTitleForChunks)) 0 50)
         (lit "AudiobookPart").

(** [createAudiobookChunks(input, ai, bookFileNameBase, onProgress,
    voicePrompt)]; an argument left out is [None] and takes its default. *)
Definition createAudiobookChunks (input : ChunkingInput) (ai : option Oracle)
           (bookFileNameBaseArg voicePromptArg : option jsstring)
  : M Completion :=
  let bookFileNameBase :=
    match bookFileNameBaseArg with Some b => b | None => lit "Audiobook" end in
  let voicePrompt :=
    match voicePromptArg with Some v => v | None => [] end in
  match ai with
  | None =>
    ret (throws (lit "Gemini API not initialized for token counting and chunking."))
  | Some ai =>
    match readInput input bookFileNameBase with
    | None => ret (returns [])
    | Some (fullTextContent, mainTitleForChunks) =>
      let fullTextContent := trim fullTextContent in
      if negb (nonEmpty fullTextContent) then ret (returns [])
      else
        let allParagraphs := splitTextIntoParagraphs fullTextContent in
        let candidateChunkTexts :=
          aggregateParagraphsIntoChunks allParagraphs
                                        IDEAL_CHARS_PER_CHUNK_TARGET in
        if Nat.eqb (List.length candidateChunkTexts) 0
           && (0 <? len fullTextContent)
        then
          newId <- drawUUID ;;
          ret (returns [aggregateErrorChunk newId bookFileNameBase])
        else
          let sanitizedFileNameBase := sanitizeFileNameBase mainTitleForChunks in
          st <- forEachM (validateCandidate ai voicePrompt mainTitleForChunks
                                            sanitizedFileNameBase)
                         candidateChunkTexts ([], 0) ;;
          ret (returns (fst st))
    end
  end.

End CreateAudiobookChunks.

(* ================================================================== *)
(** * utils/wavUtils.ts                                                 *)
(* ================================================================== *)

Module Wav.

(** A byte buffer ([Uint8Array], [ArrayBuffer] seen through a [DataView],
    the content of a [Blob]): the list of its bytes. *)
Definition bytes := list Z.

Definition byteAt (b : bytes) (i : Z) : Z :=
  if i <? 0 then 0 else nth (Z.to_nat i) b 0.

(** [view.setUint8(offset, value)]. The offsets written by the code are
    inside the buffer; an offset outside leaves the model unchanged. *)
Fixpoint setNth (b : bytes) (n : nat) (v : Z) : bytes :=
  match b, n with
  | [], _ => []
  | _ :: b', O => v :: b'
  | x :: b', S n' => x :: setNth b' n' v
  end.

Definition setUint8 (view : bytes) (offset value : Z) : bytes :=
  if offset <? 0 then view else setNth view (Z.to_nat offset) (value mod 256).

(** [view.setUint16(offset, value, true)] *)
Definition setUint16 (view : bytes) (offset value : Z) : bytes :=
  let v := value mod 65536 in
  setUint8 (setUint8 view offset v) (offset + 1) (v / 256).

(** [view.setUint32(offset, value, true)] *)
Definition setUint32 (view : bytes) (offset value : Z) : bytes :=
  let v := value mod 4294967296 in
  setUint8 (setUint8 (setUint8 (setUint8 view offset v)
                               (offset + 1) (v / 256))
                     (offset + 2) (v / 65536))
           (offset + 3) (v / 16777216).

(** [dataView.getInt16(offset, true)] *)
Definition getInt16 (view : bytes) (offset : Z) : Z :=
  let u := byteAt view offset + 256 * byteAt view (offset + 1) in
  if u <? 32768 then u else u - 65536.

(** [view.getUint32(offset, true)], as a reader of the header would. *)
Definition getUint32 (view : bytes) (offset : Z) : Z :=
  byteAt view offset + 256 * byteAt view (offset + 1)
  + 65536 * byteAt view (offset + 2) + 16777216 * byteAt view (offset + 3).

(** [writeString(view, offset, string)] *)
Fixpoint writeString (view : bytes) (offset : Z) (s : jsstring) : bytes :=
  match s with
  | [] => view
  | c :: s' => writeString (setUint8 view offset c) (offset + 1) s'
  end.

(** [b.subarray(0, e)] *)
Definition subarray0 (b : bytes) (e : Z) : bytes :=
  let n := len b in
  let e' := if e <? 0 then Z.max 0 (n + e) else Z.min e n in
  firstn (Z.to_nat e') b.

Definition SILENCE_THRESHOLD : Z := 5.
Definition MIN_SILENCE_DURATION_MS : Z := 2000.
Definition PADDING_DURATION_MS : Z := 500.
Definition BYTES_PER_SAMPLE : Z := 2.

(** The backward scan [for (let i = samples - 1; i >= 0; i--)].
    [samples = pcmDataBytes.length / 2] is a half-integer when the length
    is odd, so the scan is followed by the byte offset
    [i * BYTES_PER_SAMPLE], which is [length - 2], [length - 4], ... and
    always an integer; there are [floor (length / 2)] rounds. The result is
    [lastNonSilentSample * BYTES_PER_SAMPLE], hence [-2] when every sample
    is silent. *)
Fixpoint scanBack (pcm : bytes) (offset : Z) (rounds : nat) : Z :=
  match rounds with
  | O => -1 * BYTES_PER_SAMPLE
  | S rounds' =>
    let sampleValue := getInt16 pcm offset in
    if SILENCE_THRESHOLD <? Z.abs sampleValue then offset
    else scanBack pcm (offset - BYTES_PER_SAMPLE) rounds'
  end.

Definition lastNonSilentOffset (pcm : bytes) : Z :=
  scanBack pcm (len pcm - BYTES_PER_SAMPLE) (Z.to_nat (len pcm / BYTES_PER_SAMPLE)).

(** The block [if (bitDepth === 16 && pcmDataBytes.length > 0) { ... }].
    With [o = lastNonSilentSample * 2] and every quantity doubled:
    [samples - lastNonSilentSample > minSilenceSamples] is
    [length - o > 2 * minSilenceSamples], where
    [minSilenceSamples = (2000 / 1000) * sampleRate]; and
    [newByteLength = min(samples, lastNonSilentSample + paddingSamples) * 2]
    is [min(length, o + 2 * paddingSamples)], where
    [paddingSamples = floor((500 / 1000) * sampleRate)]. *)
Definition trimTrailingSilence (pcm : bytes) (sampleRate bitDepth : Z) : bytes :=
  if (bitDepth =? 16) && (0 <? len pcm) then
    let minSilenceSamples := (MIN_SILENCE_DURATION_MS / 1000) * sampleRate in
    let o := lastNonSilentOffset pcm in
    if (-1 * BYTES_PER_SAMPLE <? o)
       && (BYTES_PER_SAMPLE * minSilenceSamples <? len pcm - o)
    then
      let paddingSamples := (PADDING_DURATION_MS * sampleRate) / 1000 in
      let newByteLength := Z.min (len pcm) (o + BYTES_PER_SAMPLE * paddingSamples) in
      subarray0 pcm newByteLength
    else pcm
  else pcm.

(** [for (let i = 0; i < dataSize; i++) view.setUint8(headerSize + i,
    pcmDataBytes[i])] *)
Fixpoint writePcm (view : bytes) (offset : Z) (pcm : bytes) : bytes :=
  match pcm with
  | [] => view
  | x :: pcm' => writePcm (setUint8 view offset x) (offset + 1) pcm'
  end.

Definition headerSize : Z := 44.

Section CreateWavBlobFromPcm.

(** [atob]: the character codes of the decoded binary string, or [None]
    when the browser function throws. *)
Variable atob : jsstring -> option (list Z).

(** [createWavBlobFromPcm(base64PcmData, sampleRate, channels, bitDepth)];
    the result is the content of the [Blob]. [bitDepth] is a multiple of
    8 and [channels] is at least 1, as [AudioParameters] has them, so
    that [bitDepth / 8] and the block alignment are positive integers.
    Only for such arguments is this the function of the source: for
    another bit depth the source divides in floating point (12 bits are
    1.5 bytes per sample), and with a block alignment of 0 it fails with
    a [RangeError]. Every property stated of this function assumes
    [0 < channels], [0 < bitDepth] and [bitDepth mod 8 = 0]. *)
Definition createWavBlobFromPcm (base64PcmData : jsstring)
           (sampleRate channels bitDepth : Z) : bytes :=
  if negb (nonEmpty base64PcmData) || negb (nonEmpty (trim base64PcmData))
  then []
  else
    match atob base64PcmData with
    | None => []
    | Some byteCharacters =>
      let pcmDataBytes := map (fun c => c mod 256) byteCharacters in
      let pcmDataBytes := trimTrailingSilence pcmDataBytes sampleRate bitDepth in
      let bytesPerSample := bitDepth / 8 in
      let blockAlign := channels * bytesPerSample in
      let byteRate := sampleRate * blockAlign in
      let dataSize := len pcmDataBytes in
      let '(dataSize, pcmDataBytes) :=
        if negb (dataSize mod blockAlign =? 0)
        then
          let dataSize' := (dataSize / blockAlign) * blockAlign in
          (dataSize', subarray0 pcmDataBytes dataSize')
        else (dataSize, pcmDataBytes) in
      let view := repeat 0 (Z.to_nat (headerSize + dataSize)) in
      let view := writeString view 0 (lit "RIFF") in
      let view := setUint32 view 4 (headerSize + dataSize - 8) in
      let view := writeString view 8 (lit "WAVE") in
      let view := writeString view 12 (lit "fmt ") in
      let view := setUint32 view 16 16 in
      let view := setUint16 view 20 1 in
      let view := setUint16 view 22 channels in
      let view := setUint32 view 24 sampleRate in
      let view := setUint32 view 28 byteRate in
      let view := setUint16 view 32 blockAlign in
      let view := setUint16 view 34 bitDepth in
      let view := writeString view 36 (lit "data") in
      let view := setUint32 view 40 dataSize in
      writePcm view headerSize (firstn (Z.to_nat dataSize) pcmDataBytes)
    end.

End CreateWavBlobFromPcm.

(** The number of 16-bit samples in the data section of a WAV file, as its
    header declares it. *)
Definition declaredSamples (wav : bytes) : Z := getUint32 wav 40 / 2.

(** The bytes that follow the header. *)
Definition dataSection (wav : bytes) : bytes := skipn (Z.to_nat headerSize) wav.

(** Little-endian 16-bit encoding of a list of samples. *)
Definition encodeInt16 (samples : list Z) : bytes :=
  flat_map (fun v => [v mod 256; (v / 256) mod 256]) samples.

End Wav.

(* ================================================================== *)
(** * Sample runs                                                       *)
(* ================================================================== *)

(** Three newlines are one separator; a single newline is none; a
    separator at the end leaves an empty last piece. *)
Example split_blank_lines_sample :
  split matchBlankLines
        (lit "a" ++ [NL; NL; NL] ++ lit "b" ++ [NL] ++ lit "c" ++ [NL; NL])
  = [lit "a"; lit "b" ++ [NL] ++ lit "c"; []].
Proof. reflexivity. Qed.

Example splitTextIntoParagraphs_sample :
  splitTextIntoParagraphs
    (lit " a " ++ [NL; NL; NL] ++ lit "b" ++ [NL] ++ lit "c" ++ [NL; NL])
  = [lit "a"; lit "b" ++ [NL] ++ lit "c"].
Proof. reflexivity. Qed.

(** A sentence ends before white space that is followed by a capital; a
    lower-case letter after the white space does not start a sentence; a
    capital right after a newline does. *)
Example split_sentences_sample :
  split matchSentenceBreak
        (lit "Hello.  World! x. y? Z" ++ [NL] ++ lit "Abc" ++ [NL] ++ lit " Q")
  = [lit "Hello."; lit "World! x. y?"; lit "Z" ++ [NL]; lit "Abc" ++ [NL];
     lit "Q"].
Proof. reflexivity. Qed.

(** Cyrillic capitals start a sentence too. *)
Example split_sentences_cyrillic :
  split matchSentenceBreak ([1076; 1072; 46; 32; 1053; 1077; 1090])
  = [[1076; 1072; 46]; [1053; 1077; 1090]].
Proof. reflexivity. Qed.

Example forceSplit_sentences_sample :
  forceSplitTextRecursive_SYNC (lit "Hello there. Another one") 3000 0
  = Some [lit "Hello there."; lit "Another one"].
Proof. vm_compute. reflexivity. Qed.

(** The window is cut after the last white space at or before its end. *)
Example forceSplit_words_sample :
  forceSplitTextRecursive_SYNC (lit "abcde ghijklmno qrstuvwxyz") 10 0
  = Some [lit "abcde"; lit "ghijklmno"; lit "qrstuvwxyz"].
Proof. vm_compute. reflexivity. Qed.

Example forceSplit_no_space_sample :
  forceSplitTextRecursive_SYNC (lit "abcdefghijklmnopqrstuvwxyz") 10 0
  = Some [lit "abcdefghij"; lit "klmnopqrst"; lit "uvwxyz"].
Proof. vm_compute. reflexivity. Qed.

Example aggregate_sample :
  aggregateParagraphsIntoChunks
    [lit "abcd"; lit "e"; lit "fghijklmnop"; lit "k"; lit "l"] 10
  = [lit "abcd" ++ BLANK_LINE ++ lit "e"; lit "fghijklmnop";
     lit "k" ++ BLANK_LINE ++ lit "l"].
Proof. reflexivity. Qed.

(** Twelve loud samples and thirty silent ones at 10 Hz: the silence is
    longer than 20 samples, the padding is 5 samples, and the WAV keeps
    the bytes of 11 + 5 samples. *)
Example createWavBlobFromPcm_sample :
  Wav.declaredSamples
    (Wav.createWavBlobFromPcm
       (fun _ => Some (Wav.encodeInt16 (repeat 1000 12 ++ repeat (-3) 30)))
       (lit "base64") 10 1 16)
  = 16.
Proof. vm_compute. reflexivity. Qed.

(* ================================================================== *)
(** * Vocabulary of the properties                                      *)
(* ================================================================== *)

(** A text with its white space taken out: two texts that agree up to the
    white space that separates their parts have the same image. *)
Definition stripWhiteSpace (s : jsstring) : jsstring :=
  filter (fun c => negb (isWhiteSpace c)) s.

(** The texts of a list of chunks, one after the other in index order, up
    to white space. *)
Definition coveredText (chunks : list AudiobookChunk.t) : jsstring :=
  stripWhiteSpace (concat (map AudiobookChunk.text chunks)).

(** The text that [createAudiobookChunks] sets out to chunk: the content
    of the first chapter, or the pasted strings joined by blank lines. *)
Definition inputText (input : ChunkingInput) : jsstring :=
  match input with
  | chapters (chapter :: _) => ExtractedChapter.content chapter
  | strings l => join BLANK_LINE l
  | chapters [] => []
  end.

(** The test the application applies before synthesis:
    [chunk.fileName.endsWith('_OVERSIZED.wav')]. *)
Definition flaggedOversized (c : AudiobookChunk.t) : bool :=
  endsWith (AudiobookChunk.fileName c) (lit "_OVERSIZED.wav").

Definition inErrorStatus (c : AudiobookChunk.t) : bool :=
  match AudiobookChunk.status c with error => true | _ => false end.

(** The suffixes of the naming convention. *)
Definition fileNameSuffixes : list jsstring :=
  [ []; lit "_OVERSIZED"; lit "_TOKEN_ERR"; lit "_SUB_TOKEN_ERR" ].

(** [`${base}_Part_${String(n).padStart(3, '0')}${suffix}.wav`] *)
Definition partFileName (base : jsstring) (n : Z) (suffix : jsstring) : jsstring :=
  base ++ lit "_Part_" ++ padStart (numberToString n) 3 48 ++ suffix ++ lit ".wav".

(** The sanitized base of the file names of a run: what
    [createAudiobookChunks] computes from its input and its
    [bookFileNameBase] argument. *)
Definition fileNameBaseOf (transliterate : jsstring -> jsstring)
           (input : ChunkingInput) (bookFileNameBaseArg : option jsstring)
  : jsstring :=
  match readInput input (match bookFileNameBaseArg with
                         | Some b => b
                         | None => lit "Audiobook"
                         end) with
  | Some (_, mainTitleForChunks) =>
    sanitizeFileNameBase transliterate mainTitleForChunks
  | None => []
  end.

(** No character of the string is white space. *)
Definition noWhiteSpace (s : jsstring) : Prop :=
  Forall (fun c => isWhiteSpace c = false) s.

(* ================================================================== *)
(** * Facts about strings                                               *)
(* ================================================================== *)

Section StringFacts.

Lemma len_nonneg (s : jsstring) : 0 <= len s.
Proof. unfold len. lia. Qed.

Lemma len_app (s t : jsstring) : len (s ++ t) = len s + len t.
Proof. unfold len. rewrite length_app. lia. Qed.

Lemma len_zero_iff (s : jsstring) : len s = 0 <-> s = [].
Proof.
  unfold len. destruct s; simpl; split; intro H; try reflexivity;
    try discriminate; lia.
Qed.

Lemma nonEmpty_len (s : jsstring) : nonEmpty s = (0 <? len s).
Proof. unfold len. destruct s; simpl; [reflexivity|]. symmetry. apply Z.ltb_lt. lia. Qed.

Lemma strip_app (s t : jsstring) :
  stripWhiteSpace (s ++ t) = stripWhiteSpace s ++ stripWhiteSpace t.
Proof. apply filter_app. Qed.

Lemma strip_rev (s : jsstring) :
  stripWhiteSpace (rev s) = rev (stripWhiteSpace s).
Proof.
  induction s as [|c s IH]; simpl; [reflexivity|].
  rewrite strip_app, IH. simpl.
  destruct (isWhiteSpace c); simpl; [apply app_nil_r | reflexivity].
Qed.

Lemma strip_dropWhile (s : jsstring) :
  stripWhiteSpace (dropWhile isWhiteSpace s) = stripWhiteSpace s.
Proof.
  induction s as [|c s IH]; simpl; [reflexivity|].
  destruct (isWhiteSpace c) eqn:E; simpl; [exact IH|].
  rewrite E. reflexivity.
Qed.

Lemma strip_trim (s : jsstring) : stripWhiteSpace (trim s) = stripWhiteSpace s.
Proof.
  unfold trim, trimEnd, trimStart.
  rewrite strip_rev, strip_dropWhile, strip_rev, rev_involutive.
  apply strip_dropWhile.
Qed.

Lemma strip_all_space (s : jsstring) :
  Forall (fun c => isWhiteSpace c = true) s -> stripWhiteSpace s = [].
Proof.
  induction 1 as [|c s Hc _ IH]; simpl; [reflexivity|].
  rewrite Hc. exact IH.
Qed.

Lemma strip_nil_all_space (s : jsstring) :
  stripWhiteSpace s = [] -> Forall (fun c => isWhiteSpace c = true) s.
Proof.
  induction s as [|c s IH]; simpl; intro H; [constructor|].
  destruct (isWhiteSpace c) eqn:E; simpl in H; [|discriminate].
  constructor; auto.
Qed.

Lemma strip_noWhiteSpace (s : jsstring) :
  noWhiteSpace s -> stripWhiteSpace s = s.
Proof.
  induction 1 as [|c s Hc _ IH]; simpl; [reflexivity|].
  rewrite Hc. simpl. now rewrite IH.
Qed.

Lemma dropWhile_all (f : Z -> bool) (s : jsstring) :
  Forall (fun c => f c = true) s -> dropWhile f s = [].
Proof.
  induction 1 as [|c s Hc _ IH]; simpl; [reflexivity|]. now rewrite Hc.
Qed.

Lemma dropWhile_length (f : Z -> bool) (s : jsstring) :
  (List.length (dropWhile f s) <= List.length s)%nat.
Proof.
  induction s as [|c s IH]; simpl; [lia|]. destruct (f c); simpl; lia.
Qed.

Lemma trim_length (s : jsstring) : (List.length (trim s) <= List.length s)%nat.
Proof.
  unfold trim, trimEnd, trimStart. rewrite length_rev.
  etransitivity; [apply dropWhile_length|]. rewrite length_rev.
  apply dropWhile_length.
Qed.

(** A text is blank for [trim] exactly when nothing is left of it once
    its white space is taken out. *)
Lemma trim_nil_iff (s : jsstring) : trim s = [] <-> stripWhiteSpace s = [].
Proof.
  split; intro H.
  - rewrite <- strip_trim, H. reflexivity.
  - unfold trim, trimEnd, trimStart.
    rewrite (dropWhile_all _ _ (strip_nil_all_space _ H)). reflexivity.
Qed.

Lemma nonEmpty_trim_strip (s : jsstring) :
  nonEmpty (trim s) = nonEmpty (stripWhiteSpace s).
Proof.
  destruct (trim s) eqn:E1, (stripWhiteSpace s) eqn:E2; simpl; try reflexivity.
  - apply trim_nil_iff in E1. congruence.
  - apply trim_nil_iff in E2. congruence.
Qed.

Lemma dropWhile_noWhiteSpace (s : jsstring) :
  noWhiteSpace s -> dropWhile isWhiteSpace s = s.
Proof. destruct 1 as [|c s Hc _]; simpl; [reflexivity|]. now rewrite Hc. Qed.

Lemma trim_noWhiteSpace (s : jsstring) : noWhiteSpace s -> trim s = s.
Proof.
  intro H. unfold trim, trimEnd, trimStart.
  rewrite (dropWhile_noWhiteSpace _ H), dropWhile_noWhiteSpace.
  - apply rev_involutive.
  - unfold noWhiteSpace in *. rewrite Forall_forall in *.
    intros c Hc. apply H. now apply in_rev.
Qed.

Lemma concat_filter_nonEmpty (l : list jsstring) :
  concat (filter nonEmpty l) = concat l.
Proof.
  induction l as [|s l IH]; simpl; [reflexivity|].
  destruct s; simpl; [exact IH|]. now rewrite IH.
Qed.

Lemma strip_concat_map_trim (l : list jsstring) :
  stripWhiteSpace (concat (map trim l)) = stripWhiteSpace (concat l).
Proof.
  induction l as [|s l IH]; simpl; [reflexivity|].
  now rewrite !strip_app, strip_trim, IH.
Qed.

(** [substring] between two ordered positions inside the string. *)
Lemma substring_inside (s : jsstring) (a b : Z) :
  0 <= a <= b -> b <= len s ->
  substring s a b = firstn (Z.to_nat (b - a)) (skipn (Z.to_nat a) s).
Proof.
  intros H1 H2. unfold substring, clamp.
  replace (Z.min (Z.max 0 (Z.min a (len s))) (Z.max 0 (Z.min b (len s)))) with a by lia.
  replace (Z.max (Z.max 0 (Z.min a (len s))) (Z.max 0 (Z.min b (len s)))) with b by lia.
  reflexivity.
Qed.

Lemma skipn_split (s : jsstring) (a b : Z) :
  0 <= a <= b ->
  skipn (Z.to_nat a) s = firstn (Z.to_nat (b - a)) (skipn (Z.to_nat a) s)
                         ++ skipn (Z.to_nat b) s.
Proof.
  intros H.
  replace (Z.to_nat b) with (Z.to_nat (b - a) + Z.to_nat a)%nat by lia.
  rewrite <- skipn_skipn. symmetry. apply firstn_skipn.
Qed.

Lemma substring_length (s : jsstring) (a b : Z) :
  0 <= a <= b -> b <= len s -> len (substring s a b) = b - a.
Proof.
  intros H1 H2. rewrite substring_inside by assumption.
  unfold len in *. rewrite length_firstn, length_skipn. lia.
Qed.

End StringFacts.

(* ================================================================== *)
(** * Facts about [split]                                               *)
(* ================================================================== *)

Section SplitFacts.

Variable matchAt : jsstring -> jsstring -> option nat.

(** The separators of the expression are made of white space. *)
Hypothesis matchAt_space :
  forall before rest k,
    matchAt before rest = Some k ->
    Forall (fun c => isWhiteSpace c = true) (firstn k rest).

Lemma splitLoop_strip (rest : jsstring) :
  forall before cur skip,
    Forall (fun c => isWhiteSpace c = true) (firstn skip rest) ->
    stripWhiteSpace (concat (splitLoop matchAt before cur skip rest))
    = stripWhiteSpace (rev cur) ++ stripWhiteSpace rest.
Proof.
  induction rest as [|c rest IH]; intros before cur skip Hskip.
  - simpl. now rewrite !app_nil_r.
  - cbn [splitLoop]. destruct skip as [|k].
    + destruct (matchAt before (c :: rest)) as [[|k]|] eqn:E.
      * destruct cur as [|d cur].
        -- rewrite IH by (simpl; constructor). simpl.
           destruct (isWhiteSpace c); reflexivity.
        -- cbn [concat]. rewrite strip_app, IH by (simpl; constructor).
           simpl. destruct (isWhiteSpace c); reflexivity.
      * apply matchAt_space in E. cbn [firstn] in E.
        inversion E as [|? ? Hc Hk]; subst.
        cbn [concat]. rewrite strip_app, IH by exact Hk.
        simpl. now rewrite Hc.
      * rewrite IH by (simpl; constructor).
        cbn [rev]. rewrite strip_app. simpl.
        destruct (isWhiteSpace c); simpl; now rewrite <- app_assoc.
    + cbn [firstn] in Hskip. inversion Hskip as [|? ? Hc Hk]; subst.
      rewrite IH by exact Hk. simpl. now rewrite Hc.
Qed.

(** Nothing but separator white space is lost by [split]. *)
Lemma split_strip (s : jsstring) :
  stripWhiteSpace (concat (split matchAt s)) = stripWhiteSpace s.
Proof. unfold split. rewrite splitLoop_strip by constructor. reflexivity. Qed.

End SplitFacts.

Section SplitLengths.

Variable matchAt : jsstring -> jsstring -> option nat.

Lemma splitLoop_piece_length (rest : jsstring) :
  forall before cur skip piece,
    In piece (splitLoop matchAt before cur skip rest) ->
    (List.length piece <= List.length cur + List.length rest)%nat.
Proof.
  induction rest as [|c rest IH]; intros before cur skip piece Hin.
  - simpl in Hin. destruct Hin as [<-|[]]. rewrite length_rev. lia.
  - cbn [splitLoop] in Hin. cbn [List.length]. destruct skip as [|k].
    + destruct (matchAt before (c :: rest)) as [[|k]|].
      * destruct cur as [|d cur].
        -- apply IH in Hin. simpl in *. lia.
        -- destruct Hin as [<-|Hin].
           ++ rewrite length_rev. lia.
           ++ apply IH in Hin. simpl in *. lia.
      * destruct Hin as [<-|Hin].
        -- rewrite length_rev. lia.
        -- apply IH in Hin. simpl in *. lia.
      * apply IH in Hin. simpl in *. lia.
    + apply IH in Hin. lia.
Qed.

Lemma split_piece_length (s piece : jsstring) :
  In piece (split matchAt s) -> (List.length piece <= List.length s)%nat.
Proof. intro H. apply splitLoop_piece_length in H. simpl in H. lia. Qed.

Lemma splitLoop_nonempty (rest : jsstring) :
  forall before cur skip, splitLoop matchAt before cur skip rest <> [].
Proof.
  induction rest as [|c rest IH]; intros before cur skip; cbn [splitLoop].
  - discriminate.
  - destruct skip; [|apply IH].
    destruct (matchAt before (c :: rest)) as [[|k]|];
      try destruct cur; try discriminate; apply IH.
Qed.

End SplitLengths.

Lemma runLength_firstn (f : Z -> bool) (s : jsstring) :
  Forall (fun c => f c = true) (firstn (runLength f s) s).
Proof.
  induction s as [|c s IH]; simpl; [constructor|].
  destruct (f c) eqn:E; simpl; constructor; assumption.
Qed.

Lemma isNewline_space (c : Z) : isNewline c = true -> isWhiteSpace c = true.
Proof. unfold isNewline, NL. intro H. apply Z.eqb_eq in H. now subst. Qed.

Lemma matchBlankLines_space (before rest : jsstring) (k : nat) :
  matchBlankLines before rest = Some k ->
  Forall (fun c => isWhiteSpace c = true) (firstn k rest).
Proof.
  unfold matchBlankLines. destruct rest as [|a [|b rest]]; try discriminate.
  destruct (isNewline a) eqn:Ea; [|discriminate].
  destruct (isNewline b) eqn:Eb; [|discriminate].
  simpl. intro H. injection H as <-. cbn [firstn].
  constructor; [now apply isNewline_space|].
  constructor; [now apply isNewline_space|].
  eapply Forall_impl; [|apply runLength_firstn].
  intros c. apply isNewline_space.
Qed.

Lemma matchSentenceBreak_space (before rest : jsstring) (k : nat) :
  matchSentenceBreak before rest = Some k ->
  Forall (fun c => isWhiteSpace c = true) (firstn k rest).
Proof.
  unfold matchSentenceBreak. destruct before as [|b before]; [discriminate|].
  intro H.
  assert (k = runLength isWhiteSpace rest) as ->.
  { repeat match type of H with
           | (if ?b then _ else _) = _ => destruct b
           end; congruence. }
  apply runLength_firstn.
Qed.

(** Splitting into paragraphs loses white space only. *)
Lemma splitTextIntoParagraphs_strip (text : jsstring) :
  stripWhiteSpace (concat (splitTextIntoParagraphs text)) = stripWhiteSpace text.
Proof.
  unfold splitTextIntoParagraphs.
  rewrite concat_filter_nonEmpty, strip_concat_map_trim.
  apply split_strip, matchBlankLines_space.
Qed.

(* ================================================================== *)
(** * The character-window loop                                         *)
(* ================================================================== *)

Lemma isSpaceAt_inside (text : jsstring) (i : Z) :
  isSpaceAt text i = true -> 0 <= i < len text.
Proof.
  unfold isSpaceAt. destruct (Z.ltb_spec i 0); [discriminate|].
  destruct (nth_error text (Z.to_nat i)) eqn:E; [|discriminate].
  intros _. assert (Z.to_nat i < List.length text)%nat
    by (apply nth_error_Some; congruence).
  unfold len. lia.
Qed.

Lemma findSpaceBack_range (text : jsstring) (currentPos : Z) (n : nat) (i : Z) :
  findSpaceBack text currentPos n = Some i ->
  currentPos < i <= currentPos + Z.of_nat n /\ isSpaceAt text i = true.
Proof.
  induction n as [|n IH]; cbn [findSpaceBack]; [discriminate|].
  destruct (isSpaceAt text (currentPos + Z.of_nat (S n))) eqn:E.
  - intro H. injection H as <-. split; [lia | exact E].
  - intro H. apply IH in H. destruct H as [H1 H2]. split; [lia | exact H2].
Qed.

Lemma findSpaceBack_none (text : jsstring) (currentPos : Z) (n : nat) :
  noWhiteSpace text -> findSpaceBack text currentPos n = None.
Proof.
  intro H. induction n as [|n IH]; cbn [findSpaceBack]; [reflexivity|].
  replace (isSpaceAt text (currentPos + Z.of_nat (S n))) with false; [exact IH|].
  unfold isSpaceAt. destruct (_ <? 0); [reflexivity|].
  destruct (nth_error text _) as [c|] eqn:E; [|reflexivity].
  apply nth_error_In in E. unfold noWhiteSpace in H.
  rewrite Forall_forall in H. symmetry. now apply H.
Qed.

(** Each round moves the cursor forward, and never beyond the end. *)
Lemma nextSplitPoint_progress (text : jsstring) (targetCharLength currentPos : Z) :
  0 < targetCharLength ->
  0 <= currentPos < len text ->
  currentPos < nextSplitPoint text targetCharLength currentPos <= len text.
Proof.
  intros Ht Hc. unfold nextSplitPoint.
  destruct (Z.ltb_spec (Z.min (currentPos + targetCharLength) (len text)) (len text));
    [|lia].
  destruct (findSpaceBack _ _ _) as [i|] eqn:E.
  - apply findSpaceBack_range in E. destruct E as [E1 E2].
    apply isSpaceAt_inside in E2. lia.
  - destruct (_ && _) eqn:E2; [|lia].
    apply andb_prop in E2. destruct E2 as [_ E2]. apply Z.ltb_lt in E2. lia.
Qed.

(** On a text without white space the window is cut at the target. *)
Lemma nextSplitPoint_noWhiteSpace (text : jsstring) (targetCharLength currentPos : Z) :
  noWhiteSpace text ->
  0 < targetCharLength ->
  nextSplitPoint text targetCharLength currentPos
  = Z.min (currentPos + targetCharLength) (len text).
Proof.
  intros Hn Ht. unfold nextSplitPoint.
  destruct (Z.ltb_spec (Z.min (currentPos + targetCharLength) (len text)) (len text));
    [|reflexivity].
  rewrite findSpaceBack_none by assumption.
  destruct (Z.ltb_spec (2 * (Z.min (currentPos + targetCharLength) (len text) - currentPos))
                       targetCharLength); simpl; [lia | reflexivity].
Qed.

Lemma charWindowLoop_total (text : jsstring) (targetCharLength : Z) :
  0 < targetCharLength ->
  forall fuel currentPos results,
    0 <= currentPos ->
    (Z.to_nat (len text - currentPos) <= fuel)%nat ->
    exists r, charWindowLoop fuel text targetCharLength currentPos results = Some r.
Proof.
  intros Ht. induction fuel as [|fuel IH]; intros currentPos results Hc Hf.
  - cbn [charWindowLoop]. destruct (Z.ltb_spec currentPos (len text)); [lia|].
    eexists; reflexivity.
  - cbn [charWindowLoop]. destruct (Z.ltb_spec currentPos (len text)).
    + pose proof (nextSplitPoint_progress text targetCharLength currentPos Ht
                                          (conj Hc H)) as Hp.
      apply IH; lia.
    + eexists; reflexivity.
Qed.

Lemma charWindowLoop_more_fuel (text : jsstring) (targetCharLength : Z) :
  forall fuel fuel' currentPos results r,
    charWindowLoop fuel text targetCharLength currentPos results = Some r ->
    (fuel <= fuel')%nat ->
    charWindowLoop fuel' text targetCharLength currentPos results = Some r.
Proof.
  induction fuel as [|fuel IH]; intros fuel' currentPos results r H Hle.
  - cbn [charWindowLoop] in H. destruct fuel'; cbn [charWindowLoop];
      destruct (currentPos <? len text); congruence.
  - destruct fuel' as [|fuel']; [lia|].
    cbn [charWindowLoop] in *. destruct (currentPos <? len text); [|exact H].
    apply IH; [exact H | lia].
Qed.

(** The parts of the loop cover what lies after the cursor. *)
Lemma charWindowLoop_strip (text : jsstring) (targetCharLength : Z) :
  0 < targetCharLength ->
  forall fuel currentPos results r,
    0 <= currentPos <= len text ->
    charWindowLoop fuel text targetCharLength currentPos results = Some r ->
    stripWhiteSpace (concat r)
    = stripWhiteSpace (concat results)
      ++ stripWhiteSpace (skipn (Z.to_nat currentPos) text).
Proof.
  intros Ht. induction fuel as [|fuel IH]; intros currentPos results r Hc H;
    cbn [charWindowLoop] in H;
    destruct (Z.ltb_spec currentPos (len text)) as [Hlt|Hge].
  - discriminate.
  - injection H as <-. rewrite skipn_all2 by (unfold len in *; lia).
    now rewrite app_nil_r.
  - pose proof (nextSplitPoint_progress text targetCharLength currentPos Ht
                                        (conj (proj1 Hc) Hlt)) as Hp.
    apply IH in H; [|lia]. rewrite H.
    rewrite (skipn_split text currentPos
                         (nextSplitPoint text targetCharLength currentPos)) by lia.
    rewrite strip_app, app_assoc. f_equal.
    rewrite <- substring_inside by lia.
    destruct (trim (substring text currentPos _)) eqn:E; cbn [nonEmpty].
    + apply trim_nil_iff in E. rewrite E. now rewrite app_nil_r.
    + rewrite concat_app, strip_app. cbn [concat]. rewrite app_nil_r.
      rewrite <- E, strip_trim. reflexivity.
  - injection H as <-. rewrite skipn_all2 by (unfold len in *; lia).
    now rewrite app_nil_r.
Qed.

(** With a target of 0 the cursor does not move: no amount of fuel lets
    the loop end on a text that is not empty. The positivity of the target
    is needed for termination. *)
Remark charWindowLoop_stuck_at_zero (text : jsstring) (fuel : nat) :
  nonEmpty text = true ->
  charWindowLoop fuel text 0 0 [] = None.
Proof.
  intro Hne. rewrite nonEmpty_len in Hne. apply Z.ltb_lt in Hne.
  assert (Hnext : nextSplitPoint text 0 0 = 0).
  { unfold nextSplitPoint. replace (Z.min (0 + 0) (len text)) with 0 by lia.
    destruct (Z.ltb_spec 0 (len text)); [|lia]. reflexivity. }
  generalize (@nil jsstring) as results.
  induction fuel as [|fuel IH]; intro results; cbn [charWindowLoop];
    destruct (Z.ltb_spec 0 (len text)); try lia; [reflexivity|].
  rewrite Hnext. apply IH.
Qed.

(* ================================================================== *)
(** * The recursive splitter                                            *)
(* ================================================================== *)

Lemma flatMapM_total {A B : Type} (f : A -> option (list B)) (l : list A) :
  (forall x, In x l -> exists ys, f x = Some ys) ->
  exists zs, flatMapM f l = Some zs.
Proof.
  induction l as [|x l IH]; intro H; cbn [flatMapM].
  - eexists; reflexivity.
  - destruct (H x (or_introl eq_refl)) as [ys ->].
    destruct IH as [zs ->]; [intros; apply H; now right|].
    eexists; reflexivity.
Qed.

Lemma flatMapM_ext {A B : Type} (f g : A -> option (list B)) (l : list A) zs :
  flatMapM f l = Some zs ->
  (forall x ys, In x l -> f x = Some ys -> g x = Some ys) ->
  flatMapM g l = Some zs.
Proof.
  revert zs. induction l as [|x l IH]; intros zs H Hfg; cbn [flatMapM] in *.
  - exact H.
  - destruct (f x) as [ys|] eqn:Ef; [|discriminate].
    rewrite (Hfg x ys (or_introl eq_refl) Ef).
    destruct (flatMapM f l) as [zs'|] eqn:El; [|discriminate].
    rewrite (IH zs' eq_refl); [exact H|].
    intros; apply Hfg; [now right | assumption].
Qed.

Lemma flatMapM_strip {A : Type} (f : A -> option (list jsstring))
      (g : A -> jsstring) (l : list A) zs :
  flatMapM f l = Some zs ->
  (forall x ys, In x l -> f x = Some ys ->
                stripWhiteSpace (concat ys) = stripWhiteSpace (g x)) ->
  stripWhiteSpace (concat zs) = stripWhiteSpace (concat (map g l)).
Proof.
  revert zs. induction l as [|x l IH]; intros zs H Hf; cbn [flatMapM] in H.
  - injection H as <-. reflexivity.
  - destruct (f x) as [ys|] eqn:Ef; [|discriminate].
    destruct (flatMapM f l) as [zs'|] eqn:El; [|discriminate].
    injection H as <-. cbn [map concat].
    rewrite concat_app, !strip_app.
    rewrite (Hf x ys (or_introl eq_refl) Ef).
    rewrite (IH zs' eq_refl); [reflexivity|].
    intros; eapply Hf; [now right | eassumption].
Qed.

(** More fuel of either kind never changes a result. *)
Lemma forceSplit_more_fuel (targetCharLength : Z) :
  forall rfuel rfuel' lfuel lfuel' text depth r,
    forceSplit rfuel lfuel text targetCharLength depth = Some r ->
    (rfuel <= rfuel')%nat -> (lfuel <= lfuel')%nat ->
    forceSplit rfuel' lfuel' text targetCharLength depth = Some r.
Proof.
  induction rfuel as [|rfuel IH];
    intros rfuel' lfuel lfuel' text depth r H Hr Hl; [discriminate|].
  destruct rfuel' as [|rfuel']; [lia|].
  cbn [forceSplit] in *.
  destruct (negb (nonEmpty (trim text))); [exact H|].
  destruct (15 <? depth)%nat; [exact H|].
  destruct (_ && _); [exact H|].
  assert (Hrec : forall (l : list jsstring) zs,
             flatMapM (fun piece =>
                         if nonEmpty (trim piece)
                         then forceSplit rfuel lfuel (trim piece) targetCharLength (S depth)
                         else Some []) l = Some zs ->
             flatMapM (fun piece =>
                         if nonEmpty (trim piece)
                         then forceSplit rfuel' lfuel' (trim piece) targetCharLength (S depth)
                         else Some []) l = Some zs).
  { intros l zs Hz. eapply flatMapM_ext; [exact Hz|].
    intros x ys _ Hx. cbv beta in *. destruct (nonEmpty (trim x)); [|exact Hx].
    eapply IH; [exact Hx | lia | lia]. }
  destruct (1 <? List.length (split matchBlankLines text))%nat.
  { destruct (flatMapM _ (split matchBlankLines text)) as [zs|] eqn:E;
      [|discriminate].
    rewrite (Hrec _ _ E). exact H. }
  destruct (1 <? List.length _)%nat.
  { destruct (flatMapM _ (filter _ _)) as [zs|] eqn:E; [|discriminate].
    rewrite (Hrec _ _ E). exact H. }
  destruct (charWindowLoop lfuel _ _ _ _) as [results|] eqn:E; [|discriminate].
  rewrite (charWindowLoop_more_fuel _ _ _ _ _ _ _ E Hl). exact H.
Qed.

(** With recursion fuel up to the depth limit and loop fuel beyond the
    length of the text, the splitter returns. *)
Lemma forceSplit_total (targetCharLength : Z) (lfuel : nat) :
  0 < targetCharLength ->
  forall rfuel text depth,
    (1 <= rfuel)%nat ->
    (17 <= rfuel + depth)%nat ->
    (List.length text < lfuel)%nat ->
    exists r, forceSplit rfuel lfuel text targetCharLength depth = Some r.
Proof.
  intros Ht. induction rfuel as [|rfuel IH]; intros text depth Hr1 Hr Hl.
  - exfalso. lia.
  - cbn [forceSplit].
    destruct (negb (nonEmpty (trim text))); [eexists; reflexivity|].
    destruct (Nat.ltb_spec 15 depth); [eexists; reflexivity|].
    destruct (_ && _); [eexists; reflexivity|].
    assert (Hrec : forall l : list jsstring,
               (forall x, In x l -> (List.length x <= List.length text)%nat) ->
               exists zs,
                 flatMapM (fun piece =>
                             if nonEmpty (trim piece)
                             then forceSplit rfuel lfuel (trim piece)
                                             targetCharLength (S depth)
                             else Some []) l = Some zs).
    { intros l Hlen. apply flatMapM_total. intros x Hx. cbv beta.
      destruct (nonEmpty (trim x)); [|eexists; reflexivity].
      apply IH; [lia | lia |].
      pose proof (trim_length x). specialize (Hlen x Hx). lia. }
    destruct (1 <? List.length (split matchBlankLines text))%nat.
    { destruct (Hrec (split matchBlankLines text)) as [zs ->];
        [apply split_piece_length|]. eexists; reflexivity. }
    destruct (1 <? List.length _)%nat.
    { destruct (Hrec (filter nonEmpty (map trim (split matchSentenceBreak text))))
        as [zs ->]; [|eexists; reflexivity].
      intros x Hx. apply filter_In in Hx. destruct Hx as [Hx _].
      apply in_map_iff in Hx. destruct Hx as [y [<- Hy]].
      apply split_piece_length in Hy. pose proof (trim_length y). lia. }
    destruct (charWindowLoop_total text targetCharLength Ht lfuel 0 [])
      as [results ->]; [lia | unfold len; lia |].
    eexists; reflexivity.
Qed.

(** The fragments cover the text: only white space is lost. *)
Lemma forceSplit_strip (targetCharLength : Z) (lfuel : nat) :
  0 < targetCharLength ->
  forall rfuel text depth r,
    forceSplit rfuel lfuel text targetCharLength depth = Some r ->
    stripWhiteSpace (concat r) = stripWhiteSpace text.
Proof.
  intros Ht. induction rfuel as [|rfuel IH]; intros text depth r H;
    [discriminate|].
  cbn [forceSplit] in H.
  destruct (trim text) eqn:Etrim; cbn [nonEmpty negb] in H.
  { injection H as <-. apply trim_nil_iff in Etrim. now rewrite Etrim. }
  destruct (15 <? depth)%nat.
  { injection H as <-. simpl. now rewrite app_nil_r. }
  destruct (_ && _).
  { injection H as <-. simpl. now rewrite app_nil_r. }
  assert (Hrec : forall (l : list jsstring) zs,
             flatMapM (fun piece =>
                         if nonEmpty (trim piece)
                         then forceSplit rfuel lfuel (trim piece)
                                         targetCharLength (S depth)
                         else Some []) l = Some zs ->
             stripWhiteSpace (concat (filter nonEmpty zs))
             = stripWhiteSpace (concat l)).
  { intros l zs Hz. rewrite concat_filter_nonEmpty.
    rewrite (flatMapM_strip _ (fun x => x) l zs Hz); [now rewrite map_id|].
    intros x ys _ Hx. cbv beta in Hx.
    destruct (trim x) eqn:Ex; cbn [nonEmpty] in Hx.
    - injection Hx as <-. apply trim_nil_iff in Ex. now rewrite Ex.
    - apply IH in Hx. rewrite Hx, <- Ex. apply strip_trim. }
  destruct (1 <? List.length (split matchBlankLines text))%nat.
  { destruct (flatMapM _ (split matchBlankLines text)) as [zs|] eqn:E;
      [|discriminate].
    injection H as <-. rewrite (Hrec _ _ E).
    apply split_strip, matchBlankLines_space. }
  destruct (1 <? List.length _)%nat.
  { destruct (flatMapM _ (filter _ _)) as [zs|] eqn:E; [|discriminate].
    injection H as <-. rewrite (Hrec _ _ E).
    rewrite concat_filter_nonEmpty, strip_concat_map_trim.
    apply split_strip, matchSentenceBreak_space. }
  destruct (charWindowLoop lfuel _ _ _ _) as [results|] eqn:E; [|discriminate].
  injection H as <-. rewrite concat_filter_nonEmpty.
  apply charWindowLoop_strip in E; [|assumption | pose proof (len_nonneg text); lia].
  cbn [concat stripWhiteSpace filter Z.to_nat skipn app] in E.
  destruct (_ && _) eqn:Eb; [|exact E].
  apply andb_prop in Eb. destruct Eb as [Eb _]. apply Nat.eqb_eq in Eb.
  destruct results; [|discriminate]. cbn [concat app]. rewrite app_nil_r.
  reflexivity.
Qed.

(** ** Texts without white space *)

Section NoMatch.

Variable matchAt : jsstring -> jsstring -> option nat.

(** When the expression matches nowhere, [split] returns the string. *)
Lemma splitLoop_no_match (rest : jsstring) :
  forall before cur,
    (forall pre post, rest = pre ++ post -> post <> [] ->
                      matchAt (rev pre ++ before) post = None) ->
    splitLoop matchAt before cur O rest = [rev cur ++ rest].
Proof.
  induction rest as [|c rest IH]; intros before cur H; cbn [splitLoop].
  - now rewrite app_nil_r.
  - pose proof (H [] (c :: rest) eq_refl ltac:(discriminate)) as H0.
    cbn [rev app] in H0. rewrite H0, IH.
    + cbn [rev]. now rewrite <- app_assoc.
    + intros pre post -> Hpost.
      specialize (H (c :: pre) post eq_refl Hpost).
      cbn [rev] in H. now rewrite <- app_assoc in H.
Qed.

End NoMatch.

Lemma noWhiteSpace_app (s t : jsstring) :
  noWhiteSpace (s ++ t) <-> noWhiteSpace s /\ noWhiteSpace t.
Proof. apply Forall_app. Qed.

Lemma noWhiteSpace_rev (s : jsstring) : noWhiteSpace s -> noWhiteSpace (rev s).
Proof. apply Forall_rev. Qed.

Lemma matchBlankLines_noWhiteSpace (before post : jsstring) :
  noWhiteSpace post -> matchBlankLines before post = None.
Proof.
  intro H. unfold matchBlankLines. destruct post as [|a [|b post]]; try reflexivity.
  inversion H as [|? ? Ha _]; subst.
  destruct (isNewline a) eqn:E; [|reflexivity].
  apply isNewline_space in E. congruence.
Qed.

Lemma matchSentenceBreak_noWhiteSpace (before post : jsstring) :
  noWhiteSpace before -> noWhiteSpace post -> post <> [] ->
  matchSentenceBreak before post = None.
Proof.
  intros Hb Hp Hne. unfold matchSentenceBreak.
  destruct before as [|b before]; [reflexivity|].
  destruct post as [|p post]; [congruence|].
  inversion Hp as [|? ? Hp1 _]; subst. inversion Hb as [|? ? Hb1 _]; subst.
  cbn [runLength]. rewrite Hp1. cbn [Nat.eqb negb].
  rewrite andb_false_r. cbn [andb].
  destruct (isNewline b) eqn:E; [|reflexivity].
  apply isNewline_space in E. congruence.
Qed.

Lemma split_noWhiteSpace_blank (text : jsstring) :
  noWhiteSpace text -> split matchBlankLines text = [text].
Proof.
  intro H. unfold split. rewrite splitLoop_no_match; [reflexivity|].
  intros pre post -> _. apply matchBlankLines_noWhiteSpace.
  now apply noWhiteSpace_app in H.
Qed.

Lemma split_noWhiteSpace_sentence (text : jsstring) :
  noWhiteSpace text -> split matchSentenceBreak text = [text].
Proof.
  intro H. unfold split. rewrite splitLoop_no_match; [reflexivity|].
  intros pre post -> Hne. apply noWhiteSpace_app in H. destruct H as [H1 H2].
  rewrite app_nil_r.
  apply matchSentenceBreak_noWhiteSpace; auto using noWhiteSpace_rev.
Qed.

Lemma noWhiteSpace_firstn (n : nat) (s : jsstring) :
  noWhiteSpace s -> noWhiteSpace (firstn n s).
Proof.
  revert s. induction n as [|n IH]; intros s H; [constructor|].
  destruct H as [|c s Hc Hs]; cbn [firstn]; constructor; auto.
  now apply IH.
Qed.

Lemma noWhiteSpace_skipn (n : nat) (s : jsstring) :
  noWhiteSpace s -> noWhiteSpace (skipn n s).
Proof.
  revert s. induction n as [|n IH]; intros s H; [exact H|].
  destruct H as [|c s Hc Hs]; cbn [skipn]; [constructor|]. now apply IH.
Qed.

Lemma substring_noWhiteSpace (text : jsstring) (a b : Z) :
  noWhiteSpace text -> noWhiteSpace (substring text a b).
Proof.
  intro H. unfold substring. now apply noWhiteSpace_firstn, noWhiteSpace_skipn.
Qed.

(** Number of windows of [t] characters needed for [n] characters. *)
Definition windows (n t : Z) : Z := (n + t - 1) / t.

Lemma windows_step (n t : Z) : 0 < t -> t <= n -> windows n t = 1 + windows (n - t) t.
Proof.
  intros Ht Hn. unfold windows.
  replace (n + t - 1) with ((n - t + t - 1) + 1 * t) by lia.
  rewrite Z.div_add by lia. lia.
Qed.

Lemma windows_last (n t : Z) : 0 < n <= t -> windows n t = 1.
Proof.
  intros H. unfold windows. symmetry. apply Z.div_unique with (r := n - 1). all: lia.
Qed.

Lemma windows_zero (t : Z) : 0 < t -> windows 0 t = 0.
Proof. intro H. unfold windows. apply Z.div_small. lia. Qed.

(** On a text without white space, the loop cuts windows of exactly the
    target length, the last one possibly shorter. *)
Lemma charWindowLoop_noWhiteSpace (text : jsstring) (targetCharLength : Z) :
  noWhiteSpace text ->
  0 < targetCharLength ->
  forall fuel currentPos results r,
    0 <= currentPos <= len text ->
    charWindowLoop fuel text targetCharLength currentPos results = Some r ->
    exists parts,
      r = results ++ parts /\
      Forall (fun p => 0 < len p <= targetCharLength) parts /\
      Z.of_nat (List.length parts) = windows (len text - currentPos) targetCharLength.
Proof.
  intros Hn Ht. induction fuel as [|fuel IH]; intros currentPos results r Hc H;
    cbn [charWindowLoop] in H;
    destruct (Z.ltb_spec currentPos (len text)) as [Hlt|Hge].
  - discriminate.
  - injection H as <-. exists []. rewrite app_nil_r.
    replace (len text - currentPos) with 0 by lia.
    rewrite windows_zero by assumption. repeat split; constructor.
  - rewrite nextSplitPoint_noWhiteSpace in H by assumption.
    set (sp := Z.min (currentPos + targetCharLength) (len text)) in *.
    rewrite trim_noWhiteSpace in H by now apply substring_noWhiteSpace.
    assert (Hlen : len (substring text currentPos sp) = sp - currentPos)
      by (apply substring_length; lia).
    rewrite nonEmpty_len, Hlen in H.
    destruct (Z.ltb_spec 0 (sp - currentPos)); [|lia].
    apply IH in H; [|lia]. destruct H as [parts [-> [Hall Hcount]]].
    exists (substring text currentPos sp :: parts).
    rewrite <- app_assoc. split; [reflexivity|]. split.
    + constructor; [rewrite Hlen; lia | exact Hall].
    + cbn [List.length]. rewrite Nat2Z.inj_succ, Hcount.
      destruct (Z.le_gt_cases (currentPos + targetCharLength) (len text)).
      * replace sp with (currentPos + targetCharLength) by lia.
        rewrite (windows_step (len text - currentPos)) by lia.
        replace (len text - (currentPos + targetCharLength))
          with (len text - currentPos - targetCharLength) by lia.
        lia.
      * replace sp with (len text) by lia.
        rewrite Z.sub_diag, windows_zero, windows_last by lia. reflexivity.
  - injection H as <-. exists []. rewrite app_nil_r.
    replace (len text - currentPos) with 0 by lia.
    rewrite windows_zero by assumption. repeat split; constructor.
Qed.

Lemma filter_nonEmpty_positive (l : list jsstring) (t : Z) :
  Forall (fun p => 0 < len p <= t) l -> filter nonEmpty l = l.
Proof.
  induction 1 as [|p l Hp _ IH]; cbn [filter]; [reflexivity|].
  rewrite nonEmpty_len. destruct (Z.ltb_spec 0 (len p)); [|lia]. now rewrite IH.
Qed.

(** The splitter on a text without white space that is too long to be
    returned as it is: neither expression matches, and the result is that
    of the character-window loop. *)
Lemma forceSplit_noWhiteSpace (text : jsstring) (targetCharLength : Z)
      (depth rfuel lfuel : nat) (results : list jsstring) :
  noWhiteSpace text ->
  nonEmpty text = true ->
  (depth <=? 15)%nat = true ->
  (2 * len text <=? 3 * targetCharLength) = false ->
  charWindowLoop lfuel text targetCharLength 0 [] = Some results ->
  forceSplit (S rfuel) lfuel text targetCharLength depth
  = Some (filter nonEmpty
                 (if Nat.eqb (List.length results) 0 && (0 <? len text)
                  then results ++ [text] else results)).
Proof.
  intros Hn Hne Hd Hl Hr. cbn [forceSplit].
  rewrite trim_noWhiteSpace by assumption. rewrite Hne. cbn [negb].
  replace (15 <? depth)%nat with false
    by (symmetry; apply Nat.ltb_ge; now apply Nat.leb_le).
  rewrite Hl. cbn [andb].
  rewrite split_noWhiteSpace_blank, split_noWhiteSpace_sentence by assumption.
  cbn [map filter List.length Nat.ltb Nat.leb].
  rewrite trim_noWhiteSpace by assumption. rewrite Hne.
  cbn [List.length Nat.ltb Nat.leb]. rewrite Hr. reflexivity.
Qed.

(* ================================================================== *)
(** * Properties of the recursive splitter                              *)
(* ================================================================== *)

(** C3 (termination). For every text and every positive target length,
    [forceSplitTextRecursive_SYNC] returns. Recursion fuel up to the depth
    limit is enough whatever the text (a call at depth 16 returns at
    once), loop fuel beyond the length of the text is enough, more fuel
    gives the same fragments, and every round of the character-window loop
    moves the cursor strictly forward without passing the end. Nothing is
    assumed about white space in the text. *)
Theorem forceSplit_terminates (text : jsstring) (targetCharLength : Z) (depth : nat) :
  0 < targetCharLength ->
  (exists fragments,
      forceSplitTextRecursive_SYNC text targetCharLength depth = Some fragments /\
      forall rfuel lfuel,
        (1 <= rfuel)%nat -> (17 <= rfuel + depth)%nat ->
        (List.length text < lfuel)%nat ->
        forceSplit rfuel lfuel text targetCharLength depth = Some fragments)
  /\ (forall currentPos,
         0 <= currentPos < len text ->
         currentPos < nextSplitPoint text targetCharLength currentPos <= len text).
Proof.
  intro Ht. split.
  - destruct (forceSplit_total targetCharLength (S (List.length text)) Ht
                               (Nat.max 1 (17 - depth)) text depth)
      as [fragments Hf]; try lia.
    exists fragments. split.
    + unfold forceSplitTextRecursive_SYNC, DEPTH_FUEL.
      eapply forceSplit_more_fuel; [exact Hf | lia | lia].
    + intros rfuel lfuel H1 H2 H3.
      eapply forceSplit_more_fuel; [exact Hf | lia | lia].
  - intros currentPos Hc. now apply nextSplitPoint_progress.
Qed.

Lemma forceSplit_terminates_witness :
  (exists fragments,
      forceSplitTextRecursive_SYNC (lit "no-space-here") 4 0 = Some fragments /\
      forall rfuel lfuel,
        (1 <= rfuel)%nat -> (17 <= rfuel + 0)%nat ->
        (List.length (lit "no-space-here") < lfuel)%nat ->
        forceSplit rfuel lfuel (lit "no-space-here") 4 0 = Some fragments)
  /\ (forall currentPos,
         0 <= currentPos < len (lit "no-space-here") ->
         currentPos < nextSplitPoint (lit "no-space-here") 4 currentPos
         <= len (lit "no-space-here")).
Proof. apply (forceSplit_terminates (lit "no-space-here") 4 0). lia. Defined.

(** C6 (character-window scenario). A text of 20,000 characters without
    white space (whether or not it holds sentence punctuation), split with
    target length 500 from depth 0, gives exactly 40 fragments, each of at
    most 500 characters. *)
Theorem char_window_scenario (text : jsstring) :
  len text = 20000 ->
  noWhiteSpace text ->
  exists fragments,
    forceSplitTextRecursive_SYNC text 500 0 = Some fragments /\
    Z.of_nat (List.length fragments) = 40 /\
    Forall (fun f => len f <= 500) fragments.
Proof.
  intros Hlen Hn.
  assert (Ht : 0 < 500) by lia.
  assert (H0 : 0 <= 0 <= len text) by lia.
  destruct (charWindowLoop_total text 500 Ht (S (List.length text)) 0 [])
    as [results Hr]; [lia | unfold len; lia |].
  destruct (charWindowLoop_noWhiteSpace text 500 Hn Ht _ 0 [] _ H0 Hr)
    as [parts [-> [Hall Hcount]]].
  cbn [app] in Hr. exists parts. split; [|split].
  - unfold forceSplitTextRecursive_SYNC.
    change DEPTH_FUEL with (S 16).
    rewrite (forceSplit_noWhiteSpace text 500 0 16 _ parts Hn); auto.
    + destruct parts as [|p ps]; [rewrite Hlen in Hcount; discriminate|].
      cbn [List.length Nat.eqb andb]. f_equal.
      eapply filter_nonEmpty_positive. exact Hall.
    + destruct text; [discriminate | reflexivity].
    + rewrite Hlen. reflexivity.
  - rewrite Hcount, Hlen. reflexivity.
  - eapply Forall_impl; [|exact Hall]. cbv beta. intros; lia.
Qed.

Lemma noWhiteSpace_repeat (c : Z) (n : nat) :
  isWhiteSpace c = false -> noWhiteSpace (repeat c n).
Proof.
  intro H. unfold noWhiteSpace. apply Forall_forall. intros x Hx.
  apply repeat_spec in Hx. now subst.
Qed.

Lemma len_repeat (c : Z) (n : Z) : 0 <= n -> len (repeat c (Z.to_nat n)) = n.
Proof. intro H. unfold len. rewrite repeat_length. lia. Qed.

Lemma char_window_scenario_witness :
  exists fragments,
    forceSplitTextRecursive_SYNC (repeat 97 (Z.to_nat 20000)) 500 0 = Some fragments /\
    Z.of_nat (List.length fragments) = 40 /\
    Forall (fun f => len f <= 500) fragments.
Proof.
  apply (char_window_scenario (repeat 97 (Z.to_nat 20000))).
  - apply len_repeat. lia.
  - apply noWhiteSpace_repeat. reflexivity.
Defined.

(** C9, as stated, fails: the one-character text made of a space is not
    empty, yet the splitter returns no fragment for it. *)
Lemma splitter_blank_input_counterexample :
  lit " " <> [] /\
  forceSplitTextRecursive_SYNC (lit " ") 10 0 = Some [].
Proof. split; [discriminate | reflexivity]. Qed.

(* ================================================================== *)
(** * Properties of the aggregator                                      *)
(* ================================================================== *)

Section Aggregator.

Variable charTarget : Z.

(** How a state of the loop of the source relates to a state of the
    rule: they are the same, or the source has already emitted a
    paragraph of at least [charTarget] characters that the rule still
    holds in its buffer, where nothing can join it. *)
Definition aggregateSim (st spec : list jsstring * jsstring) : Prop :=
  st = spec \/
  (snd st = [] /\ charTarget <= len (snd spec) /\
   fst st = fst spec ++ [snd spec]).

Lemma aggregateSim_step (st spec : list jsstring * jsstring) (p : jsstring) :
  0 < charTarget ->
  aggregateSim st spec ->
  aggregateSim (aggregateStep charTarget st p) (greedyRuleStep charTarget spec p).
Proof.
  intros Ht [<- | [Hcur [Hlen Hch]]].
  - destruct st as [chunks cur]. unfold aggregateStep, greedyRuleStep.
    destruct cur as [|c cur].
    + change (len []) with 0. cbn [Z.eqb andb Z.ltb Z.compare].
      destruct (Z.leb_spec charTarget (len p)).
      * destruct (Z.ltb_spec charTarget (len p)).
        -- left. reflexivity.
        -- right. cbn [fst snd]. split; [reflexivity|]. split; [lia|reflexivity].
      * destruct (Z.ltb_spec charTarget (len p)); [lia|].
        rewrite andb_false_r. left. reflexivity.
    + assert (Hpos : 0 < len (c :: cur))
        by (unfold len; cbn [List.length]; lia).
      destruct (Z.eqb_spec (len (c :: cur)) 0); [lia|]. cbn [andb].
      destruct (Z.ltb_spec 0 (len (c :: cur))); [|lia].
      rewrite andb_true_r, !len_app, Z.add_assoc. left. reflexivity.
  - destruct st as [chunks cur], spec as [cands buf]. cbn [fst snd] in *.
    subst cur chunks. unfold aggregateStep, greedyRuleStep.
    change (len []) with 0. cbn [Z.eqb andb Z.ltb Z.compare].
    destruct buf as [|b buf]; [change (len []) with 0 in Hlen; lia|].
    rewrite !len_app.
    assert (Hb : len BLANK_LINE = 2) by reflexivity.
    pose proof (len_nonneg p).
    destruct (Z.ltb_spec charTarget (len (b :: buf) + (len BLANK_LINE + len p)));
      [|lia].
    destruct (Z.leb_spec charTarget (len p)).
    + right. cbn [fst snd]. split; [reflexivity|].
      split; [assumption | reflexivity].
    + rewrite andb_false_r. left. reflexivity.
Qed.

Lemma aggregateSim_fold (paragraphs : list jsstring) :
  0 < charTarget ->
  forall st spec,
    aggregateSim st spec ->
    aggregateSim (fold_left (aggregateStep charTarget) paragraphs st)
                 (fold_left (greedyRuleStep charTarget) paragraphs spec).
Proof.
  intro Ht. induction paragraphs as [|p ps IH]; intros st spec H; cbn [fold_left].
  - exact H.
  - apply IH. now apply aggregateSim_step.
Qed.

End Aggregator.

(** C4 (greedy rule of the aggregator). For every list of paragraphs and
    every positive [charTarget], [aggregateParagraphsIntoChunks] returns
    what the rule of the specification returns: paragraphs gathered in a
    buffer with a blank line between them, the buffer flushed exactly when
    it is not empty and the next paragraph with its separator would take
    it beyond [charTarget], a paragraph longer than [charTarget] that
    meets an empty buffer emitted alone at once, and the remaining buffer
    flushed at the end. *)
Theorem aggregate_follows_greedy_rule (paragraphs : list jsstring) (charTarget : Z) :
  0 < charTarget ->
  aggregateParagraphsIntoChunks paragraphs charTarget
  = greedyRule paragraphs charTarget.
Proof.
  intro Ht. unfold aggregateParagraphsIntoChunks, greedyRule.
  destruct paragraphs as [|p ps]; [reflexivity|].
  pose proof (aggregateSim_fold charTarget (p :: ps) Ht ([], []) ([], [])
                                (or_introl eq_refl)) as H.
  destruct (fold_left (aggregateStep charTarget) (p :: ps) ([], []))
    as [chunks cur].
  destruct (fold_left (greedyRuleStep charTarget) (p :: ps) ([], []))
    as [cands buf].
  unfold aggregateFlush. destruct H as [H | [Hcur [Hlen Hch]]].
  - injection H as -> ->. rewrite <- nonEmpty_len. now destruct buf.
  - cbn [fst snd] in *. subst cur chunks. change (len []) with 0.
    cbn [Z.ltb Z.compare]. destruct buf; [change (len []) with 0 in Hlen; lia|].
    reflexivity.
Qed.

Lemma aggregate_follows_greedy_rule_witness :
  aggregateParagraphsIntoChunks [lit "abcd"; lit "e"; lit "fghij"; lit "k"] 4
  = greedyRule [lit "abcd"; lit "e"; lit "fghij"; lit "k"] 4.
Proof.
  apply (aggregate_follows_greedy_rule
           [lit "abcd"; lit "e"; lit "fghij"; lit "k"] 4).
  lia.
Defined.

(** ** Paragraphs as [splitTextIntoParagraphs] produces them *)

(** Two newlines in a row somewhere in the string. *)
Fixpoint hasBlankLine (s : jsstring) : bool :=
  match s with
  | [] => false
  | a :: s' =>
    match s' with
    | [] => false
    | b :: _ => (isNewline a && isNewline b) || hasBlankLine s'
    end
  end.

(** A paragraph with no blank line inside that starts and ends with a
    character other than white space. *)
Definition cleanParagraph (p : jsstring) : Prop :=
  hasBlankLine p = false /\
  (exists c t, p = c :: t /\ isWhiteSpace c = false) /\
  (exists d u, rev p = d :: u /\ isWhiteSpace d = false).

Lemma hasBlankLine_suffix (a s : jsstring) :
  hasBlankLine (a ++ s) = false -> hasBlankLine s = false.
Proof.
  induction a as [|x a IH]; [auto|]. cbn [app hasBlankLine].
  destruct (a ++ s) eqn:E.
  - destruct a; [|discriminate]. cbn [app] in E. now subst.
  - intro H. apply orb_false_elim in H. apply IH, H.
Qed.

Lemma hasBlankLine_prefix (s t : jsstring) :
  hasBlankLine (s ++ t) = false -> hasBlankLine s = false.
Proof.
  induction s as [|x s IH]; [reflexivity|]. cbn [app hasBlankLine].
  destruct s as [|b s]; [reflexivity|]. cbn [app]. intro H.
  apply orb_false_elim in H. destruct H as [H1 H2].
  rewrite H1. cbn [orb]. apply IH. exact H2.
Qed.

Lemma dropWhile_suffix (f : Z -> bool) (s : jsstring) :
  exists a, s = a ++ dropWhile f s.
Proof.
  induction s as [|c s [a IH]]; [exists []; reflexivity|]. cbn [dropWhile].
  destruct (f c).
  - exists (c :: a). cbn [app]. now f_equal.
  - exists []. reflexivity.
Qed.

Lemma dropWhile_head (f : Z -> bool) (s : jsstring) (c : Z) (t : jsstring) :
  dropWhile f s = c :: t -> f c = false.
Proof.
  induction s as [|x s IH]; cbn [dropWhile]; [discriminate|].
  destruct (f x) eqn:E; [exact IH|]. intro H. injection H as -> _. exact E.
Qed.

Lemma dropWhile_snoc (f : Z -> bool) (l : jsstring) (c : Z) :
  f c = false -> dropWhile f (l ++ [c]) = dropWhile f l ++ [c].
Proof.
  intro H. induction l as [|x l IH]; cbn [app dropWhile].
  - now rewrite H.
  - destruct (f x); [exact IH | reflexivity].
Qed.

Lemma trim_segment (s : jsstring) : exists a b, s = a ++ trim s ++ b.
Proof.
  unfold trim, trimEnd, trimStart.
  destruct (dropWhile_suffix isWhiteSpace s) as [a Ha].
  destruct (dropWhile_suffix isWhiteSpace (rev (dropWhile isWhiteSpace s)))
    as [b Hb].
  exists a, (rev b). rewrite <- rev_app_distr, <- Hb, rev_involutive. exact Ha.
Qed.

Lemma trim_clean (s : jsstring) :
  hasBlankLine s = false -> trim s <> [] -> cleanParagraph (trim s).
Proof.
  intros Hb Hne. split; [|split].
  - destruct (trim_segment s) as [a [b Hs]]. rewrite Hs in Hb.
    apply hasBlankLine_suffix in Hb. now apply hasBlankLine_prefix in Hb.
  - unfold trim, trimEnd, trimStart in *.
    destruct (dropWhile isWhiteSpace s) as [|c t] eqn:E; [now elim Hne|].
    pose proof (dropWhile_head _ _ _ _ E) as Hc.
    exists c. cbn [rev]. rewrite dropWhile_snoc by exact Hc.
    rewrite rev_app_distr. cbn [rev app]. eauto.
  - unfold trim, trimEnd in *. rewrite rev_involutive.
    destruct (dropWhile isWhiteSpace (rev (trimStart s))) as [|d u] eqn:E;
      [now elim Hne|].
    exists d, u. split; [reflexivity|]. exact (dropWhile_head _ _ _ _ E).
Qed.

Lemma clean_trim (p : jsstring) : cleanParagraph p -> trim p = p.
Proof.
  intros [_ [[c [t [-> Hc]]] [d [u [Hr Hd]]]]].
  unfold trim, trimEnd, trimStart. cbn [dropWhile]. rewrite Hc, Hr.
  cbn [dropWhile]. rewrite Hd, <- Hr. apply rev_involutive.
Qed.

Lemma clean_nonEmpty (p : jsstring) : cleanParagraph p -> nonEmpty p = true.
Proof. intros [_ [[c [t [-> _]]] _]]. reflexivity. Qed.

Lemma hasBlankLine_app_snoc (s : jsstring) (c d : Z) :
  hasBlankLine (s ++ [c]) = false ->
  isNewline c && isNewline d = false ->
  hasBlankLine ((s ++ [c]) ++ [d]) = false.
Proof.
  intros Hs Hcd. induction s as [|x s IH].
  - cbn [app hasBlankLine]. rewrite Hcd. reflexivity.
  - destruct s as [|y s].
    + cbn [app hasBlankLine] in *. rewrite Hcd.
      apply orb_false_elim in Hs. destruct Hs as [-> _]. reflexivity.
    + cbn [app hasBlankLine] in Hs. apply orb_false_elim in Hs.
      destruct Hs as [Hxy Hs]. specialize (IH Hs).
      cbn [app] in IH. cbn [app hasBlankLine]. rewrite Hxy. exact IH.
Qed.

Lemma hasBlankLine_snoc (cur : jsstring) (c d : Z) :
  hasBlankLine (rev (c :: cur)) = false ->
  isNewline c && isNewline d = false ->
  hasBlankLine (rev (c :: cur) ++ [d]) = false.
Proof. cbn [rev]. apply hasBlankLine_app_snoc. Qed.

(** The pieces that [split] cuts at blank lines hold no blank line. *)
Lemma splitLoop_blank_pieces (rest : jsstring) :
  forall before cur skip piece,
    hasBlankLine (rev cur) = false ->
    (skip <> O -> cur = []) ->
    (forall c cur' d rest', cur = c :: cur' -> rest = d :: rest' ->
                            isNewline c && isNewline d = false) ->
    In piece (splitLoop matchBlankLines before cur skip rest) ->
    hasBlankLine piece = false.
Proof.
  induction rest as [|d rest IH]; intros before cur skip piece Hcur Hskip Hadj Hin.
  - destruct Hin as [<-|[]]. exact Hcur.
  - assert (Hpush : hasBlankLine (rev (d :: cur)) = false).
    { cbn [rev]. destruct cur as [|c cur']; [reflexivity|].
      apply hasBlankLine_snoc; [exact Hcur|]. eapply Hadj; reflexivity. }
    cbn [splitLoop] in Hin. destruct skip as [|k].
    + unfold matchBlankLines in Hin at 1.
      destruct rest as [|e rest].
      * eapply IH; [exact Hpush | (intro Hk; now elim Hk) | discriminate | exact Hin].
      * destruct (isNewline d && isNewline e) eqn:E.
        -- destruct Hin as [<-|Hin]; [exact Hcur|].
           eapply IH; [ | | | exact Hin]; [reflexivity | reflexivity | discriminate].
        -- eapply IH; [exact Hpush | (intro Hk; now elim Hk) | | exact Hin].
           intros c cur' d' rest' Hc Hd. injection Hc as <- _.
           injection Hd as <- _. exact E.
    + rewrite (Hskip ltac:(discriminate)) in *.
      eapply IH; [ | | | exact Hin]; [reflexivity | reflexivity | discriminate].
Qed.

Lemma splitTextIntoParagraphs_clean (text : jsstring) :
  Forall cleanParagraph (splitTextIntoParagraphs text).
Proof.
  apply Forall_forall. intros p Hp. unfold splitTextIntoParagraphs in Hp.
  apply filter_In in Hp. destruct Hp as [Hp Hne].
  apply in_map_iff in Hp. destruct Hp as [x [<- Hx]].
  apply trim_clean.
  - unfold split in Hx. eapply splitLoop_blank_pieces; [ | | | exact Hx].
    + reflexivity.
    + reflexivity.
    + discriminate.
  - intro E. rewrite E in Hne. discriminate.
Qed.

(** Scanning a stretch that holds no blank line and does not end with a
    newline: nothing is cut. *)
Lemma splitLoop_scan (s : jsstring) :
  forall d before cur rest,
    hasBlankLine (s ++ [d]) = false ->
    isNewline d = false ->
    splitLoop matchBlankLines before cur O ((s ++ [d]) ++ rest)
    = splitLoop matchBlankLines (rev (s ++ [d]) ++ before)
                (rev (s ++ [d]) ++ cur) O rest.
Proof.
  induction s as [|a s IH]; intros d before cur rest Hb Hd.
  - cbn [app rev splitLoop]. unfold matchBlankLines at 1. rewrite Hd.
    cbn [andb]. now destruct rest.
  - cbn [app splitLoop]. unfold matchBlankLines at 1.
    destruct ((s ++ [d]) ++ rest) as [|b tl] eqn:E.
    { destruct s; discriminate. }
    assert (Hab : isNewline a && isNewline b = false).
    { destruct s as [|y s]; cbn [app] in E; injection E as <- _;
        cbn [app hasBlankLine] in Hb.
      - rewrite Hd. apply andb_false_r.
      - apply orb_false_elim in Hb. apply Hb. }
    rewrite Hab, <- E.
    assert (Hb' : hasBlankLine (s ++ [d]) = false)
      by (apply (hasBlankLine_suffix [a]); exact Hb).
    rewrite (IH d (a :: before) (a :: cur) rest Hb' Hd).
    cbn [rev]. now rewrite <- !app_assoc.
Qed.

Lemma clean_snoc (p : jsstring) :
  cleanParagraph p ->
  exists s d, p = s ++ [d] /\ hasBlankLine (s ++ [d]) = false
              /\ isNewline d = false.
Proof.
  intros [Hb [_ [d [u [Hr Hd]]]]]. exists (rev u), d.
  assert (p = rev u ++ [d]) as ->.
  { rewrite <- (rev_involutive p), Hr. reflexivity. }
  repeat split; [exact Hb|].
  destruct (isNewline d) eqn:E; [|reflexivity].
  apply isNewline_space in E. congruence.
Qed.

Lemma clean_head_not_newline (p : jsstring) :
  cleanParagraph p -> exists c t, p = c :: t /\ isNewline c = false.
Proof.
  intros [_ [[c [t [-> Hc]]] _]]. exists c, t. split; [reflexivity|].
  destruct (isNewline c) eqn:E; [|reflexivity].
  apply isNewline_space in E. congruence.
Qed.

(** Splitting a join of clean paragraphs gives them back. *)
Lemma splitLoop_join_clean (g : list jsstring) :
  Forall cleanParagraph g -> g <> [] ->
  forall before,
    splitLoop matchBlankLines before [] O (join BLANK_LINE g) = g.
Proof.
  induction 1 as [|p g Hp Hg IH]; intros Hne before; [congruence|].
  destruct (clean_snoc p Hp) as [s [d [-> [Hb Hd]]]].
  destruct g as [|q g].
  - cbn [join]. rewrite <- (app_nil_r (s ++ [d])) at 1.
    rewrite splitLoop_scan by assumption. cbn [splitLoop].
    now rewrite app_nil_r, rev_involutive.
  - change (join BLANK_LINE ((s ++ [d]) :: q :: g))
      with ((s ++ [d]) ++ BLANK_LINE ++ join BLANK_LINE (q :: g)).
    rewrite splitLoop_scan by assumption.
    inversion Hg as [|? ? Hq _]; subst.
    destruct (clean_head_not_newline q Hq) as [c [t [-> Hc]]].
    specialize (IH ltac:(discriminate)
                   (NL :: NL :: rev (s ++ [d]) ++ before)).
    set (J := join _ _) in *.
    assert (Hj : exists tl, J = c :: tl)
      by (subst J; destruct g; cbn [join app]; eauto).
    clearbody J. destruct Hj as [tl ->].
    unfold BLANK_LINE. cbn [app splitLoop].
    unfold matchBlankLines at 1.
    replace (isNewline NL) with true by reflexivity. cbn [andb runLength].
    rewrite Hc. cbn [splitLoop]. rewrite app_nil_r, rev_involutive.
    f_equal. exact IH.
Qed.

Lemma splitTextIntoParagraphs_join_clean (g : list jsstring) :
  Forall cleanParagraph g ->
  splitTextIntoParagraphs (join BLANK_LINE g) = g.
Proof.
  intro Hg. destruct g as [|p g]; [reflexivity|].
  unfold splitTextIntoParagraphs, split.
  rewrite splitLoop_join_clean by (assumption || discriminate).
  assert (Hmap : map trim (p :: g) = p :: g).
  { clear -Hg. induction Hg as [|x l Hx _ IH]; [reflexivity|]. cbn [map].
    now rewrite clean_trim, IH. }
  rewrite Hmap. clear Hmap.
  induction Hg as [|x l Hx _ IH]; [reflexivity|]. cbn [filter].
  now rewrite clean_nonEmpty, IH.
Qed.

Lemma join_snoc (sep : jsstring) (g : list jsstring) (p : jsstring) :
  g <> [] -> join sep (g ++ [p]) = join sep g ++ sep ++ p.
Proof.
  induction g as [|x g IH]; [congruence|]. intros _.
  destruct g as [|y g]; [reflexivity|].
  change (join sep ((x :: y :: g) ++ [p]))
    with (x ++ sep ++ join sep ((y :: g) ++ [p])).
  rewrite IH by discriminate.
  change (join sep (x :: y :: g)) with (x ++ sep ++ join sep (y :: g)).
  now rewrite <- !app_assoc.
Qed.

Lemma join_nil_clean (g : list jsstring) :
  Forall cleanParagraph g -> join BLANK_LINE g = [] -> g = [].
Proof.
  intros Hg Hj. destruct g as [|p g]; [reflexivity|].
  inversion Hg as [|? ? Hp _]; subst.
  destruct Hp as [_ [[c [t [-> _]]] _]].
  destruct g; discriminate.
Qed.

Lemma flat_map_snoc {A B : Type} (f : A -> list B) (l : list A) (x : A) :
  flat_map f (l ++ [x]) = flat_map f l ++ f x.
Proof. rewrite flat_map_app. cbn [flat_map]. now rewrite app_nil_r. Qed.

(** The loop of the aggregator keeps, in its buffer, a join of clean
    paragraphs; re-splitting what it has emitted and what it holds gives
    the paragraphs read so far. *)
Lemma aggregate_resplit_fold (charTarget : Z) (paragraphs : list jsstring) :
  Forall cleanParagraph paragraphs ->
  forall chunks cur g done,
    Forall cleanParagraph g ->
    cur = join BLANK_LINE g ->
    flat_map splitTextIntoParagraphs chunks ++ g = done ->
    flat_map splitTextIntoParagraphs
             (aggregateFlush (fold_left (aggregateStep charTarget) paragraphs
                                        (chunks, cur)))
    = done ++ paragraphs.
Proof.
  induction 1 as [|p ps Hp Hps IH]; intros chunks cur g done Hg Hcur Hdone.
  - cbn [fold_left]. unfold aggregateFlush. rewrite app_nil_r, <- nonEmpty_len.
    destruct cur as [|c cur'] eqn:Ec; cbn [nonEmpty].
    + symmetry in Hcur. apply join_nil_clean in Hcur; [|exact Hg].
      subst g. now rewrite app_nil_r in Hdone.
    + rewrite flat_map_snoc, Hcur, splitTextIntoParagraphs_join_clean by exact Hg.
      exact Hdone.
  - cbn [fold_left]. unfold aggregateStep at 2.
    destruct ((len cur =? 0) && (charTarget <=? len p)) eqn:E1.
    + apply andb_prop in E1. destruct E1 as [E1 _]. apply Z.eqb_eq in E1.
      apply len_zero_iff in E1. rewrite E1 in Hcur |- *.
      symmetry in Hcur. apply join_nil_clean in Hcur; [|exact Hg]. subst g.
      rewrite (IH (chunks ++ [p]) [] [] (done ++ [p])); auto.
      * now rewrite <- app_assoc.
      * pose proof (splitTextIntoParagraphs_join_clean
                      [p] (Forall_cons _ Hp (Forall_nil _))) as Hsp.
        cbn [join] in Hsp.
        rewrite flat_map_snoc, Hsp, app_nil_r. rewrite app_nil_r in Hdone.
        now rewrite Hdone.
    + destruct ((charTarget <? _) && (0 <? len cur)) eqn:E2.
      * rewrite (IH (chunks ++ [cur]) p [p] (done ++ [p])); auto.
        -- now rewrite <- app_assoc.
        -- rewrite flat_map_snoc, Hcur, splitTextIntoParagraphs_join_clean
             by exact Hg.
           now rewrite Hdone.
      * rewrite (IH chunks _ (g ++ [p]) (done ++ [p])); auto.
        -- now rewrite <- app_assoc.
        -- apply Forall_app. split; [exact Hg | constructor; auto].
        -- rewrite <- nonEmpty_len. destruct cur as [|c cur'] eqn:Ec;
             cbn [nonEmpty].
           ++ symmetry in Hcur. apply join_nil_clean in Hcur; [|exact Hg].
              subst g. reflexivity.
           ++ rewrite join_snoc; [now rewrite <- Hcur|].
              intros ->. discriminate.
        -- now rewrite app_assoc, Hdone.
Qed.

(** Re-splitting the candidates of clean paragraphs gives the paragraphs. *)
Lemma aggregate_resplit (paragraphs : list jsstring) (charTarget : Z) :
  Forall cleanParagraph paragraphs ->
  flat_map splitTextIntoParagraphs
           (aggregateParagraphsIntoChunks paragraphs charTarget)
  = paragraphs.
Proof.
  intro H. unfold aggregateParagraphsIntoChunks.
  destruct paragraphs as [|p ps]; [reflexivity|].
  exact (aggregate_resplit_fold charTarget (p :: ps) H [] [] [] []
                                (Forall_nil _) eq_refl eq_refl).
Qed.

(** C10 (idempotence of aggregation). [aggregateParagraphsIntoChunks] is
    private to its module and is called only on the paragraphs that
    [splitTextIntoParagraphs] returns. For the paragraphs of any text and
    any [charTarget], positive or not: splitting the candidates of
    [aggregateParagraphsIntoChunks] back into paragraphs and aggregating
    them again with the same [charTarget] gives the same candidates. *)
Theorem aggregation_idempotent (text : jsstring) (charTarget : Z) :
  aggregateParagraphsIntoChunks
    (flat_map splitTextIntoParagraphs
              (aggregateParagraphsIntoChunks (splitTextIntoParagraphs text)
                                             charTarget))
    charTarget
  = aggregateParagraphsIntoChunks (splitTextIntoParagraphs text) charTarget.
Proof.
  rewrite aggregate_resplit by apply splitTextIntoParagraphs_clean.
  reflexivity.
Qed.

(** The candidates cover the paragraphs. *)
Lemma aggregate_strip_fold (charTarget : Z) (paragraphs : list jsstring) :
  forall chunks cur,
    stripWhiteSpace
      (concat (aggregateFlush (fold_left (aggregateStep charTarget) paragraphs
                                         (chunks, cur))))
    = stripWhiteSpace (concat chunks) ++ stripWhiteSpace cur
      ++ stripWhiteSpace (concat paragraphs).
Proof.
  induction paragraphs as [|p ps IH]; intros chunks cur; cbn [fold_left].
  - unfold aggregateFlush. rewrite <- nonEmpty_len. cbn [concat].
    destruct cur; cbn [nonEmpty].
    + now rewrite !app_nil_r.
    + rewrite concat_app, strip_app. cbn [concat].
      now rewrite !app_nil_r.
  - unfold aggregateStep at 2.
    destruct ((len cur =? 0) && (charTarget <=? len p)) eqn:E1.
    + apply andb_prop in E1. destruct E1 as [E1 _]. apply Z.eqb_eq in E1.
      apply len_zero_iff in E1. subst cur. rewrite IH.
      rewrite concat_app, strip_app. cbn [concat]. rewrite app_nil_r.
      rewrite strip_app. cbn [stripWhiteSpace filter app].
      now rewrite <- !app_assoc.
    + destruct ((charTarget <? _) && (0 <? len cur)) eqn:E2; rewrite IH.
      * rewrite concat_app, strip_app. cbn [concat]. rewrite app_nil_r.
        rewrite strip_app. now rewrite <- !app_assoc.
      * cbn [concat]. rewrite !strip_app.
        replace (stripWhiteSpace (if 0 <? len cur then BLANK_LINE else []))
          with (@nil Z) by (destruct (0 <? len cur); reflexivity).
        cbn [app]. now rewrite <- !app_assoc.
Qed.

Lemma aggregate_strip (paragraphs : list jsstring) (charTarget : Z) :
  stripWhiteSpace (concat (aggregateParagraphsIntoChunks paragraphs charTarget))
  = stripWhiteSpace (concat paragraphs).
Proof.
  unfold aggregateParagraphsIntoChunks. destruct paragraphs as [|p ps];
    [reflexivity|].
  rewrite aggregate_strip_fold. reflexivity.
Qed.

Lemma strip_join_blank (l : list jsstring) :
  stripWhiteSpace (join BLANK_LINE l) = stripWhiteSpace (concat l).
Proof.
  induction l as [|p l IH]; [reflexivity|]. destruct l as [|q l].
  - cbn [join concat]. now rewrite app_nil_r.
  - change (join BLANK_LINE (p :: q :: l))
      with (p ++ BLANK_LINE ++ join BLANK_LINE (q :: l)).
    rewrite !strip_app, IH. cbn [concat]. rewrite !strip_app. reflexivity.
Qed.

(* ================================================================== *)
(** * The validation loop                                               *)
(* ================================================================== *)

#[local] Strategy 1 [forceSplit].

Lemma forceSplitTextRecursive_SYNC_total (text : jsstring)
      (targetCharLength : Z) (depth : nat) :
  0 < targetCharLength ->
  exists fragments,
    forceSplitTextRecursive_SYNC text targetCharLength depth = Some fragments.
Proof.
  intro Ht. unfold forceSplitTextRecursive_SYNC.
  apply forceSplit_total; [exact Ht | | | lia]; unfold DEPTH_FUEL; lia.
Qed.

Lemma forceSplitTextRecursive_SYNC_strip (text : jsstring)
      (targetCharLength : Z) (depth : nat) (fragments : list jsstring) :
  0 < targetCharLength ->
  forceSplitTextRecursive_SYNC text targetCharLength depth = Some fragments ->
  stripWhiteSpace (concat fragments) = stripWhiteSpace text.
Proof.
  intros Ht H. unfold forceSplitTextRecursive_SYNC in H.
  eapply forceSplit_strip; eassumption.
Qed.

#[local] Opaque forceSplitTextRecursive_SYNC.

Lemma forEachM_total {A S : Type} (body : S -> A -> M S) (l : list A) :
  (forall acc x w, exists r, body acc x w = Some r) ->
  forall acc w, exists r, forEachM body l acc w = Some r.
Proof.
  intro Hbody. induction l as [|x l IH]; intros acc w; cbn [forEachM].
  - eexists; reflexivity.
  - unfold bind. destruct (Hbody acc x w) as [[acc' w'] ->]. apply IH.
Qed.

(** A property of the loop variables that each round maintains holds when
    the loop ends. [done] lists the elements already visited. *)
Lemma forEachM_invariant {A S : Type} (body : S -> A -> M S)
      (P : list A -> S -> Prop) :
  (forall done x acc w acc' w',
      P done acc -> body acc x w = Some (acc', w') -> P (done ++ [x]) acc') ->
  forall l done acc w acc' w',
    P done acc -> forEachM body l acc w = Some (acc', w') -> P (done ++ l) acc'.
Proof.
  intro Hbody. induction l as [|x l IH]; intros done acc w acc' w' HP H;
    cbn [forEachM] in H.
  - injection H as <- _. now rewrite app_nil_r.
  - unfold bind in H. destruct (body acc x w) as [[acc1 w1]|] eqn:E;
      [|discriminate].
    replace (done ++ x :: l) with ((done ++ [x]) ++ l)
      by now rewrite <- app_assoc.
    eapply IH; [|exact H]. eapply Hbody; eassumption.
Qed.

Lemma startsWith_app (p s : jsstring) : startsWith (p ++ s) p = true.
Proof.
  induction p as [|a p IH]; [now destruct s|]. cbn [app startsWith].
  now rewrite Z.eqb_refl, IH.
Qed.

Lemma endsWith_app (s p : jsstring) : endsWith (s ++ p) p = true.
Proof. unfold endsWith. rewrite rev_app_distr. apply startsWith_app. Qed.

Section ValidationFacts.

Variable randomUUID : nat -> jsstring.
Variable ai : Oracle.
Variable voicePrompt : jsstring.
Variable mainTitleForChunks : jsstring.
Variable sanitizedFileNameBase : jsstring.

Local Abbreviation push := (pushChunk randomUUID mainTitleForChunks sanitizedFileNameBase).
Local Abbreviation validateSub :=
  (validateSubSegment randomUUID ai voicePrompt mainTitleForChunks
                      sanitizedFileNameBase).
Local Abbreviation validate :=
  (validateCandidate randomUUID ai voicePrompt mainTitleForChunks
                     sanitizedFileNameBase).

Lemma countTokensAttempts_total (remaining : nat) :
  forall attempt lastError textToCount w,
  exists r w',
    countTokensAttempts ai voicePrompt remaining attempt lastError textToCount w
    = Some (r, w').
Proof.
  induction remaining as [|n IH]; intros attempt lastError textToCount w;
    cbn [countTokensAttempts].
  - eexists _, _; reflexivity.
  - unfold bind, countTokens, sleep, ret.
    destruct (0 <? attempt);
      match goal with
      | |- context [ai ?k ?t] => destruct (ai k t) as [n'|e]
      end;
      try (eexists _, _; reflexivity);
      (destruct (isServerError e && (attempt <? MAX_RETRIES));
       [apply IH | eexists _, _; reflexivity]).
Qed.

Lemma countTokensForText_total (textToCount : jsstring) (w : World) :
  exists r w', countTokensForText ai voicePrompt textToCount w = Some (r, w').
Proof. apply countTokensAttempts_total. Qed.

(** What one [push] does. *)
Lemma push_spec (chunks : list AudiobookChunk.t) (chunkIndex : Z)
      (text suffix : jsstring) (status : ChunkStatus)
      (tokenCount : option Z) (errorDetails : option jsstring) (w : World) :
  push (chunks, chunkIndex) text suffix status tokenCount errorDetails w
  = Some ((chunks ++
             [{| AudiobookChunk.id := randomUUID (uuidsDrawn w);
                 AudiobookChunk.index := chunkIndex;
                 AudiobookChunk.text := text;
                 AudiobookChunk.fileName :=
                   partFileName sanitizedFileNameBase (chunkIndex + 1) suffix;
                 AudiobookChunk.chapterTitle := Some mainTitleForChunks;
                 AudiobookChunk.status := status;
                 AudiobookChunk.errorDetails := errorDetails;
                 AudiobookChunk.tokenCount := tokenCount |}],
           chunkIndex + 1),
          {| oracleCalls := oracleCalls w; timeouts := timeouts w;
             uuidsDrawn := S (uuidsDrawn w) |}).
Proof. reflexivity. Qed.

(** The ways in which the loops push a chunk. *)
Inductive pushed : jsstring -> AudiobookChunk.t -> Prop :=
| pushed_error source c detail suffix :
    In suffix [lit "_TOKEN_ERR"; lit "_SUB_TOKEN_ERR"] ->
    AudiobookChunk.text c = errorSnippet source ->
    AudiobookChunk.status c = error ->
    AudiobookChunk.tokenCount c = None ->
    AudiobookChunk.errorDetails c = Some detail ->
    AudiobookChunk.fileName c
    = partFileName sanitizedFileNameBase (AudiobookChunk.index c + 1) suffix ->
    pushed source c
| pushed_plain source c n :
    AudiobookChunk.text c = source ->
    AudiobookChunk.status c = pending ->
    AudiobookChunk.tokenCount c = Some n ->
    n <= MAX_TTS_TOKENS ->
    AudiobookChunk.errorDetails c = None ->
    AudiobookChunk.fileName c
    = partFileName sanitizedFileNameBase (AudiobookChunk.index c + 1) [] ->
    pushed source c
| pushed_oversized source c n :
    AudiobookChunk.text c = source ->
    AudiobookChunk.status c = pending ->
    AudiobookChunk.tokenCount c = Some n ->
    MAX_TTS_TOKENS < n ->
    AudiobookChunk.errorDetails c = None ->
    AudiobookChunk.fileName c
    = partFileName sanitizedFileNameBase (AudiobookChunk.index c + 1)
                   (lit "_OVERSIZED") ->
    pushed source c.

(** The loop variables after some rounds: the chunks are numbered from 0
    in order, [chunkIndex] is their number, each was pushed in one of
    the three ways from some source text, and unless a chunk is in error
    the sources make up [covered] up to white space. *)
Definition loopInvariant (covered : jsstring)
           (st : list AudiobookChunk.t * Z) : Prop :=
  snd st = Z.of_nat (List.length (fst st)) /\
  (forall i c, nth_error (fst st) i = Some c ->
               AudiobookChunk.index c = Z.of_nat i /\
               exists source, pushed source c) /\
  ((exists c, In c (fst st) /\ inErrorStatus c = true) \/
   coveredText (fst st) = stripWhiteSpace covered).

Lemma coveredText_snoc (chunks : list AudiobookChunk.t) (c : AudiobookChunk.t) :
  coveredText (chunks ++ [c])
  = coveredText chunks ++ stripWhiteSpace (AudiobookChunk.text c).
Proof.
  unfold coveredText. rewrite map_app, concat_app, strip_app.
  cbn [map concat]. now rewrite app_nil_r.
Qed.

Lemma invariant_covered_eq (covered covered' : jsstring)
      (st : list AudiobookChunk.t * Z) :
  stripWhiteSpace covered = stripWhiteSpace covered' ->
  loopInvariant covered st -> loopInvariant covered' st.
Proof.
  intros E [H1 [H2 H3]]. split; [exact H1|]. split; [exact H2|].
  destruct H3 as [H3|H3]; [now left | right; now rewrite <- E].
Qed.

Lemma invariant_initial : loopInvariant [] ([], 0).
Proof.
  split; [reflexivity|]. split; [|right; reflexivity].
  intros [|i] c H; discriminate.
Qed.

Lemma invariant_snoc (covered source : jsstring)
      (chunks : list AudiobookChunk.t) (chunkIndex : Z) (c : AudiobookChunk.t) :
  loopInvariant covered (chunks, chunkIndex) ->
  AudiobookChunk.index c = chunkIndex ->
  pushed source c ->
  inErrorStatus c = true \/ AudiobookChunk.text c = source ->
  loopInvariant (covered ++ source) (chunks ++ [c], chunkIndex + 1).
Proof.
  intros [H1 [H2 H3]] Hidx Hp Hcov. cbn [fst snd] in *. split; [|split].
  - cbn [fst snd]. rewrite length_app. cbn [List.length]. lia.
  - cbn [fst]. intros i c' Hn.
    destruct (Nat.lt_ge_cases i (List.length chunks)) as [Hi|Hi].
    + rewrite nth_error_app1 in Hn by exact Hi. now apply H2.
    + rewrite nth_error_app2 in Hn by exact Hi.
      destruct (i - List.length chunks)%nat as [|k] eqn:Ek;
        [|destruct k; discriminate].
      injection Hn as <-. split; [lia | eauto].
  - cbn [fst]. destruct H3 as [[c0 [Hin He]]|H3].
    + left. exists c0. split; [apply in_or_app; now left | exact He].
    + destruct Hcov as [He|Ht].
      * left. exists c. split; [apply in_or_app; right; now left | exact He].
      * right. now rewrite coveredText_snoc, H3, strip_app, Ht.
Qed.

Lemma validateSubSegment_invariant (covered : jsstring)
      (st st' : list AudiobookChunk.t * Z) (subSegmentText : jsstring)
      (w w' : World) :
  loopInvariant covered st ->
  validateSub st subSegmentText w = Some (st', w') ->
  loopInvariant (covered ++ subSegmentText) st'.
Proof.
  intros Hinv H. unfold validateSubSegment in H.
  destruct (trim subSegmentText) eqn:Etrim; cbn [nonEmpty negb] in H.
  { injection H as <- _. eapply invariant_covered_eq; [|exact Hinv].
    apply trim_nil_iff in Etrim. now rewrite strip_app, Etrim, app_nil_r. }
  unfold bind in H.
  destruct (countTokensForText ai voicePrompt subSegmentText w)
    as [[[subError|subTokenCount] w1]|]; [| |discriminate].
  - destruct st as [chunks chunkIndex]. rewrite push_spec in H.
    injection H as <- _. apply invariant_snoc; auto.
    + eapply pushed_error with (suffix := lit "_SUB_TOKEN_ERR");
        try reflexivity. right; now left.
  - destruct st as [chunks chunkIndex].
    destruct (Z.leb_spec subTokenCount MAX_TTS_TOKENS);
      rewrite push_spec in H; injection H as <- _;
      apply invariant_snoc; auto.
    + eapply pushed_plain; try reflexivity. assumption.
    + eapply pushed_oversized; try reflexivity. assumption.
Qed.

Lemma validateCandidate_invariant (covered : jsstring)
      (st st' : list AudiobookChunk.t * Z) (candidateText : jsstring)
      (w w' : World) :
  loopInvariant covered st ->
  validate st candidateText w = Some (st', w') ->
  loopInvariant (covered ++ candidateText) st'.
Proof.
  intros Hinv H. unfold validateCandidate, bind in H.
  destruct (countTokensForText ai voicePrompt candidateText w)
    as [[[err|tokenCount] w1]|]; [| |discriminate].
  - destruct st as [chunks chunkIndex]. rewrite push_spec in H.
    injection H as <- _. apply invariant_snoc; auto.
    eapply pushed_error with (suffix := lit "_TOKEN_ERR");
      try reflexivity. now left.
  - destruct (Z.leb_spec tokenCount IDEAL_CHUNK_TOKEN_UPPER_BOUND) as [Hle|Hgt].
    + destruct st as [chunks chunkIndex]. rewrite push_spec in H.
      injection H as <- _. apply invariant_snoc; auto.
      eapply pushed_plain; try reflexivity.
      assert (IDEAL_CHUNK_TOKEN_UPPER_BOUND <= MAX_TTS_TOKENS)
        by (intro Hc; discriminate Hc).
      lia.
    + unfold liftOption in H.
      destruct (forceSplitTextRecursive_SYNC candidateText
                  FINE_GRAINED_RECURSIVE_CHAR_TARGET 0)
        as [subSegmentsToValidate|] eqn:Esplit; [|discriminate].
      pose proof (forEachM_invariant
                    validateSub
                    (fun done => loopInvariant (covered ++ concat done))) as Hloop.
      cbv beta in Hloop.
      eapply invariant_covered_eq;
        [|eapply (Hloop) with (done := []); [| |exact H]].
      * rewrite !strip_app. f_equal. cbn [app].
        eapply forceSplitTextRecursive_SYNC_strip; [|exact Esplit].
        reflexivity.
      * intros done x acc w0 acc' w0' HP Hb.
        rewrite concat_app. cbn [concat]. rewrite app_nil_r, app_assoc.
        eapply validateSubSegment_invariant; eassumption.
      * cbn [concat]. now rewrite app_nil_r.
Qed.

Lemma validateSubSegment_total (st : list AudiobookChunk.t * Z)
      (subSegmentText : jsstring) (w : World) :
  exists r, validateSub st subSegmentText w = Some r.
Proof.
  unfold validateSubSegment.
  destruct (negb (nonEmpty (trim subSegmentText))); [eexists; reflexivity|].
  unfold bind.
  destruct (countTokensForText_total subSegmentText w) as [r [w1 ->]].
  destruct st as [chunks chunkIndex]. destruct r as [subError|subTokenCount].
  - rewrite push_spec. eexists; reflexivity.
  - destruct (subTokenCount <=? MAX_TTS_TOKENS); rewrite push_spec;
      eexists; reflexivity.
Qed.

Lemma validateCandidate_total (st : list AudiobookChunk.t * Z)
      (candidateText : jsstring) (w : World) :
  exists r, validate st candidateText w = Some r.
Proof.
  unfold validateCandidate, bind.
  destruct (countTokensForText_total candidateText w) as [r [w1 ->]].
  destruct r as [err|tokenCount].
  - destruct st as [chunks chunkIndex]. rewrite push_spec.
    eexists; reflexivity.
  - destruct (tokenCount <=? IDEAL_CHUNK_TOKEN_UPPER_BOUND).
    + destruct st as [chunks chunkIndex]. rewrite push_spec.
      eexists; reflexivity.
    + unfold liftOption.
      destruct (forceSplitTextRecursive_SYNC_total
                  candidateText FINE_GRAINED_RECURSIVE_CHAR_TARGET 0
                  ltac:(reflexivity)) as [frags ->].
      apply forEachM_total. intros; apply validateSubSegment_total.
Qed.

(** The whole validation loop returns, with the invariant. *)
Lemma validation_loop (candidateChunkTexts : list jsstring) (w : World) :
  exists st w',
    forEachM validate candidateChunkTexts ([], 0) w = Some (st, w') /\
    loopInvariant (concat candidateChunkTexts) st.
Proof.
  destruct (forEachM_total validate candidateChunkTexts
                           validateCandidate_total ([], 0) w)
    as [[st w'] H].
  exists st, w'. split; [exact H|].
  pose proof (forEachM_invariant validate
                                 (fun done => loopInvariant (concat done)))
    as Hloop.
  cbv beta in Hloop.
  eapply (Hloop) with (done := []); [| |exact H].
  - intros done x acc w0 acc' w0' HP Hb.
    rewrite concat_app. cbn [concat]. rewrite app_nil_r.
    eapply validateCandidate_invariant; eassumption.
  - apply invariant_initial.
Qed.

End ValidationFacts.

(* ================================================================== *)
(** * Properties of [createAudiobookChunks]                             *)
(* ================================================================== *)

Lemma readInput_text (input : ChunkingInput) (bookFileNameBase : jsstring)
      (fullTextContent mainTitleForChunks : jsstring) :
  readInput input bookFileNameBase = Some (fullTextContent, mainTitleForChunks) ->
  inputText input = fullTextContent.
Proof.
  unfold readInput, inputText.
  destruct input as [[|chapter l]|[|s l]]; try discriminate;
    intro H; now injection H as <- _.
Qed.

Lemma readInput_none (input : ChunkingInput) (bookFileNameBase : jsstring) :
  readInput input bookFileNameBase = None -> inputText input = [].
Proof.
  unfold readInput, inputText.
  destruct input as [[|chapter l]|[|s l]]; try discriminate; reflexivity.
Qed.

(** A text that is not blank yields at least one candidate, so the branch
    that returns the aggregation-error chunk is never taken. *)
Lemma candidates_nonempty (fullTextContent : jsstring) (charTarget : Z) :
  nonEmpty (trim fullTextContent) = true ->
  aggregateParagraphsIntoChunks
    (splitTextIntoParagraphs (trim fullTextContent)) charTarget <> [].
Proof.
  intros Hne E.
  pose proof (aggregate_strip (splitTextIntoParagraphs (trim fullTextContent))
                              charTarget) as H.
  rewrite E, splitTextIntoParagraphs_strip, strip_trim in H.
  rewrite nonEmpty_trim_strip, <- H in Hne. discriminate.
Qed.

(** Every run with a token-counting service returns, and the chunks it
    returns satisfy the loop invariant for the input text. *)
Lemma createAudiobookChunks_invariant
      (transliterate : jsstring -> jsstring) (randomUUID : nat -> jsstring)
      (input : ChunkingInput) (ai : option Oracle)
      (bookFileNameBaseArg voicePromptArg : option jsstring) (w : World) :
  exists completion w',
    createAudiobookChunks transliterate randomUUID input ai
                          bookFileNameBaseArg voicePromptArg w
    = Some (completion, w') /\
    forall chunks,
      completion = returns chunks ->
      loopInvariant (fileNameBaseOf transliterate input bookFileNameBaseArg)
                    (inputText input)
                    (chunks, Z.of_nat (List.length chunks)).
Proof.
  unfold createAudiobookChunks, fileNameBaseOf.
  destruct ai as [ai|].
  2:{ eexists _, _. split; [reflexivity|]. intros chunks H. discriminate. }
  set (base := match bookFileNameBaseArg with
               | Some b => b
               | None => lit "Audiobook"
               end).
  destruct (readInput input base) as [[fullTextContent title]|] eqn:Einput.
  2:{ eexists _, _. split; [reflexivity|]. intros chunks H.
      injection H as <-. rewrite (readInput_none _ _ Einput).
      apply invariant_initial. }
  rewrite (readInput_text _ _ _ _ Einput).
  destruct (nonEmpty (trim fullTextContent)) eqn:Ene; cbn [negb].
  2:{ eexists _, _. split; [reflexivity|]. intros chunks H.
      injection H as <-.
      eapply invariant_covered_eq; [|apply invariant_initial].
      rewrite nonEmpty_trim_strip in Ene.
      destruct (stripWhiteSpace fullTextContent); [reflexivity|discriminate]. }
  pose proof (candidates_nonempty fullTextContent
                                  IDEAL_CHARS_PER_CHUNK_TARGET Ene) as Hcand.
  set (candidates := aggregateParagraphsIntoChunks _ _) in *.
  destruct candidates as [|cand cands] eqn:Ecands; [congruence|].
  cbn [List.length Nat.eqb andb]. unfold bind.
  destruct (validation_loop randomUUID ai
              (match voicePromptArg with Some v => v | None => [] end)
              title (sanitizeFileNameBase transliterate title)
              (cand :: cands) w) as [[chunks idx] [w' [Hrun Hinv]]].
  rewrite Hrun. eexists _, _. split; [reflexivity|].
  intros chunks' H. injection H as <-. cbn [fst].
  pose proof Hinv as [Hidx _]. cbn [fst snd] in Hidx. rewrite <- Hidx.
  eapply invariant_covered_eq; [|exact Hinv].
  rewrite <- Ecands. subst candidates.
  now rewrite aggregate_strip, splitTextIntoParagraphs_strip, strip_trim.
Qed.

Lemma pushed_suffix (base source : jsstring) (c : AudiobookChunk.t) :
  pushed base source c ->
  exists suffix,
    In suffix fileNameSuffixes /\
    AudiobookChunk.fileName c
    = partFileName base (AudiobookChunk.index c + 1) suffix.
Proof.
  unfold fileNameSuffixes.
  intros [? ? ? suffix Hs _ _ _ _ Hf | ? ? ? _ _ _ _ _ Hf | ? ? ? _ _ _ _ _ Hf].
  - exists suffix. split; [|exact Hf]. cbn [In] in *. tauto.
  - exists []. split; [|exact Hf]. cbn [In]. tauto.
  - exists (lit "_OVERSIZED"). split; [|exact Hf]. cbn [In]. tauto.
Qed.

Lemma pushed_bound (base source : jsstring) (c : AudiobookChunk.t) :
  pushed base source c ->
  inErrorStatus c = false ->
  flaggedOversized c = false ->
  exists n, AudiobookChunk.tokenCount c = Some n /\ n <= MAX_TTS_TOKENS.
Proof.
  intros [? ? ? suffix _ _ Hs _ _ _ | ? ? n _ _ Ht Hn _ _ | ? ? n _ _ _ _ _ Hf]
         Herr Hflag.
  - unfold inErrorStatus in Herr. rewrite Hs in Herr. discriminate.
  - eauto.
  - exfalso. unfold flaggedOversized in Hflag. rewrite Hf in Hflag.
    unfold partFileName in Hflag.
    change (lit "_OVERSIZED" ++ lit ".wav") with (lit "_OVERSIZED.wav") in Hflag.
    rewrite !app_assoc, endsWith_app in Hflag. discriminate.
Qed.

(** C8, as the code has it (file names). Every run ends, and the chunk
    at position [i] of the chunks it returns has index [i] and the file name made of
    the sanitized title base, [_Part_], the decimal numeral of [i + 1]
    padded with zeros to at least three digits, one of the four suffixes,
    and [.wav]. *)
Theorem file_names_number_from_one
        (transliterate : jsstring -> jsstring) (randomUUID : nat -> jsstring)
        (input : ChunkingInput) (ai : option Oracle)
        (bookFileNameBaseArg voicePromptArg : option jsstring) (w : World) :
  exists completion w',
    createAudiobookChunks transliterate randomUUID input ai
                          bookFileNameBaseArg voicePromptArg w
    = Some (completion, w') /\
    forall chunks i c,
      completion = returns chunks ->
      nth_error chunks i = Some c ->
      AudiobookChunk.index c = Z.of_nat i /\
      exists suffix,
        In suffix fileNameSuffixes /\
        AudiobookChunk.fileName c
        = partFileName (fileNameBaseOf transliterate input bookFileNameBaseArg)
                       (AudiobookChunk.index c + 1) suffix.
Proof.
  destruct (createAudiobookChunks_invariant transliterate randomUUID input ai
              bookFileNameBaseArg voicePromptArg w) as [completion [w' [Hrun Hinv]]].
  exists completion, w'. split; [exact Hrun|].
  intros chunks i c Hc Hi.
  destruct (Hinv chunks Hc) as [_ [Hall _]]. cbn [fst] in Hall.
  destruct (Hall i c Hi) as [Hidx [source Hp]].
  split; [exact Hidx|]. eapply pushed_suffix; exact Hp.
Qed.

(** ** Concrete runs *)

(** An error that is not classified as a server error. *)
Definition quotaError : Thrown.t :=
  {| Thrown.instanceofError := true;
     Thrown.message := lit "quota exceeded";
     Thrown.toString := Some (lit "Error: quota exceeded");
     Thrown.asString := lit "Error: quota exceeded" |}.

(** An error classified as a server error. *)
Definition serverError : Thrown.t :=
  {| Thrown.instanceofError := true;
     Thrown.message := lit "500 Internal error";
     Thrown.toString := Some (lit "Error: 500 Internal error");
     Thrown.asString := lit "Error: 500 Internal error" |}.

Definition sameTitle (s : jsstring) : jsstring := s.
Definition noUUID (n : nat) : jsstring := [].

(** C2, as stated, fails on a candidate that is split again: the service
    counts 9000 tokens for the candidate and 5000 for each of its two
    sentences; both sentences are accepted, in pending status and without
    the oversized flag, with 5000 tokens, above the bound of 3000. *)
Lemma ideal_bound_counterexample :
  exists c1 c2 w',
    createAudiobookChunks sameTitle noUUID
                          (strings [lit "Hello there. Another one"])
                          (Some (fun k _ => if Nat.eqb k 0 then totalTokens 9000
                                            else totalTokens 5000))
                          None None initialWorld
    = Some (returns [c1; c2], w') /\
    inErrorStatus c1 = false /\
    flaggedOversized c1 = false /\
    AudiobookChunk.tokenCount c1 = Some 5000 /\
    IDEAL_CHUNK_TOKEN_UPPER_BOUND = 3000 /\
    ~ (5000 <= IDEAL_CHUNK_TOKEN_UPPER_BOUND).
Proof.
  eexists _, _, _. split; [vm_compute; reflexivity|].
  repeat split. vm_compute. intro H. apply H. reflexivity.
Qed.

(** C8, as stated, fails already for the first chunk: its index is 0 and
    its file name carries the number 001, not 000. *)
Lemma file_name_index_counterexample :
  exists c w',
    createAudiobookChunks sameTitle noUUID (strings [lit "hello"])
                          (Some (fun _ _ => totalTokens 1)) None None
                          initialWorld
    = Some (returns [c], w') /\
    AudiobookChunk.index c = 0 /\
    AudiobookChunk.fileName c = lit "Audiobook_Part_001.wav" /\
    forall suffix,
      In suffix fileNameSuffixes ->
      AudiobookChunk.fileName c
      <> partFileName (lit "Audiobook") (AudiobookChunk.index c) suffix.
Proof.
  eexists _, _. split; [vm_compute; reflexivity|].
  split; [reflexivity|]. split; [reflexivity|].
  intros suffix Hs. unfold fileNameSuffixes in Hs. cbn [In] in Hs.
  destruct Hs as [<-|[<-|[<-|[<-|[]]]]]; vm_compute; discriminate.
Qed.

(** The world after [calls] more requests and the delays [waited]. *)
Definition after (w : World) (calls : nat) (waited : list Z) : World :=
  {| oracleCalls := oracleCalls w + calls;
     timeouts := timeouts w ++ waited;
     uuidsDrawn := uuidsDrawn w |}.

(** An oracle that fails twice with a server error, then counts 7. *)
Definition twiceFailing : Oracle :=
  fun k _ => if (k <? 2)%nat then rejects serverError else totalTokens 7.

(* ================================================================== *)
(** * Properties of [createWavBlobFromPcm]                              *)
(* ================================================================== *)

Module WavFacts.

Import Wav.

Lemma setNth_length (b : bytes) (n : nat) (v : Z) :
  List.length (setNth b n v) = List.length b.
Proof.
  revert n. induction b as [|x b IH]; intros [|n]; cbn [setNth List.length];
    auto.
Qed.

Lemma setUint8_length (view : bytes) (offset value : Z) :
  List.length (setUint8 view offset value) = List.length view.
Proof. unfold setUint8. destruct (offset <? 0); [reflexivity|apply setNth_length]. Qed.

Lemma setUint16_length (view : bytes) (offset value : Z) :
  List.length (setUint16 view offset value) = List.length view.
Proof. unfold setUint16. now rewrite !setUint8_length. Qed.

Lemma setUint32_length (view : bytes) (offset value : Z) :
  List.length (setUint32 view offset value) = List.length view.
Proof. unfold setUint32. now rewrite !setUint8_length. Qed.

Lemma writeString_length (s : jsstring) :
  forall view offset, List.length (writeString view offset s) = List.length view.
Proof.
  induction s as [|c s IH]; intros view offset; cbn [writeString];
    [reflexivity|]. now rewrite IH, setUint8_length.
Qed.

Lemma writePcm_length (pcm : bytes) :
  forall view offset, List.length (writePcm view offset pcm) = List.length view.
Proof.
  induction pcm as [|c s IH]; intros view offset; cbn [writePcm];
    [reflexivity|]. now rewrite IH, setUint8_length.
Qed.

Lemma nth_setNth_same (b : bytes) (n : nat) (v : Z) :
  (n < List.length b)%nat -> nth n (setNth b n v) 0 = v.
Proof.
  revert n. induction b as [|x b IH]; intros [|n] H; cbn [List.length] in H;
    cbn [setNth nth]; try lia; auto. apply IH. lia.
Qed.

Lemma nth_setNth_other (b : bytes) (n m : nat) (v : Z) :
  n <> m -> nth m (setNth b n v) 0 = nth m b 0.
Proof.
  revert n m. induction b as [|x b IH]; intros [|n] [|m] H;
    cbn [setNth nth]; try reflexivity; try congruence.
  apply IH. congruence.
Qed.

Lemma byteAt_setUint8_same (view : bytes) (offset value : Z) :
  0 <= offset < len view ->
  byteAt (setUint8 view offset value) offset = value mod 256.
Proof.
  intro H. unfold byteAt, setUint8.
  destruct (Z.ltb_spec offset 0); [lia|].
  apply nth_setNth_same. unfold len in H. lia.
Qed.

Lemma byteAt_setUint8_other (view : bytes) (offset value j : Z) :
  0 <= j -> offset <> j ->
  byteAt (setUint8 view offset value) j = byteAt view j.
Proof.
  intros Hj H. unfold byteAt, setUint8.
  destruct (Z.ltb_spec j 0); [lia|].
  destruct (Z.ltb_spec offset 0); [reflexivity|].
  apply nth_setNth_other. lia.
Qed.

(** Writing the samples after the header leaves the header as it is. *)
Lemma byteAt_writePcm_below (pcm : bytes) :
  forall view offset j,
    0 <= j < offset -> byteAt (writePcm view offset pcm) j = byteAt view j.
Proof.
  induction pcm as [|x pcm IH]; intros view offset j H; cbn [writePcm];
    [reflexivity|].
  rewrite IH by lia. apply byteAt_setUint8_other; lia.
Qed.

Lemma len_setUint8 (view : bytes) (offset value : Z) :
  len (setUint8 view offset value) = len view.
Proof. unfold len. now rewrite setUint8_length. Qed.

(** The four bytes written by [setUint32] read back as the value. *)
Lemma getUint32_setUint32 (view : bytes) (offset value : Z) :
  0 <= offset -> offset + 3 < len view ->
  0 <= value < 4294967296 ->
  getUint32 (setUint32 view offset value) offset = value.
Proof.
  intros Ho Hl Hv. unfold getUint32, setUint32.
  rewrite (Z.mod_small value 4294967296) by lia.
  rewrite (byteAt_setUint8_same _ (offset + 3))
    by (rewrite !len_setUint8; lia).
  rewrite (byteAt_setUint8_other _ (offset + 3) _ (offset + 2)) by lia.
  rewrite (byteAt_setUint8_same _ (offset + 2))
    by (rewrite !len_setUint8; lia).
  rewrite (byteAt_setUint8_other _ (offset + 3) _ (offset + 1)) by lia.
  rewrite (byteAt_setUint8_other _ (offset + 2) _ (offset + 1)) by lia.
  rewrite (byteAt_setUint8_same _ (offset + 1))
    by (rewrite !len_setUint8; lia).
  rewrite (byteAt_setUint8_other _ (offset + 3) _ offset) by lia.
  rewrite (byteAt_setUint8_other _ (offset + 2) _ offset) by lia.
  rewrite (byteAt_setUint8_other _ (offset + 1) _ offset) by lia.
  rewrite (byteAt_setUint8_same _ offset) by lia.
  pose proof (Z.div_mod value 256 ltac:(lia)).
  pose proof (Z.div_mod (value / 256) 256 ltac:(lia)).
  pose proof (Z.div_mod (value / 256 / 256) 256 ltac:(lia)).
  pose proof (Z.mod_pos_bound value 256 ltac:(lia)).
  pose proof (Z.mod_pos_bound (value / 256) 256 ltac:(lia)).
  pose proof (Z.mod_pos_bound (value / 256 / 256) 256 ltac:(lia)).
  replace (value / 65536) with (value / 256 / 256)
    by (rewrite Z.div_div by lia; reflexivity).
  replace (value / 16777216) with (value / 256 / 256 / 256)
    by (rewrite !Z.div_div by lia; reflexivity).
  assert (0 <= value / 256 / 256 / 256 < 256).
  { split; [repeat apply Z.div_pos; lia|].
    repeat (apply Z.div_lt_upper_bound; [lia|]). lia. }
  rewrite (Z.mod_small (value / 256 / 256 / 256) 256) by lia.
  pose proof (Z.div_mod (value / 256 / 256) 256 ltac:(lia)).
  lia.
Qed.

(** The backward scan stops at the first sample, from the end, that is
    louder than the threshold. *)
Lemma scanBack_found (pcm : bytes) :
  forall k rounds offset,
    (k < rounds)%nat ->
    (forall j, (j < k)%nat ->
               Z.abs (getInt16 pcm (offset - 2 * Z.of_nat j)) <= SILENCE_THRESHOLD) ->
    SILENCE_THRESHOLD < Z.abs (getInt16 pcm (offset - 2 * Z.of_nat k)) ->
    scanBack pcm offset rounds = offset - 2 * Z.of_nat k.
Proof.
  induction k as [|k IH]; intros rounds offset Hk Hsilent Hloud;
    (destruct rounds as [|rounds]; [lia|]); cbn [scanBack].
  - replace (offset - 2 * Z.of_nat 0) with offset in Hloud by lia.
    destruct (Z.ltb_spec SILENCE_THRESHOLD (Z.abs (getInt16 pcm offset))); lia.
  - pose proof (Hsilent O ltac:(lia)) as H0.
    replace (offset - 2 * Z.of_nat 0) with offset in H0 by lia.
    destruct (Z.ltb_spec SILENCE_THRESHOLD (Z.abs (getInt16 pcm offset))); [lia|].
    unfold BYTES_PER_SAMPLE. rewrite (IH rounds (offset - 2)).
    + lia.
    + lia.
    + intros j Hj. specialize (Hsilent (S j) ltac:(lia)).
      replace (offset - 2 - 2 * Z.of_nat j) with (offset - 2 * Z.of_nat (S j))
        by lia.
      exact Hsilent.
    + replace (offset - 2 - 2 * Z.of_nat k) with (offset - 2 * Z.of_nat (S k))
        by lia.
      exact Hloud.
Qed.

Lemma getUint32_writePcm_below (pcm view : bytes) (start offset : Z) :
  0 <= offset -> offset + 3 < start ->
  getUint32 (writePcm view start pcm) offset = getUint32 view offset.
Proof.
  intros H0 H. unfold getUint32. now rewrite !byteAt_writePcm_below by lia.
Qed.

Lemma len_writePcm (pcm view : bytes) (offset : Z) :
  len (writePcm view offset pcm) = len view.
Proof. unfold len. now rewrite writePcm_length. Qed.

Lemma len_setUint32 (view : bytes) (offset value : Z) :
  len (setUint32 view offset value) = len view.
Proof. unfold len. now rewrite setUint32_length. Qed.

Lemma len_setUint16 (view : bytes) (offset value : Z) :
  len (setUint16 view offset value) = len view.
Proof. unfold len. now rewrite setUint16_length. Qed.

Lemma len_writeString (s : jsstring) (view : bytes) (offset : Z) :
  len (writeString view offset s) = len view.
Proof. unfold len. now rewrite writeString_length. Qed.

Section Encoder.

Variable atob : jsstring -> option (list Z).

(** For 16-bit mono input with a whole number of samples, the WAV is the
    44-byte header followed by the trimmed samples, and the header
    declares their size. *)
Lemma createWavBlobFromPcm_mono16 (base64PcmData : jsstring)
      (byteCharacters : list Z) (sampleRate : Z) (pcm : bytes) :
  nonEmpty (trim base64PcmData) = true ->
  atob base64PcmData = Some byteCharacters ->
  trimTrailingSilence (map (fun c => c mod 256) byteCharacters) sampleRate 16
  = pcm ->
  len pcm mod 2 = 0 ->
  len pcm < 4294967296 ->
  len (createWavBlobFromPcm atob base64PcmData sampleRate 1 16)
  = headerSize + len pcm /\
  getUint32 (createWavBlobFromPcm atob base64PcmData sampleRate 1 16) 40
  = len pcm.
Proof.
  intros Hne Hatob Htrim Hmod Hsize.
  assert (Hne' : nonEmpty base64PcmData = true).
  { destruct base64PcmData; [discriminate Hne | reflexivity]. }
  unfold createWavBlobFromPcm. rewrite Hne, Hne', Hatob, Htrim.
  cbn [negb orb]. change (1 * (16 / 8)) with 2. rewrite Hmod.
  cbn [Z.eqb negb].
  pose proof (len_nonneg pcm) as Hpos.
  assert (Hview : len (repeat 0 (Z.to_nat (headerSize + len pcm)))
                  = headerSize + len pcm).
  { unfold len at 1. rewrite repeat_length. unfold headerSize. lia. }
  split.
  - rewrite len_writePcm, len_setUint32, len_writeString, !len_setUint16,
      !len_setUint32, !len_setUint16, len_setUint32, !len_writeString,
      len_setUint32, len_writeString.
    exact Hview.
  - rewrite getUint32_writePcm_below by (unfold headerSize; lia).
    apply getUint32_setUint32; [lia | | lia].
    rewrite len_writeString, !len_setUint16, !len_setUint32, !len_setUint16,
      len_setUint32, !len_writeString, len_setUint32, len_writeString, Hview.
    unfold headerSize. lia.
Qed.

(** The scenario of the specification, on the decoded bytes: 192,000
    samples of which the first 120,000 are louder than the threshold and
    the last 72,000 are not. *)
Definition silenceScenario (pcm : bytes) : Prop :=
  len pcm = 2 * 192000 /\
  (forall i, 0 <= i < 120000 ->
             SILENCE_THRESHOLD < Z.abs (getInt16 pcm (2 * i))) /\
  (forall i, 120000 <= i < 192000 ->
             Z.abs (getInt16 pcm (2 * i)) <= SILENCE_THRESHOLD).

Lemma scenario_last_loud (pcm : bytes) :
  silenceScenario pcm -> lastNonSilentOffset pcm = 2 * 119999.
Proof.
  intros [Hlen [Hloud Hquiet]]. unfold lastNonSilentOffset, BYTES_PER_SAMPLE.
  rewrite Hlen.
  replace (2 * 119999) with (2 * 192000 - 2 - 2 * Z.of_nat (Z.to_nat 72000))
    by lia.
  apply scanBack_found.
  - change (2 * 192000 / 2) with 192000. lia.
  - intros j Hj.
    replace (2 * 192000 - 2 - 2 * Z.of_nat j) with (2 * (191999 - Z.of_nat j))
      by lia.
    apply Hquiet. lia.
  - replace (2 * 192000 - 2 - 2 * Z.of_nat (Z.to_nat 72000)) with (2 * 119999)
      by lia.
    apply Hloud. lia.
Qed.

(** The trimmed buffer keeps the bytes up to the last loud sample's index
    plus the padding: one sample less than the signal plus the padding. *)
Lemma scenario_trimmed (pcm : bytes) :
  silenceScenario pcm ->
  trimTrailingSilence pcm 24000 16 = firstn (Z.to_nat (2 * 131999)) pcm.
Proof.
  intros H. pose proof (scenario_last_loud pcm H) as Hlast.
  destruct H as [Hlen _]. unfold trimTrailingSilence.
  rewrite Hlast, Hlen. unfold subarray0. rewrite Hlen. reflexivity.
Qed.

(** C5: what the code does in the scenario of the claim. For 16-bit mono
    PCM at 24000 Hz made of 120,000 samples above the silence threshold
    followed by 72,000 samples at or below it, the WAV that
    [createWavBlobFromPcm] builds holds 131,999 samples, not 132,000: the
    44-byte header declares 263,998 bytes of data and that many bytes
    follow it. The index of the last loud sample, 119,999, is used where
    the number of samples up to it, 120,000, is meant, so one sample less
    than the half second of padding is kept. *)
Theorem silence_trim_scenario (base64PcmData : jsstring)
        (byteCharacters : list Z) :
  nonEmpty (trim base64PcmData) = true ->
  atob base64PcmData = Some byteCharacters ->
  silenceScenario (map (fun c => c mod 256) byteCharacters) ->
  declaredSamples (createWavBlobFromPcm atob base64PcmData 24000 1 16) = 131999 /\
  len (dataSection (createWavBlobFromPcm atob base64PcmData 24000 1 16))
  = 2 * 131999 /\
  declaredSamples (createWavBlobFromPcm atob base64PcmData 24000 1 16) <> 132000.
Proof.
  intros Hne Hatob Hsc.
  pose proof (scenario_trimmed _ Hsc) as Htrim.
  assert (Hlen : len (firstn (Z.to_nat (2 * 131999))
                             (map (fun c => c mod 256) byteCharacters))
                 = 2 * 131999).
  { destruct Hsc as [Hl _]. unfold len in *. rewrite length_firstn. lia. }
  destruct (createWavBlobFromPcm_mono16 base64PcmData byteCharacters 24000 _
                                        Hne Hatob Htrim) as [Hwav Hdecl].
  { rewrite Hlen. reflexivity. }
  { rewrite Hlen. reflexivity. }
  rewrite Hlen in Hwav, Hdecl.
  assert (Hsamples : declaredSamples
                       (createWavBlobFromPcm atob base64PcmData 24000 1 16)
                     = 131999).
  { unfold declaredSamples. rewrite Hdecl. reflexivity. }
  split; [exact Hsamples|]. split.
  - unfold dataSection, len in *. rewrite length_skipn. unfold headerSize in *.
    lia.
  - rewrite Hsamples. discriminate.
Qed.

End Encoder.

(** ** The scenario on a concrete recording *)

Lemma encodeInt16_length (samples : list Z) :
  List.length (encodeInt16 samples) = (2 * List.length samples)%nat.
Proof.
  induction samples as [|v s IH]; [reflexivity|].
  cbn [encodeInt16 flat_map app List.length] in *. unfold encodeInt16 in IH.
  rewrite IH. lia.
Qed.

Lemma byteAt_cons2 (a b : Z) (l : bytes) (j : Z) :
  2 <= j -> byteAt (a :: b :: l) j = byteAt l (j - 2).
Proof.
  intro H. unfold byteAt.
  destruct (Z.ltb_spec j 0); [lia|]. destruct (Z.ltb_spec (j - 2) 0); [lia|].
  replace (Z.to_nat j) with (S (S (Z.to_nat (j - 2)))) by lia. reflexivity.
Qed.

Lemma getInt16_encode (samples : list Z) :
  forall i,
    Forall (fun v => -32768 <= v < 32768) samples ->
    0 <= i < len samples ->
    getInt16 (map (fun c => c mod 256) (encodeInt16 samples)) (2 * i)
    = nth (Z.to_nat i) samples 0.
Proof.
  induction samples as [|v s IH]; intros i Hall Hi.
  - change (len []) with 0 in Hi. lia.
  - inversion Hall as [|? ? Hv Hs]; subst.
    cbn [encodeInt16 flat_map app map]. fold (encodeInt16 s).
    destruct (Z.eq_dec i 0) as [->|Hnz].
    + set (l := map (fun c => c mod 256) (encodeInt16 s)).
      change (getInt16 ((v mod 256) mod 256 :: ((v / 256) mod 256) mod 256 :: l)
                       (2 * 0))
        with (if (v mod 256) mod 256 + 256 * (((v / 256) mod 256) mod 256)
                 <? 32768
              then (v mod 256) mod 256 + 256 * (((v / 256) mod 256) mod 256)
              else (v mod 256) mod 256 + 256 * (((v / 256) mod 256) mod 256)
                   - 65536).
      change (nth (Z.to_nat 0) (v :: s) 0) with v.
      rewrite !Z.mod_mod by lia.
      pose proof (Z.div_mod v 256 ltac:(lia)).
      pose proof (Z.div_mod (v / 256) 256 ltac:(lia)).
      pose proof (Z.mod_pos_bound v 256 ltac:(lia)).
      pose proof (Z.mod_pos_bound (v / 256) 256 ltac:(lia)).
      destruct (Z.ltb_spec (v mod 256 + 256 * ((v / 256) mod 256)) 32768); lia.
    + unfold getInt16.
      rewrite !byteAt_cons2 by lia.
      replace (2 * i - 2) with (2 * (i - 1)) by lia.
      replace (2 * i + 1 - 2) with (2 * (i - 1) + 1) by lia.
      fold (getInt16 (map (fun c => c mod 256) (encodeInt16 s)) (2 * (i - 1))).
      rewrite IH; [|exact Hs|].
      * replace (Z.to_nat i) with (S (Z.to_nat (i - 1))) by lia. reflexivity.
      * unfold len in *. cbn [List.length] in Hi. lia.
Qed.

Lemma nth_repeat_lt (a d : Z) (n i : nat) :
  (i < n)%nat -> nth i (repeat a n) d = a.
Proof.
  revert i. induction n as [|n IH]; intros [|i] H; cbn [repeat nth]; try lia;
    auto. apply IH. lia.
Qed.

(** 120,000 samples of value 1000 followed by 72,000 samples of value 0. *)
Definition recording : list Z :=
  repeat 1000 (Z.to_nat 120000) ++ repeat 0 (Z.to_nat 72000).

Lemma recording_scenario :
  silenceScenario (map (fun c => c mod 256) (encodeInt16 recording)).
Proof.
  assert (Hlen : len recording = 192000).
  { unfold len, recording. rewrite length_app, !repeat_length. lia. }
  assert (Hrange : Forall (fun v => -32768 <= v < 32768) recording).
  { unfold recording. apply Forall_app. split; apply Forall_forall;
      intros x Hx; apply repeat_spec in Hx; subst; lia. }
  split; [|split].
  - unfold len in *. rewrite length_map, encodeInt16_length. lia.
  - intros i Hi. rewrite getInt16_encode by (assumption || lia).
    unfold recording. rewrite app_nth1 by (rewrite repeat_length; lia).
    rewrite nth_repeat_lt by lia. unfold SILENCE_THRESHOLD. lia.
  - intros i Hi. rewrite getInt16_encode by (assumption || lia).
    unfold recording. rewrite app_nth2 by (rewrite repeat_length; lia).
    rewrite repeat_length, nth_repeat_lt by lia. unfold SILENCE_THRESHOLD. lia.
Qed.

Lemma silence_trim_scenario_witness :
  declaredSamples
    (createWavBlobFromPcm (fun _ => Some (encodeInt16 recording))
                          (lit "base64") 24000 1 16) = 131999 /\
  len (dataSection
         (createWavBlobFromPcm (fun _ => Some (encodeInt16 recording))
                               (lit "base64") 24000 1 16))
  = 2 * 131999 /\
  declaredSamples
    (createWavBlobFromPcm (fun _ => Some (encodeInt16 recording))
                          (lit "base64") 24000 1 16) <> 132000.
Proof.
  apply (silence_trim_scenario (fun _ => Some (encodeInt16 recording))
                               (lit "base64") (encodeInt16 recording)).
  - reflexivity.
  - reflexivity.
  - exact recording_scenario.
Defined.

End WavFacts.

(* ================================================================== *)
(** * Further properties of the paragraph splitter                      *)
(* ================================================================== *)

(** X1. Every paragraph that [splitTextIntoParagraphs] returns is not
    empty, is left unchanged by [trim] (it starts and ends with a
    character other than white space) and holds no blank line. *)
Theorem paragraphs_are_normalised (text p : jsstring) :
  In p (splitTextIntoParagraphs text) ->
  nonEmpty p = true /\ trim p = p /\ hasBlankLine p = false.
Proof.
  intro Hin.
  pose proof (splitTextIntoParagraphs_clean text) as Hall.
  rewrite Forall_forall in Hall. specialize (Hall p Hin).
  split; [now apply clean_nonEmpty|]. split; [now apply clean_trim|].
  apply Hall.
Qed.

Lemma paragraphs_are_normalised_witness :
  nonEmpty (lit "b") = true /\ trim (lit "b") = lit "b"
  /\ hasBlankLine (lit "b") = false.
Proof.
  apply (paragraphs_are_normalised (lit " a " ++ [NL; NL; NL] ++ lit " b ")).
  vm_compute. right. left. reflexivity.
Defined.

Lemma clean_strip_nonempty (p : jsstring) :
  cleanParagraph p -> stripWhiteSpace p <> [].
Proof.
  intros [_ [[c [t [-> Hc]]] _]]. cbn [stripWhiteSpace filter].
  rewrite Hc. discriminate.
Qed.

(** X2. [splitTextIntoParagraphs] loses nothing but white space: the
    paragraphs, one after the other, are the text up to white space; and
    it returns no paragraph exactly when the text is blank. *)
Theorem paragraphs_cover_text (text : jsstring) :
  stripWhiteSpace (concat (splitTextIntoParagraphs text)) = stripWhiteSpace text
  /\ (splitTextIntoParagraphs text = [] <-> trim text = []).
Proof.
  split; [apply splitTextIntoParagraphs_strip|].
  rewrite trim_nil_iff, <- splitTextIntoParagraphs_strip.
  split; [intros ->; reflexivity|].
  intro H. pose proof (splitTextIntoParagraphs_clean text) as Hall.
  destruct (splitTextIntoParagraphs text) as [|p ps]; [reflexivity|].
  inversion Hall as [|? ? Hp _]; subst. apply clean_strip_nonempty in Hp.
  cbn [concat] in H. rewrite strip_app in H.
  apply app_eq_nil in H. destruct H as [H _]. contradiction.
Qed.

(** X3. Joining the paragraphs of a text with blank lines and splitting
    the result again gives the same paragraphs: the output of
    [splitTextIntoParagraphs] is a fixed point of join-then-split. *)
Theorem paragraphs_rejoin_roundtrip (text : jsstring) :
  splitTextIntoParagraphs (join BLANK_LINE (splitTextIntoParagraphs text))
  = splitTextIntoParagraphs text.
Proof.
  apply splitTextIntoParagraphs_join_clean, splitTextIntoParagraphs_clean.
Qed.

(* ================================================================== *)
(** * Further properties of the recursive splitter                      *)
(* ================================================================== *)

#[local] Transparent forceSplitTextRecursive_SYNC.

Lemma forceSplitTextRecursive_SYNC_eq (text : jsstring) (targetCharLength : Z)
      (depth : nat) :
  forceSplitTextRecursive_SYNC text targetCharLength depth
  = forceSplit DEPTH_FUEL (S (List.length text)) text targetCharLength depth.
Proof. reflexivity. Qed.

#[local] Opaque forceSplitTextRecursive_SYNC.

Lemma flatMapM_Forall {A B : Type} (P : B -> Prop)
      (f : A -> option (list B)) (l : list A) zs :
  flatMapM f l = Some zs ->
  (forall x ys, In x l -> f x = Some ys -> Forall P ys) ->
  Forall P zs.
Proof.
  revert zs. induction l as [|x l IH]; intros zs H Hf; cbn [flatMapM] in H.
  - injection H as <-. constructor.
  - destruct (f x) as [ys|] eqn:Ef; [|discriminate].
    destruct (flatMapM f l) as [zs'|] eqn:El; [|discriminate].
    injection H as <-. apply Forall_app. split.
    + exact (Hf x ys (or_introl eq_refl) Ef).
    + apply IH; [reflexivity|]. intros x0 ys0 Hx0 Hf0.
      exact (Hf x0 ys0 (or_intror Hx0) Hf0).
Qed.

Lemma Forall_filter {A : Type} (P : A -> Prop) (f : A -> bool) (l : list A) :
  Forall P l -> Forall P (filter f l).
Proof.
  intro H. apply Forall_forall. intros x Hx. apply filter_In in Hx.
  rewrite Forall_forall in H. now apply H.
Qed.

Lemma nonEmpty_trim_trim (s : jsstring) :
  nonEmpty (trim (trim s)) = nonEmpty (trim s).
Proof. now rewrite !nonEmpty_trim_strip, strip_trim. Qed.

Lemma charWindowLoop_Forall (P : jsstring -> Prop) (text : jsstring)
      (targetCharLength : Z) :
  (forall currentPos,
      0 <= currentPos < len text ->
      nonEmpty (trim (substring text currentPos
                                (nextSplitPoint text targetCharLength currentPos)))
      = true ->
      P (trim (substring text currentPos
                         (nextSplitPoint text targetCharLength currentPos)))) ->
  0 < targetCharLength ->
  forall fuel currentPos results r,
    0 <= currentPos ->
    charWindowLoop fuel text targetCharLength currentPos results = Some r ->
    Forall P results -> Forall P r.
Proof.
  intros HP Ht. induction fuel as [|fuel IH]; intros currentPos results r Hc H Hres;
    cbn [charWindowLoop] in H;
    destruct (Z.ltb_spec currentPos (len text)) as [Hlt|Hge];
    try discriminate; try (now injection H as <-).
  pose proof (nextSplitPoint_progress text targetCharLength currentPos Ht
                                      (conj Hc Hlt)) as Hp.
  eapply IH; [|exact H|]; [lia|].
  destruct (nonEmpty (trim (substring text currentPos _))) eqn:E; [|exact Hres].
  apply Forall_app. split; [exact Hres|]. constructor; [|constructor].
  apply HP; [lia | exact E].
Qed.

(** Every fragment holds a character other than white space. *)
Lemma forceSplit_nonblank (targetCharLength : Z) (lfuel : nat) :
  0 < targetCharLength ->
  forall rfuel text depth r,
    forceSplit rfuel lfuel text targetCharLength depth = Some r ->
    Forall (fun f => nonEmpty (trim f) = true) r.
Proof.
  intros Ht. induction rfuel as [|rfuel IH]; intros text depth r H;
    [discriminate|].
  cbn [forceSplit] in H.
  destruct (nonEmpty (trim text)) eqn:Etrim; cbn [negb] in H.
  2:{ injection H as <-. constructor. }
  destruct (15 <? depth)%nat.
  { injection H as <-. repeat constructor. exact Etrim. }
  destruct (_ && _).
  { injection H as <-. repeat constructor. exact Etrim. }
  assert (Hrec : forall (l : list jsstring) zs,
             flatMapM (fun piece =>
                         if nonEmpty (trim piece)
                         then forceSplit rfuel lfuel (trim piece)
                                         targetCharLength (S depth)
                         else Some []) l = Some zs ->
             Forall (fun f => nonEmpty (trim f) = true) (filter nonEmpty zs)).
  { intros l zs Hz. apply Forall_filter.
    eapply flatMapM_Forall; [exact Hz|].
    intros x ys _ Hx. cbv beta in Hx.
    destruct (nonEmpty (trim x)); [now apply IH in Hx|].
    injection Hx as <-. constructor. }
  destruct (1 <? List.length (split matchBlankLines text))%nat.
  { destruct (flatMapM _ (split matchBlankLines text)) as [zs|] eqn:E;
      [|discriminate].
    injection H as <-. now apply Hrec in E. }
  destruct (1 <? List.length _)%nat.
  { destruct (flatMapM _ (filter _ _)) as [zs|] eqn:E; [|discriminate].
    injection H as <-. now apply Hrec in E. }
  destruct (charWindowLoop lfuel _ _ _ _) as [results|] eqn:E; [|discriminate].
  injection H as <-. apply Forall_filter.
  assert (Hres : Forall (fun f => nonEmpty (trim f) = true) results).
  { eapply (charWindowLoop_Forall _ text targetCharLength);
      [| exact Ht | | exact E | constructor]; [|lia].
    intros currentPos _ Hne. now rewrite nonEmpty_trim_trim. }
  destruct (_ && _); [|exact Hres].
  apply Forall_app. split; [exact Hres|]. repeat constructor. exact Etrim.
Qed.

(** X4. For a positive target length and at any depth, every fragment
    that [forceSplitTextRecursive_SYNC] returns holds at least one
    character other than white space: no fragment is empty or blank. *)
Theorem fragments_are_not_blank (text : jsstring) (targetCharLength : Z)
        (depth : nat) :
  0 < targetCharLength ->
  exists fragments,
    forceSplitTextRecursive_SYNC text targetCharLength depth = Some fragments /\
    Forall (fun f => nonEmpty (trim f) = true) fragments.
Proof.
  intro Ht.
  destruct (forceSplitTextRecursive_SYNC_total text targetCharLength depth Ht)
    as [fragments H].
  exists fragments. split; [exact H|].
  rewrite forceSplitTextRecursive_SYNC_eq in H.
  eapply forceSplit_nonblank; eassumption.
Qed.

Lemma fragments_are_not_blank_witness :
  exists fragments,
    forceSplitTextRecursive_SYNC (lit " One.  Two ") 3 0 = Some fragments /\
    Forall (fun f => nonEmpty (trim f) = true) fragments.
Proof. apply (fragments_are_not_blank (lit " One.  Two ") 3 0). lia. Defined.

(** ** The parts cut by the character-window loop *)

Lemma dropWhile_app_stop (f : Z -> bool) (s t : jsstring) :
  dropWhile f s <> [] -> dropWhile f (s ++ t) = dropWhile f s ++ t.
Proof.
  induction s as [|c s IH]; cbn [dropWhile app]; [congruence|].
  destruct (f c); [exact IH | reflexivity].
Qed.

Lemma dropWhile_app_all (f : Z -> bool) (s t : jsstring) :
  dropWhile f s = [] -> dropWhile f (s ++ t) = dropWhile f t.
Proof.
  induction s as [|c s IH]; cbn [dropWhile app]; [reflexivity|].
  destruct (f c); [exact IH | discriminate].
Qed.

(** [trim] does not see a white-space character at the end. *)
Lemma trim_snoc_space (s : jsstring) (c : Z) :
  isWhiteSpace c = true -> trim (s ++ [c]) = trim s.
Proof.
  intro Hc. unfold trim, trimStart.
  destruct (dropWhile isWhiteSpace s) as [|d ds] eqn:E.
  - rewrite dropWhile_app_all by exact E. cbn [dropWhile]. rewrite Hc.
    reflexivity.
  - rewrite dropWhile_app_stop by (rewrite E; discriminate). rewrite E.
    unfold trimEnd. rewrite rev_app_distr. cbn [rev app dropWhile].
    now rewrite Hc.
Qed.

Lemma firstn_succ_nth (l : jsstring) (n : nat) (c : Z) :
  nth_error l n = Some c -> firstn (S n) l = firstn n l ++ [c].
Proof.
  revert l. induction n as [|n IH]; intros [|x l] H; cbn [nth_error] in H;
    try discriminate.
  - injection H as ->. reflexivity.
  - change (x :: firstn (S n) l = x :: (firstn n l ++ [c])).
    now rewrite (IH l H).
Qed.

Lemma nth_error_skipn (l : jsstring) (a n : nat) :
  nth_error (skipn a l) n = nth_error l (a + n).
Proof.
  revert l. induction a as [|a IH]; intros l; [reflexivity|].
  destruct l as [|x l]; cbn [skipn Nat.add nth_error]; [now destruct n|].
  apply IH.
Qed.

Lemma substring_snoc (text : jsstring) (a i c : Z) :
  0 <= a <= i -> i < len text ->
  nth_error text (Z.to_nat i) = Some c ->
  substring text a (i + 1) = substring text a i ++ [c].
Proof.
  intros Ha Hi Hc. rewrite !substring_inside by lia.
  replace (Z.to_nat (i + 1 - a)) with (S (Z.to_nat (i - a))) by lia.
  apply firstn_succ_nth. rewrite nth_error_skipn.
  replace (Z.to_nat a + Z.to_nat (i - a))%nat with (Z.to_nat i) by lia.
  exact Hc.
Qed.

(** A window is at most the target long, or one longer and then it ends
    with the white space at which it was cut. *)
Lemma nextSplitPoint_window (text : jsstring) (targetCharLength currentPos : Z) :
  0 < targetCharLength ->
  0 <= currentPos < len text ->
  nextSplitPoint text targetCharLength currentPos - currentPos <= targetCharLength
  \/ (nextSplitPoint text targetCharLength currentPos
      = currentPos + targetCharLength + 1 /\
      isSpaceAt text (currentPos + targetCharLength) = true).
Proof.
  intros Ht Hc. unfold nextSplitPoint.
  destruct (Z.ltb_spec (Z.min (currentPos + targetCharLength) (len text)) (len text));
    [|left; lia].
  destruct (findSpaceBack _ _ _) as [i|] eqn:E.
  - apply findSpaceBack_range in E. destruct E as [E1 E2].
    destruct (Z.eq_dec i (currentPos + targetCharLength)) as [->|Hne].
    + right. split; [lia | exact E2].
    + left. lia.
  - left. destruct (_ && _); lia.
Qed.

Lemma len_trim_le (s : jsstring) : len (trim s) <= len s.
Proof. unfold len. pose proof (trim_length s). lia. Qed.

Lemma window_part_length (text : jsstring) (targetCharLength currentPos : Z) :
  0 < targetCharLength ->
  0 <= currentPos < len text ->
  len (trim (substring text currentPos
                       (nextSplitPoint text targetCharLength currentPos)))
  <= targetCharLength.
Proof.
  intros Ht Hc.
  pose proof (nextSplitPoint_progress text targetCharLength currentPos Ht Hc) as Hp.
  destruct (nextSplitPoint_window text targetCharLength currentPos Ht Hc)
    as [Hw|[Hw Hs]].
  - etransitivity; [apply len_trim_le|].
    rewrite substring_length by lia. exact Hw.
  - rewrite Hw in *. unfold isSpaceAt in Hs.
    destruct (Z.ltb_spec (currentPos + targetCharLength) 0); [discriminate|].
    destruct (nth_error text (Z.to_nat (currentPos + targetCharLength)))
      as [c|] eqn:Ec; [|discriminate].
    rewrite (substring_snoc text currentPos (currentPos + targetCharLength) c)
      by (assumption || lia).
    rewrite trim_snoc_space by exact Hs.
    etransitivity; [apply len_trim_le|].
    rewrite substring_length by lia. lia.
Qed.

(** ** Pieces that cannot be split further *)

Lemma split_no_blank_line (x : jsstring) :
  hasBlankLine x = false -> split matchBlankLines x = [x].
Proof.
  intro H. unfold split. rewrite splitLoop_no_match; [reflexivity|].
  intros pre post -> _. apply hasBlankLine_suffix in H.
  unfold matchBlankLines. destruct post as [|a [|b post]]; try reflexivity.
  cbn [hasBlankLine] in H. apply orb_false_elim in H. destruct H as [-> _].
  reflexivity.
Qed.

(** A split at blank lines that gives a single piece found no blank line. *)
Lemma splitLoop_single_no_blank (rest : jsstring) :
  forall before cur,
    (List.length (splitLoop matchBlankLines before cur O rest) <= 1)%nat ->
    hasBlankLine rest = false.
Proof.
  induction rest as [|c rest IH]; intros before cur H; [reflexivity|].
  cbn [splitLoop] in H. unfold matchBlankLines in H at 1.
  destruct rest as [|d rest]; [reflexivity|].
  destruct (isNewline c && isNewline d) eqn:E.
  - exfalso. cbn [List.length] in H.
    pose proof (splitLoop_nonempty matchBlankLines (d :: rest) (c :: before) []
                                   (S (runLength isNewline rest))) as Hne.
    destruct (splitLoop _ _ _ _ _); [congruence | cbn [List.length] in H; lia].
  - apply IH in H. cbn [hasBlankLine] in *. now rewrite E.
Qed.

Section InnerMatches.

Variable matchAt : jsstring -> jsstring -> option nat.

(** The expression matches at no position strictly inside [piece], when
    [piece] stands between [before0] (reversed) and [after]. *)
Definition noInnerMatch (before0 piece after : jsstring) : Prop :=
  forall pre post,
    piece = pre ++ post -> pre <> [] -> post <> [] ->
    matchAt (rev pre ++ before0) (post ++ after) = None.

Lemma snoc_eq_app (l pre post : jsstring) (c : Z) :
  l ++ [c] = pre ++ post -> post <> [] ->
  exists post0, post = post0 ++ [c] /\ l = pre ++ post0.
Proof.
  intros H Hne. destruct (exists_last Hne) as [post0 [d ->]].
  rewrite app_assoc in H. apply app_inj_tail in H. destruct H as [-> ->].
  eauto.
Qed.

Lemma noInnerMatch_nil (before0 after : jsstring) :
  noInnerMatch before0 [] after.
Proof.
  intros pre post H Hpre _. symmetry in H. apply app_eq_nil in H.
  destruct H; congruence.
Qed.

Lemma noInnerMatch_single (before0 after : jsstring) (c : Z) :
  noInnerMatch before0 [c] after.
Proof.
  intros pre post H Hpre Hpost.
  destruct pre as [|a pre]; [congruence|].
  destruct pre; destruct post; cbn in H; try congruence; discriminate.
Qed.

Lemma noInnerMatch_push (before0 cur rest : jsstring) (c : Z) :
  noInnerMatch before0 (rev cur) (c :: rest) ->
  (cur <> [] -> matchAt (cur ++ before0) (c :: rest) = None) ->
  noInnerMatch before0 (rev (c :: cur)) rest.
Proof.
  intros Hinv Hnow pre post H Hpre Hpost. cbn [rev] in H.
  destruct (snoc_eq_app _ _ _ _ H Hpost) as [post0 [-> Hcur]].
  destruct post0 as [|d post0].
  - rewrite app_nil_r in Hcur. cbn [app].
    assert (cur = rev pre) as -> by (rewrite <- Hcur; now rewrite rev_involutive).
    apply Hnow. intro E. apply Hpre. rewrite <- (rev_involutive pre), E.
    reflexivity.
  - rewrite <- app_assoc.
    exact (Hinv pre (d :: post0) Hcur Hpre ltac:(discriminate)).
Qed.

(** Inside a piece cut by [split] the expression matches nowhere. *)
Lemma splitLoop_inner (rest : jsstring) :
  forall before0 cur skip piece,
    noInnerMatch before0 (rev cur) rest ->
    (skip <> O -> cur = []) ->
    In piece (splitLoop matchAt (cur ++ before0) cur skip rest) ->
    exists b0 after, noInnerMatch b0 piece after.
Proof.
  induction rest as [|c rest IH]; intros before0 cur skip piece Hinv Hskip Hin.
  - destruct Hin as [<-|[]]. eauto.
  - cbn [splitLoop] in Hin. destruct skip as [|k].
    + destruct (matchAt (cur ++ before0) (c :: rest)) as [[|k]|] eqn:E.
      * destruct cur as [|d cur].
        -- apply (IH before0 [c] O piece); [apply noInnerMatch_single | easy |].
           exact Hin.
        -- destruct Hin as [<-|Hin]; [eauto|].
           apply (IH ((d :: cur) ++ before0) [c] O piece);
             [apply noInnerMatch_single | easy | exact Hin].
      * destruct Hin as [<-|Hin]; [eauto|].
        apply (IH (c :: cur ++ before0) [] k piece);
          [apply noInnerMatch_nil | reflexivity | exact Hin].
      * apply (IH before0 (c :: cur) O piece);
          [apply noInnerMatch_push; [exact Hinv | intros _; exact E]
          | easy | exact Hin].
    + rewrite (Hskip ltac:(discriminate)) in *.
      apply (IH (c :: before0) [] k piece);
        [apply noInnerMatch_nil | reflexivity | exact Hin].
Qed.

Lemma split_inner (s piece : jsstring) :
  In piece (split matchAt s) -> exists b0 after, noInnerMatch b0 piece after.
Proof.
  intro H. apply (splitLoop_inner s [] [] O piece);
    [apply noInnerMatch_nil | easy | exact H].
Qed.

End InnerMatches.

(** The pieces cut by [split] are segments of the string. *)
Lemma splitLoop_segment (matchAt : jsstring -> jsstring -> option nat)
      (rest : jsstring) :
  forall before cur skip piece,
    (skip <> O -> cur = []) ->
    In piece (splitLoop matchAt before cur skip rest) ->
    exists pre post, rev cur ++ rest = pre ++ piece ++ post.
Proof.
  induction rest as [|c rest IH]; intros before cur skip piece Hskip Hin.
  - destruct Hin as [<-|[]]. exists [], []. now rewrite app_nil_r.
  - cbn [splitLoop] in Hin. destruct skip as [|k].
    + assert (Hemit : exists pre post,
                 rev cur ++ c :: rest = pre ++ rev cur ++ post)
        by (exists [], (c :: rest); reflexivity).
      assert (Hnext : forall front cur' skip',
                 (skip' <> O -> cur' = []) ->
                 In piece (splitLoop matchAt (c :: before) cur' skip' rest) ->
                 rev cur ++ c :: rest = front ++ rev cur' ++ rest ->
                 exists pre post, rev cur ++ c :: rest = pre ++ piece ++ post).
      { intros front cur' skip' Hs' Hin' Hfront.
        destruct (IH _ _ _ _ Hs' Hin') as [pre [post E]].
        exists (front ++ pre), post. rewrite Hfront, E.
        now rewrite <- app_assoc. }
      destruct (matchAt before (c :: rest)) as [[|k]|].
      * destruct cur as [|d cur].
        -- apply (Hnext [] [c] O); [easy | exact Hin | reflexivity].
        -- destruct Hin as [<-|Hin]; [exact Hemit|].
           apply (Hnext (rev (d :: cur)) [c] O); [easy | exact Hin | reflexivity].
      * destruct Hin as [<-|Hin]; [exact Hemit|].
        apply (Hnext (rev cur ++ [c]) [] k); [reflexivity | exact Hin |].
        now rewrite <- app_assoc.
      * apply (Hnext [] (c :: cur) O); [easy | exact Hin |].
        cbn [rev app]. now rewrite <- app_assoc.
    + rewrite (Hskip ltac:(discriminate)) in *.
      destruct (IH (c :: before) [] k piece ltac:(reflexivity) Hin)
        as [pre [post E]].
      cbn [rev app] in *. exists (c :: pre), post. now rewrite E.
Qed.

Lemma split_segment (matchAt : jsstring -> jsstring -> option nat)
      (s piece : jsstring) :
  In piece (split matchAt s) -> exists pre post, s = pre ++ piece ++ post.
Proof.
  intro H. exact (splitLoop_segment matchAt s [] [] O piece ltac:(easy) H).
Qed.

Lemma runLength_snoc_lt (f : Z -> bool) (s : jsstring) (d : Z) :
  f d = false -> (runLength f (s ++ [d]) < List.length (s ++ [d]))%nat.
Proof.
  intro Hd. induction s as [|c s IH]; cbn [app runLength List.length].
  - rewrite Hd. lia.
  - destruct (f c); lia.
Qed.

Lemma runLength_app_stop (f : Z -> bool) (s t : jsstring) :
  (runLength f s < List.length s)%nat -> runLength f (s ++ t) = runLength f s.
Proof.
  induction s as [|c s IH]; cbn [app runLength List.length]; [lia|].
  intro H. destruct (f c); [|reflexivity]. f_equal. apply IH. lia.
Qed.

(** The sentence expression looks at one character before the position,
    at the run of white space after it and at the character that ends the
    run. *)
Lemma matchSentenceBreak_local (b : Z) (q1 q2 post after : jsstring) :
  (runLength isWhiteSpace post < List.length post)%nat ->
  matchSentenceBreak (b :: q1) (post ++ after) = matchSentenceBreak (b :: q2) post.
Proof.
  intro H. unfold matchSentenceBreak.
  rewrite runLength_app_stop by exact H.
  now rewrite nth_error_app1 by exact H.
Qed.

(** No position of [s] is a sentence break. *)
Definition noSentenceBreak (s : jsstring) : Prop :=
  forall pre post,
    s = pre ++ post -> post <> [] ->
    matchSentenceBreak (rev pre ++ []) post = None.

Lemma noSentenceBreak_split (s : jsstring) :
  noSentenceBreak s -> split matchSentenceBreak s = [s].
Proof. intro H. unfold split. now rewrite splitLoop_no_match. Qed.

(** A trimmed piece of the sentence split holds no sentence break. *)
Lemma noInnerMatch_trim (before0 piece after : jsstring) :
  noInnerMatch matchSentenceBreak before0 piece after ->
  noSentenceBreak (trim piece).
Proof.
  intros Hinner pre post Hs Hpost. rewrite app_nil_r.
  destruct pre as [|p0 pre0] eqn:Epre; [reflexivity|]. rewrite <- Epre in *.
  assert (Hpre : pre <> []) by (rewrite Epre; discriminate).
  destruct (trim_segment piece) as [a [b Hpiece]].
  destruct (exists_last Hpost) as [post0 [d Ed]].
  assert (Hd : isWhiteSpace d = false).
  { assert (Hrev : rev (trim piece) = d :: rev post0 ++ rev pre).
    { rewrite Hs, Ed, !rev_app_distr. reflexivity. }
    unfold trim, trimEnd in Hrev. rewrite rev_involutive in Hrev.
    exact (dropWhile_head _ _ _ _ Hrev). }
  assert (Hrun : (runLength isWhiteSpace post < List.length post)%nat)
    by (rewrite Ed; now apply runLength_snoc_lt).
  destruct (exists_last Hpre) as [pre1 [c Ec]].
  assert (Hctx : matchSentenceBreak (rev (a ++ pre) ++ before0)
                                    ((post ++ b) ++ after) = None).
  { apply Hinner.
    - rewrite Hpiece at 1. rewrite Hs. now rewrite <- !app_assoc.
    - intro E. apply app_eq_nil in E. destruct E; congruence.
    - intro E. apply app_eq_nil in E. destruct E; congruence. }
  assert (E1 : rev (a ++ pre) ++ before0
               = c :: (rev pre1 ++ rev a ++ before0)).
  { rewrite Ec, !rev_app_distr. cbn [rev app]. now rewrite <- !app_assoc. }
  assert (E2 : rev pre = c :: rev pre1)
    by (rewrite Ec, rev_app_distr; reflexivity).
  rewrite E1, <- app_assoc in Hctx. rewrite E2.
  rewrite (matchSentenceBreak_local c _ (rev pre1) post (b ++ after) Hrun) in Hctx.
  exact Hctx.
Qed.

(** What the sentence branch hands to the recursive call. *)
Lemma sentence_pieces (text x : jsstring) :
  hasBlankLine text = false ->
  In x (filter nonEmpty (map trim (split matchSentenceBreak text))) ->
  cleanParagraph x /\ noSentenceBreak x.
Proof.
  intros Hb Hx. apply filter_In in Hx. destruct Hx as [Hx Hne].
  apply in_map_iff in Hx. destruct Hx as [piece [<- Hpiece]].
  split.
  - apply trim_clean.
    + destruct (split_segment _ _ _ Hpiece) as [pre [post E]]. rewrite E in Hb.
      apply hasBlankLine_suffix in Hb. now apply hasBlankLine_prefix in Hb.
    + intro E. rewrite E in Hne. discriminate.
  - destruct (split_inner _ _ _ Hpiece) as [b0 [after Hinner]].
    exact (noInnerMatch_trim _ _ _ Hinner).
Qed.

(** What the paragraph branch hands to the recursive call. *)
Lemma paragraph_pieces (text piece : jsstring) :
  In piece (split matchBlankLines text) -> hasBlankLine (trim piece) = false.
Proof.
  intro H.
  assert (Hb : hasBlankLine piece = false).
  { eapply (splitLoop_blank_pieces text [] [] O piece); first [exact H | easy]. }
  destruct (trim_segment piece) as [a [b E]]. rewrite E in Hb.
  apply hasBlankLine_suffix in Hb. now apply hasBlankLine_prefix in Hb.
Qed.

(** ** Fragment size *)

(** [f.length <= targetCharLength * 1.5], compared after doubling. *)
Definition withinOneAndAHalf (targetCharLength : Z) (f : jsstring) : Prop :=
  2 * len f <= 3 * targetCharLength.

Lemma window_branch_within (text : jsstring) (targetCharLength : Z)
      (lfuel : nat) (r : list jsstring) :
  0 < targetCharLength ->
  nonEmpty (trim text) = true ->
  match charWindowLoop lfuel text targetCharLength 0 [] with
  | None => None
  | Some results =>
    Some (filter nonEmpty
                 (if (Nat.eqb (List.length results) 0) && (0 <? len text)
                  then results ++ [text] else results))
  end = Some r ->
  Forall (withinOneAndAHalf targetCharLength) r.
Proof.
  intros Ht Hne H.
  destruct (charWindowLoop lfuel _ _ _ _) as [results|] eqn:E; [|discriminate].
  injection H as <-. apply Forall_filter.
  assert (Hres : Forall (withinOneAndAHalf targetCharLength) results).
  { eapply (charWindowLoop_Forall _ text targetCharLength);
      [| exact Ht | | exact E | constructor]; [|lia].
    intros currentPos Hc _. unfold withinOneAndAHalf.
    pose proof (window_part_length text targetCharLength currentPos Ht Hc).
    lia. }
  destruct results as [|r0 results]; [|exact Hres].
  exfalso.
  pose proof (charWindowLoop_strip text targetCharLength Ht lfuel 0 [] []
                ltac:(pose proof (len_nonneg text); lia) E) as Hs.
  cbn in Hs. symmetry in Hs. apply trim_nil_iff in Hs.
  rewrite Hs in Hne. discriminate.
Qed.

(** A trimmed sentence: neither expression matches, so it is returned
    whole when short and cut by windows otherwise. *)
Lemma forceSplit_sentence_within (targetCharLength : Z) (lfuel rfuel : nat)
      (text : jsstring) (depth : nat) (r : list jsstring) :
  0 < targetCharLength ->
  (depth <= 15)%nat ->
  hasBlankLine text = false ->
  noSentenceBreak text ->
  forceSplit rfuel lfuel text targetCharLength depth = Some r ->
  Forall (withinOneAndAHalf targetCharLength) r.
Proof.
  intros Ht Hd Hb Hs H. destruct rfuel as [|rfuel]; [discriminate|].
  cbn [forceSplit] in H.
  destruct (nonEmpty (trim text)) eqn:Etrim; cbn [negb] in H.
  2:{ injection H as <-. constructor. }
  destruct (Nat.ltb_spec 15 depth); [lia|].
  destruct (_ && _) eqn:Esmall.
  { injection H as <-. apply andb_prop in Esmall. destruct Esmall as [E _].
    repeat constructor. unfold withinOneAndAHalf. lia. }
  rewrite (split_no_blank_line text Hb) in H.
  rewrite (noSentenceBreak_split text Hs) in H.
  cbn [map filter List.length] in H. rewrite Etrim in H.
  cbn [List.length] in H.
  change (1 <? 1)%nat with false in H. cbv iota in H.
  now apply window_branch_within in H.
Qed.

(** A text without blank line: split into sentences, or cut by windows. *)
Lemma forceSplit_paragraph_within (targetCharLength : Z) (lfuel rfuel : nat)
      (text : jsstring) (depth : nat) (r : list jsstring) :
  0 < targetCharLength ->
  (depth <= 14)%nat ->
  hasBlankLine text = false ->
  forceSplit rfuel lfuel text targetCharLength depth = Some r ->
  Forall (withinOneAndAHalf targetCharLength) r.
Proof.
  intros Ht Hd Hb H. destruct rfuel as [|rfuel]; [discriminate|].
  cbn [forceSplit] in H.
  destruct (nonEmpty (trim text)) eqn:Etrim; cbn [negb] in H.
  2:{ injection H as <-. constructor. }
  destruct (Nat.ltb_spec 15 depth); [lia|].
  destruct (_ && _) eqn:Esmall.
  { injection H as <-. apply andb_prop in Esmall. destruct Esmall as [E _].
    repeat constructor. unfold withinOneAndAHalf. lia. }
  rewrite (split_no_blank_line text Hb) in H.
  cbn [List.length] in H. change (1 <? 1)%nat with false in H. cbv iota in H.
  destruct (1 <? List.length _)%nat.
  - destruct (flatMapM _ (filter _ _)) as [zs|] eqn:E; [|discriminate].
    injection H as <-. apply Forall_filter.
    eapply flatMapM_Forall; [exact E|].
    intros x ys Hx Hys. cbv beta in Hys.
    destruct (sentence_pieces text x Hb Hx) as [Hclean Hno].
    rewrite (clean_trim x Hclean), (clean_nonEmpty x Hclean) in Hys.
    assert (Hd' : (S depth <= 15)%nat) by lia.
    exact (forceSplit_sentence_within _ _ _ _ _ _ Ht Hd'
                                      (proj1 Hclean) Hno Hys).
  - now apply window_branch_within in H.
Qed.

(** Any text, three levels above the depth limit. *)
Lemma forceSplit_within (targetCharLength : Z) (lfuel rfuel : nat)
      (text : jsstring) (depth : nat) (r : list jsstring) :
  0 < targetCharLength ->
  (depth <= 13)%nat ->
  forceSplit rfuel lfuel text targetCharLength depth = Some r ->
  Forall (withinOneAndAHalf targetCharLength) r.
Proof.
  intros Ht Hd H.
  assert (Hd0 : (depth <= 14)%nat) by lia.
  assert (Hd1 : (S depth <= 14)%nat) by lia.
  destruct (hasBlankLine text) eqn:Hb;
    [|exact (forceSplit_paragraph_within _ _ _ _ _ _ Ht Hd0 Hb H)].
  destruct rfuel as [|rfuel]; [discriminate|].
  cbn [forceSplit] in H.
  destruct (nonEmpty (trim text)) eqn:Etrim; cbn [negb] in H.
  2:{ injection H as <-. constructor. }
  destruct (Nat.ltb_spec 15 depth); [lia|].
  destruct (_ && _) eqn:Esmall.
  { injection H as <-. apply andb_prop in Esmall. destruct Esmall as [E _].
    repeat constructor. unfold withinOneAndAHalf. lia. }
  destruct (Nat.ltb_spec 1 (List.length (split matchBlankLines text)))
    as [Hmany|Hone].
  - destruct (flatMapM _ (split matchBlankLines text)) as [zs|] eqn:E;
      [|discriminate].
    injection H as <-. apply Forall_filter.
    eapply flatMapM_Forall; [exact E|].
    intros x ys Hx Hys. cbv beta in Hys.
    destruct (nonEmpty (trim x)).
    + exact (forceSplit_paragraph_within _ _ _ _ _ _ Ht Hd1
                                         (paragraph_pieces text x Hx) Hys).
    + injection Hys as <-. constructor.
  - apply (splitLoop_single_no_blank text [] []) in Hone. congruence.
Qed.

(** X5. Started at most three levels below the depth limit, so in
    particular at depth 0 as [createAudiobookChunks] does, with a positive
    target length, [forceSplitTextRecursive_SYNC] returns fragments that
    are all at most one and a half times the target long: a paragraph
    split and a sentence split are followed by the window loop, whose
    parts are at most the target long, and the depth guard that returns
    a segment as it is stays unused. *)
Theorem fragments_within_one_and_a_half (text : jsstring)
        (targetCharLength : Z) (depth : nat) :
  0 < targetCharLength ->
  (depth <= 13)%nat ->
  exists fragments,
    forceSplitTextRecursive_SYNC text targetCharLength depth = Some fragments /\
    Forall (fun f => 2 * len f <= 3 * targetCharLength) fragments.
Proof.
  intros Ht Hd.
  destruct (forceSplitTextRecursive_SYNC_total text targetCharLength depth Ht)
    as [fragments H].
  exists fragments. split; [exact H|].
  rewrite forceSplitTextRecursive_SYNC_eq in H.
  exact (forceSplit_within _ _ _ _ _ _ Ht Hd H).
Qed.

Lemma fragments_within_one_and_a_half_witness :
  exists fragments,
    forceSplitTextRecursive_SYNC (lit "One two. Three four five") 6 0
    = Some fragments /\
    Forall (fun f => 2 * len f <= 3 * 6) fragments.
Proof.
  apply (fragments_within_one_and_a_half (lit "One two. Three four five") 6 0);
    lia.
Defined.

(* ================================================================== *)
(** * Further properties of the aggregator                              *)
(* ================================================================== *)

Lemma join_nil_nonempty (sep : jsstring) (g : list jsstring) :
  Forall (fun p => p <> []) g -> join sep g = [] -> g = [].
Proof.
  intros Hg Hj. destruct g as [|p g]; [reflexivity|].
  inversion Hg as [|? ? Hp _]; subst.
  destruct p; [congruence|]. destruct g; discriminate.
Qed.

(** A group of consecutive paragraphs that became one candidate: it is
    not empty, and it fits the target unless it is a single paragraph. *)
Definition candidateGroup (charTarget : Z) (g : list jsstring) : Prop :=
  g <> [] /\ (len (join BLANK_LINE g) <= charTarget \/ List.length g = 1%nat).

Lemma aggregate_groups_fold (charTarget : Z) (paragraphs : list jsstring) :
  Forall (fun p => p <> []) paragraphs ->
  forall gs g,
    Forall (fun p => p <> []) g ->
    Forall (candidateGroup charTarget) gs ->
    (len (join BLANK_LINE g) <= charTarget \/ (List.length g <= 1)%nat) ->
    exists groups,
      concat groups = concat gs ++ g ++ paragraphs /\
      Forall (candidateGroup charTarget) groups /\
      aggregateFlush (fold_left (aggregateStep charTarget) paragraphs
                                (map (join BLANK_LINE) gs, join BLANK_LINE g))
      = map (join BLANK_LINE) groups.
Proof.
  induction 1 as [|p ps Hp Hps IH]; intros gs g Hg Hgs Hfit.
  - cbn [fold_left aggregateFlush]. rewrite app_nil_r.
    destruct (Z.ltb_spec 0 (len (join BLANK_LINE g))) as [Hpos|Hzero].
    + exists (gs ++ [g]). rewrite concat_app, map_app. cbn [concat map].
      rewrite app_nil_r. split; [reflexivity|]. split; [|reflexivity].
      apply Forall_app. split; [exact Hgs|]. constructor; [|constructor].
      split; [intros ->; cbn in Hpos; lia|].
      destruct Hfit as [Hfit|Hfit]; [now left|right].
      destruct g as [|x [|y g]]; cbn [List.length] in *; try lia.
      cbn in Hpos. lia.
    + assert (g = []) as ->.
      { apply (join_nil_nonempty BLANK_LINE); [exact Hg|].
        apply len_zero_iff. pose proof (len_nonneg (join BLANK_LINE g)). lia. }
      exists gs. rewrite app_nil_r. auto.
  - cbn [fold_left]. unfold aggregateStep at 2.
    destruct (Z.eqb_spec (len (join BLANK_LINE g)) 0) as [Hzero|Hpos].
    + assert (g = []) as ->.
      { apply (join_nil_nonempty BLANK_LINE); [exact Hg|].
        now apply len_zero_iff. }
      cbn [join andb app] in *.
      change (0 <? len []) with false. cbv iota.
      rewrite andb_false_r. cbn [app].
      destruct (Z.leb_spec charTarget (len p)) as [Hbig|Hsmall].
      * destruct (IH (gs ++ [[p]]) []) as [groups [Hc [Hf He]]].
        -- constructor.
        -- apply Forall_app. split; [exact Hgs|]. constructor; [|constructor].
           split; [discriminate | now right].
        -- right. cbn. lia.
        -- exists groups. split; [|split; [exact Hf|]].
           ++ rewrite Hc, concat_app. cbn [concat app].
              now rewrite <- ?app_assoc, ?app_nil_r.
           ++ rewrite <- He, map_app. reflexivity.
      * destruct (IH gs [p]) as [groups [Hc [Hf He]]].
        -- constructor; [exact Hp | constructor].
        -- exact Hgs.
        -- right. cbn. lia.
        -- exists groups. split; [|split; [exact Hf|]].
           ++ rewrite Hc. reflexivity.
           ++ rewrite <- He. reflexivity.
    + cbn [andb].
      assert (Hlt : 0 < len (join BLANK_LINE g))
        by (pose proof (len_nonneg (join BLANK_LINE g)); lia).
      assert (Hne : g <> []) by (intros ->; cbn in Hlt; lia).
      destruct (Z.ltb_spec 0 (len (join BLANK_LINE g))); [|lia].
      rewrite andb_true_r.
      destruct (Z.ltb_spec charTarget
                  (len (join BLANK_LINE g) + len BLANK_LINE + len p))
        as [Hover|Hfits].
      * destruct (IH (gs ++ [g]) [p]) as [groups [Hc [Hf He]]].
        -- constructor; [exact Hp | constructor].
        -- apply Forall_app. split; [exact Hgs|]. constructor; [|constructor].
           split; [exact Hne|]. destruct Hfit as [Hfit|Hfit]; [now left|right].
           destruct g as [|x [|y g]]; cbn [List.length] in *; congruence || lia.
        -- right. cbn. lia.
        -- exists groups. split; [|split; [exact Hf|]].
           ++ rewrite Hc, concat_app. cbn [concat app].
              now rewrite <- ?app_assoc, ?app_nil_r.
           ++ rewrite <- He, map_app. reflexivity.
      * destruct (IH gs (g ++ [p])) as [groups [Hc [Hf He]]].
        -- apply Forall_app. split; [exact Hg|]. constructor; [exact Hp|constructor].
        -- exact Hgs.
        -- left. rewrite join_snoc by exact Hne. rewrite !len_app. lia.
        -- exists groups. split; [|split; [exact Hf|]].
           ++ rewrite Hc. now rewrite <- !app_assoc.
           ++ rewrite <- He, join_snoc by exact Hne. reflexivity.
Qed.

(** X6. The candidates are the paragraphs, in their order, cut into
    consecutive groups and each group joined with blank lines: for
    paragraphs that are not empty (as [splitTextIntoParagraphs] gives them)
    no paragraph is lost, repeated or moved, no candidate is empty, and a
    candidate made of two or more paragraphs fits the target, so a candidate
    beyond the target is always a single paragraph. *)
Theorem aggregate_groups_paragraphs (paragraphs : list jsstring)
        (charTarget : Z) :
  Forall (fun p => p <> []) paragraphs ->
  exists groups,
    concat groups = paragraphs /\
    Forall (fun g => g <> [] /\
                     (len (join BLANK_LINE g) <= charTarget \/
                      List.length g = 1%nat)) groups /\
    aggregateParagraphsIntoChunks paragraphs charTarget
    = map (join BLANK_LINE) groups.
Proof.
  intro Hps. unfold aggregateParagraphsIntoChunks.
  destruct paragraphs as [|p ps] eqn:E.
  - exists []. repeat split. constructor.
  - rewrite <- E in *.
    destruct (aggregate_groups_fold charTarget paragraphs Hps [] [])
      as [groups [Hc [Hf He]]].
    + constructor.
    + constructor.
    + right. cbn. lia.
    + exists groups. split; [exact Hc|]. split; [exact Hf|]. exact He.
Qed.

Lemma aggregate_groups_paragraphs_witness :
  exists groups,
    concat groups = [lit "ab"; lit "c"; lit "defghijkl"] /\
    Forall (fun g => g <> [] /\
                     (len (join BLANK_LINE g) <= 5 \/
                      List.length g = 1%nat)) groups /\
    aggregateParagraphsIntoChunks [lit "ab"; lit "c"; lit "defghijkl"] 5
    = map (join BLANK_LINE) groups.
Proof.
  apply (aggregate_groups_paragraphs [lit "ab"; lit "c"; lit "defghijkl"] 5).
  repeat constructor; discriminate.
Defined.

Lemma len_join_app (sep : jsstring) (a b : list jsstring) :
  len (join sep a) <= len (join sep (a ++ b)).
Proof.
  induction a as [|x a IH].
  - cbn [join app]. apply len_nonneg.
  - destruct a as [|y a].
    + cbn [app]. destruct b as [|z b]; [cbn [join]; lia|].
      change (join sep (x :: z :: b)) with (x ++ sep ++ join sep (z :: b)).
      change (join sep [x]) with x. rewrite !len_app.
      pose proof (len_nonneg sep). pose proof (len_nonneg (join sep (z :: b))).
      lia.
    + change (join sep (x :: y :: a)) with (x ++ sep ++ join sep (y :: a)).
      change (join sep ((x :: y :: a) ++ b))
        with (x ++ sep ++ join sep ((y :: a) ++ b)).
      rewrite !len_app. lia.
Qed.

Lemma join_positive (g : list jsstring) :
  g <> [] -> Forall (fun p => p <> []) g -> 0 < len (join BLANK_LINE g).
Proof.
  intros Hne Hg.
  destruct (Z.ltb_spec 0 (len (join BLANK_LINE g))) as [H0|H0]; [exact H0|].
  exfalso. apply Hne. apply (join_nil_nonempty BLANK_LINE); [exact Hg|].
  apply len_zero_iff. pose proof (len_nonneg (join BLANK_LINE g)). lia.
Qed.

(** When all the paragraphs, joined with blank lines, fit the target, the
    loop only appends. *)
Lemma aggregate_fits_fold (charTarget : Z) (paragraphs : list jsstring) :
  Forall (fun p => p <> []) paragraphs ->
  forall chunks g,
    g <> [] ->
    Forall (fun p => p <> []) g ->
    len (join BLANK_LINE (g ++ paragraphs)) <= charTarget ->
    aggregateFlush (fold_left (aggregateStep charTarget) paragraphs
                              (chunks, join BLANK_LINE g))
    = chunks ++ [join BLANK_LINE (g ++ paragraphs)].
Proof.
  induction 1 as [|p ps Hp Hps IH]; intros chunks g Hne Hg Hfit.
  - cbn [fold_left aggregateFlush]. rewrite app_nil_r in *.
    pose proof (join_positive g Hne Hg) as Hpos.
    destruct (Z.ltb_spec 0 (len (join BLANK_LINE g))); [reflexivity | lia].
  - cbn [fold_left]. unfold aggregateStep at 2.
    pose proof (join_positive g Hne Hg) as Hpos.
    replace (g ++ p :: ps) with ((g ++ [p]) ++ ps) in *
      by (now rewrite <- app_assoc).
    pose proof (len_join_app BLANK_LINE (g ++ [p]) ps) as Hmono.
    rewrite join_snoc in Hmono by exact Hne. rewrite !len_app in Hmono.
    assert (Hm2 : len (join BLANK_LINE g) + len BLANK_LINE + len p
                  <= charTarget).
    { rewrite <- Z.add_assoc. exact (Z.le_trans _ _ _ Hmono Hfit). }
    destruct (Z.eqb_spec (len (join BLANK_LINE g)) 0); [lia|]. cbn [andb].
    destruct (Z.ltb_spec 0 (len (join BLANK_LINE g))); [|lia].
    destruct (Z.ltb_spec charTarget
                (len (join BLANK_LINE g) + len BLANK_LINE + len p)); [lia|].
    cbn [andb]. rewrite <- join_snoc by exact Hne.
    apply IH; [now destruct g | | exact Hfit].
    apply Forall_app. split; [exact Hg|]. constructor; [exact Hp|constructor].
Qed.

(** X7. When the paragraphs are not empty and, joined with blank lines,
    fit the target, the aggregator returns exactly one candidate: all the
    paragraphs joined with blank lines. *)
Theorem aggregate_single_candidate (paragraphs : list jsstring)
        (charTarget : Z) :
  paragraphs <> [] ->
  Forall (fun p => p <> []) paragraphs ->
  len (join BLANK_LINE paragraphs) <= charTarget ->
  aggregateParagraphsIntoChunks paragraphs charTarget
  = [join BLANK_LINE paragraphs].
Proof.
  intros Hne Hps Hfit. destruct paragraphs as [|p ps]; [congruence|].
  unfold aggregateParagraphsIntoChunks. cbn [fold_left].
  inversion Hps as [|? ? Hp Hps']; subst.
  unfold aggregateStep at 2. change (len []) with 0. cbn [Z.eqb andb Z.ltb].
  change (0 ?= 0) with Eq. cbv iota. rewrite andb_false_r. cbn [app].
  destruct (Z.leb_spec charTarget (len p)) as [Hbig|Hsmall].
  - destruct ps as [|q ps].
    + reflexivity.
    + exfalso. pose proof (len_join_app BLANK_LINE [p; q] ps) as Hmono.
      pose proof (Z.le_trans _ _ _ Hmono Hfit) as Hm2. clear Hmono.
      change (join BLANK_LINE [p; q]) with (p ++ BLANK_LINE ++ q) in Hm2.
      rewrite !len_app in Hm2. inversion Hps' as [|? ? Hq _]; subst.
      assert (0 < len q)
        by (destruct q; [congruence | unfold len; cbn [List.length]; lia]).
      change (len BLANK_LINE) with 2 in Hm2. lia.
  - change ((if 0 <? 0 then BLANK_LINE else []) ++ p)
      with (join BLANK_LINE [p]).
    refine (aggregate_fits_fold charTarget ps Hps' [] [p] _ _ Hfit);
      [discriminate | now constructor].
Qed.

Lemma aggregate_single_candidate_witness :
  aggregateParagraphsIntoChunks [lit "ab"; lit "c"] 5
  = [join BLANK_LINE [lit "ab"; lit "c"]].
Proof.
  apply (aggregate_single_candidate [lit "ab"; lit "c"] 5).
  - discriminate.
  - repeat constructor; discriminate.
  - vm_compute. discriminate.
Defined.

(* ================================================================== *)
(** * Further properties of [createAudiobookChunks]                     *)
(* ================================================================== *)

(** ** File names and the tests of the caller *)

Definition isDigit (c : Z) : bool := (48 <=? c) && (c <=? 57).

Lemma string_of_uint_digits (d : Decimal.uint) :
  Forall (fun c => isDigit c = true) (lit (NilEmpty.string_of_uint d)).
Proof.
  induction d; cbn [NilEmpty.string_of_uint]; try constructor;
    try reflexivity; assumption.
Qed.

Lemma numberToString_digits (n : Z) :
  0 <= n -> Forall (fun c => isDigit c = true) (numberToString n).
Proof.
  intro Hn. unfold numberToString. destruct n as [|p|p]; try lia.
  - repeat constructor.
  - apply string_of_uint_digits.
Qed.

(** The number in a file name ends with a digit. *)
Lemma padded_number_last (n : Z) :
  0 <= n ->
  exists ds d, padStart (numberToString n) 3 48 = ds ++ [d] /\ isDigit d = true.
Proof.
  intro Hn. pose proof (numberToString_digits n Hn) as Hd.
  assert (Hall : Forall (fun c => isDigit c = true)
                        (padStart (numberToString n) 3 48)).
  { unfold padStart. apply Forall_app. split; [|exact Hd].
    apply Forall_forall. intros c Hc. apply repeat_spec in Hc. now subst. }
  assert (Hne : padStart (numberToString n) 3 48 <> []).
  { unfold padStart. destruct (numberToString n) as [|c s]; [discriminate|].
    intro E. apply app_eq_nil in E. destruct E; discriminate. }
  destruct (exists_last Hne) as [ds [d E]]. exists ds, d. split; [exact E|].
  rewrite E in Hall. apply Forall_app in Hall. destruct Hall as [_ Hall].
  now inversion Hall.
Qed.

Lemma startsWith_common (a s p : jsstring) :
  startsWith (a ++ s) (a ++ p) = startsWith s p.
Proof.
  induction a as [|c a IH]; [reflexivity|]. cbn [app startsWith].
  now rewrite Z.eqb_refl, IH.
Qed.

(** Two strings that differ in the character before a common ending. *)
Lemma endsWith_mismatch (pre p q : jsstring) (d x : Z) :
  d <> x -> endsWith (pre ++ d :: q) (p ++ x :: q) = false.
Proof.
  intro H. unfold endsWith. rewrite !rev_app_distr. cbn [rev].
  rewrite <- !app_assoc, startsWith_common. cbn [app startsWith].
  destruct (Z.eqb_spec x d); [congruence | reflexivity].
Qed.

Local Abbreviation OVERSIZED_WAV := (lit "_OVERSIZED.wav").
Local Abbreviation TOKEN_ERR_WAV := (lit "_TOKEN_ERR.wav").

Lemma oversized_wav_eq : OVERSIZED_WAV = lit "_OVERSIZE" ++ 68 :: lit ".wav".
Proof. reflexivity. Qed.

Lemma token_err_wav_eq : TOKEN_ERR_WAV = lit "_TOKEN_ER" ++ 82 :: lit ".wav".
Proof. reflexivity. Qed.

Lemma plain_name_tests (base : jsstring) (n : Z) :
  0 <= n ->
  endsWith (partFileName base n []) OVERSIZED_WAV = false /\
  endsWith (partFileName base n []) TOKEN_ERR_WAV = false.
Proof.
  intro Hn. destruct (padded_number_last n Hn) as [ds [d [E Hd]]].
  unfold partFileName. rewrite E. cbn [app].
  replace (base ++ lit "_Part_" ++ (ds ++ [d]) ++ lit ".wav")
    with ((base ++ lit "_Part_" ++ ds) ++ d :: lit ".wav")
    by (rewrite <- !app_assoc; reflexivity).
  unfold isDigit in Hd. apply andb_prop in Hd. destruct Hd as [H1 H2].
  rewrite oversized_wav_eq, token_err_wav_eq.
  split; apply endsWith_mismatch; lia.
Qed.

Lemma error_name_tests (base suffix : jsstring) (n : Z) :
  In suffix [lit "_TOKEN_ERR"; lit "_SUB_TOKEN_ERR"] ->
  endsWith (partFileName base n suffix) OVERSIZED_WAV = false /\
  endsWith (partFileName base n suffix) TOKEN_ERR_WAV = true.
Proof.
  intros [<-|[<-|[]]]; unfold partFileName; split.
  - replace (base ++ lit "_Part_" ++ padStart (numberToString n) 3 48
                  ++ lit "_TOKEN_ERR" ++ lit ".wav")
      with ((base ++ lit "_Part_" ++ padStart (numberToString n) 3 48
                  ++ lit "_TOKEN_ER") ++ 82 :: lit ".wav")
      by (rewrite <- !app_assoc; reflexivity).
    rewrite oversized_wav_eq. now apply endsWith_mismatch.
  - change (lit "_TOKEN_ERR" ++ lit ".wav") with TOKEN_ERR_WAV.
    rewrite !app_assoc. apply endsWith_app.
  - replace (base ++ lit "_Part_" ++ padStart (numberToString n) 3 48
                  ++ lit "_SUB_TOKEN_ERR" ++ lit ".wav")
      with ((base ++ lit "_Part_" ++ padStart (numberToString n) 3 48
                  ++ lit "_SUB_TOKEN_ER") ++ 82 :: lit ".wav")
      by (rewrite <- !app_assoc; reflexivity).
    rewrite oversized_wav_eq. now apply endsWith_mismatch.
  - change (lit "_SUB_TOKEN_ERR" ++ lit ".wav")
      with (lit "_SUB" ++ TOKEN_ERR_WAV).
    rewrite !app_assoc. apply endsWith_app.
Qed.

Lemma oversized_name_tests (base : jsstring) (n : Z) :
  endsWith (partFileName base n (lit "_OVERSIZED")) OVERSIZED_WAV = true /\
  endsWith (partFileName base n (lit "_OVERSIZED")) TOKEN_ERR_WAV = false.
Proof.
  unfold partFileName; split.
  - change (lit "_OVERSIZED" ++ lit ".wav") with OVERSIZED_WAV.
    rewrite !app_assoc. apply endsWith_app.
  - replace (base ++ lit "_Part_" ++ padStart (numberToString n) 3 48
                  ++ lit "_OVERSIZED" ++ lit ".wav")
      with ((base ++ lit "_Part_" ++ padStart (numberToString n) 3 48
                  ++ lit "_OVERSIZE") ++ 68 :: lit ".wav")
      by (rewrite <- !app_assoc; reflexivity).
    rewrite token_err_wav_eq. now apply endsWith_mismatch.
Qed.

(** The second test that the application makes before synthesis
    (App.tsx): the status is error and the file name ends with
    [_TOKEN_ERR.wav]. *)
Definition skippedForTokenError (c : AudiobookChunk.t) : bool :=
  inErrorStatus c && endsWith (AudiobookChunk.fileName c) TOKEN_ERR_WAV.

(** Neither test makes the loop of the application [continue]: the text
    of the chunk goes to [generateAudioForChunk]. *)
Definition sentToSynthesis (c : AudiobookChunk.t) : bool :=
  negb (flaggedOversized c) && negb (skippedForTokenError c).

Ltac pushed_tests_finish :=
  try easy;
  try (eexists; split; [reflexivity | first [assumption | lia]]);
  try (intros _; eexists; split; [reflexivity | lia]);
  try (intros _; split; [reflexivity|]; eexists; split; [reflexivity | lia]);
  try (intros [m [E Hm]]; first [discriminate | injection E as <-; lia]);
  try (intros [_ [m [E Hm]]]; first [discriminate | injection E as <-; lia]);
  try (intros [E _]; discriminate).

(** What the two tests say about a chunk pushed by the loops. *)
Lemma pushed_tests (base source : jsstring) (c : AudiobookChunk.t) :
  0 <= AudiobookChunk.index c ->
  pushed base source c ->
  (flaggedOversized c = true <->
   exists n, AudiobookChunk.tokenCount c = Some n /\ MAX_TTS_TOKENS < n) /\
  (skippedForTokenError c = true <-> AudiobookChunk.status c = error) /\
  (sentToSynthesis c = true <->
   AudiobookChunk.status c = pending /\
   exists n, AudiobookChunk.tokenCount c = Some n /\ n <= MAX_TTS_TOKENS).
Proof.
  intros Hidx H. unfold sentToSynthesis, skippedForTokenError, flaggedOversized,
                 inErrorStatus.
  destruct H as [source c detail suffix Hsuf _ Hst Htc _ Hfn
                | source c n _ Hst Htc Hn _ Hfn
                | source c n _ Hst Htc Hn _ Hfn];
    rewrite Hfn, Hst, Htc.
  - destruct (error_name_tests base suffix (AudiobookChunk.index c + 1) Hsuf)
      as [-> ->].
    cbn. repeat split; pushed_tests_finish.
  - assert (Hn1 : 0 <= AudiobookChunk.index c + 1) by lia.
    destruct (plain_name_tests base (AudiobookChunk.index c + 1) Hn1)
      as [-> ->].
    cbn. repeat split; pushed_tests_finish.
  - destruct (oversized_name_tests base (AudiobookChunk.index c + 1))
      as [-> ->].
    cbn. repeat split; pushed_tests_finish.
Qed.

(** X8. The file names that [createAudiobookChunks] gives are exact
    flags for the loop of the application (App.tsx): for every chunk
    returned, the name ends with [_OVERSIZED.wav] exactly when the chunk
    carries a token count beyond [MAX_TTS_TOKENS]; the test for a token
    counting error, status error and a name ending with [_TOKEN_ERR.wav],
    holds exactly for the chunks in error status (the suffix
    [_SUB_TOKEN_ERR] included); and a chunk passes both tests and goes to
    synthesis exactly when it is pending with a token count of at most
    [MAX_TTS_TOKENS]. *)
Theorem file_names_flag_chunks_for_caller
        (transliterate : jsstring -> jsstring) (randomUUID : nat -> jsstring)
        (input : ChunkingInput) (ai : option Oracle)
        (bookFileNameBaseArg voicePromptArg : option jsstring)
        (w w' : World) (chunks : list AudiobookChunk.t) (c : AudiobookChunk.t) :
  createAudiobookChunks transliterate randomUUID input ai
                        bookFileNameBaseArg voicePromptArg w
  = Some (returns chunks, w') ->
  In c chunks ->
  (flaggedOversized c = true <->
   exists n, AudiobookChunk.tokenCount c = Some n /\ MAX_TTS_TOKENS < n) /\
  (skippedForTokenError c = true <-> AudiobookChunk.status c = error) /\
  (sentToSynthesis c = true <->
   AudiobookChunk.status c = pending /\
   exists n, AudiobookChunk.tokenCount c = Some n /\ n <= MAX_TTS_TOKENS).
Proof.
  intros Hrun Hin.
  destruct (createAudiobookChunks_invariant transliterate randomUUID input ai
              bookFileNameBaseArg voicePromptArg w)
    as [completion [w0 [Hrun0 Hinv]]].
  rewrite Hrun in Hrun0. injection Hrun0 as <- <-.
  destruct (Hinv chunks eq_refl) as [_ [Hpushed _]]. cbn [fst] in Hpushed.
  apply In_nth_error in Hin. destruct Hin as [i Hi].
  destruct (Hpushed i c Hi) as [Hidx [source Hp]].
  eapply pushed_tests; [lia | exact Hp].
Qed.

(** A service that counts 9000 tokens for every text: the candidate is
    split again and its only fragment is flagged. *)
Definition alwaysHuge : Oracle := fun _ _ => totalTokens 9000.

Definition flaggedHello : AudiobookChunk.t :=
  {| AudiobookChunk.id := [];
     AudiobookChunk.index := 0;
     AudiobookChunk.text := lit "hello";
     AudiobookChunk.fileName := lit "Audiobook_Part_001_OVERSIZED.wav";
     AudiobookChunk.chapterTitle := Some (lit "Audiobook");
     AudiobookChunk.status := pending;
     AudiobookChunk.errorDetails := None;
     AudiobookChunk.tokenCount := Some 9000 |}.

Lemma file_names_flag_chunks_for_caller_witness :
  (flaggedOversized flaggedHello = true <->
   exists n, AudiobookChunk.tokenCount flaggedHello = Some n /\
             MAX_TTS_TOKENS < n) /\
  (skippedForTokenError flaggedHello = true <->
   AudiobookChunk.status flaggedHello = error) /\
  (sentToSynthesis flaggedHello = true <->
   AudiobookChunk.status flaggedHello = pending /\
   exists n, AudiobookChunk.tokenCount flaggedHello = Some n /\
             n <= MAX_TTS_TOKENS).
Proof.
  apply (file_names_flag_chunks_for_caller
           sameTitle noUUID (strings [lit "hello"]) (Some alwaysHuge) None None
           initialWorld
           {| oracleCalls := 2; timeouts := []; uuidsDrawn := 1 |}
           [flaggedHello] flaggedHello).
  - vm_compute. reflexivity.
  - left. reflexivity.
Defined.

(** X9. How a run ends. Without a token-counting service it throws, with
    the world untouched. With one it returns chunks, and the list is
    empty exactly when the input text is blank (the array is empty, or the
    content of the first chapter or the pasted strings joined hold only
    white space): a text that is not blank always gives at least one
    chunk, whatever the service answers. *)
Theorem empty_result_iff_blank_input
        (transliterate : jsstring -> jsstring) (randomUUID : nat -> jsstring)
        (input : ChunkingInput) (ai : option Oracle)
        (bookFileNameBaseArg voicePromptArg : option jsstring) (w : World) :
  exists completion w',
    createAudiobookChunks transliterate randomUUID input ai
                          bookFileNameBaseArg voicePromptArg w
    = Some (completion, w') /\
    match ai with
    | None =>
      completion
      = throws (lit "Gemini API not initialized for token counting and chunking.")
      /\ w' = w
    | Some _ =>
      exists chunks,
        completion = returns chunks /\
        (chunks = [] <-> trim (inputText input) = [])
    end.
Proof.
  unfold createAudiobookChunks.
  destruct ai as [ai|].
  2:{ eexists _, _. split; [reflexivity|]. split; reflexivity. }
  set (base := match bookFileNameBaseArg with
               | Some b => b
               | None => lit "Audiobook"
               end).
  destruct (readInput input base) as [[fullTextContent title]|] eqn:Einput.
  2:{ eexists _, _. split; [reflexivity|]. exists []. split; [reflexivity|].
      rewrite (readInput_none _ _ Einput). split; reflexivity. }
  rewrite (readInput_text _ _ _ _ Einput).
  destruct (nonEmpty (trim fullTextContent)) eqn:Ene; cbn [negb].
  2:{ eexists _, _. split; [reflexivity|]. exists []. split; [reflexivity|].
      destruct (trim fullTextContent); [split; reflexivity | discriminate]. }
  pose proof (candidates_nonempty fullTextContent
                                  IDEAL_CHARS_PER_CHUNK_TARGET Ene) as Hcand.
  set (candidates := aggregateParagraphsIntoChunks _ _) in *.
  destruct candidates as [|cand cands] eqn:Ecands; [congruence|].
  cbn [List.length Nat.eqb andb]. unfold bind.
  destruct (validation_loop randomUUID ai
              (match voicePromptArg with Some v => v | None => [] end)
              title (sanitizeFileNameBase transliterate title)
              (cand :: cands) w) as [[chunks idx] [w' [Hrun Hinv]]].
  rewrite Hrun. eexists _, _. split; [reflexivity|].
  exists chunks. split; [reflexivity|]. cbn [fst].
  split.
  - intros ->. exfalso. destruct Hinv as [_ [_ [[c [[] _]]|Hcov]]].
    cbn [fst] in Hcov. rewrite <- Ecands in Hcov. subst candidates.
    rewrite aggregate_strip, splitTextIntoParagraphs_strip, strip_trim in Hcov.
    rewrite nonEmpty_trim_strip, <- Hcov in Ene. discriminate.
  - intro E. rewrite E in Ene. discriminate.
Qed.

(** X10. The chunk that reports a failed aggregation is never returned:
    the branch that builds it asks for no candidate from a text that is
    not blank, and the paragraph splitter and the aggregator always give
    one. *)
Theorem aggregation_error_never_returned
        (transliterate : jsstring -> jsstring) (randomUUID : nat -> jsstring)
        (input : ChunkingInput) (ai : option Oracle)
        (bookFileNameBaseArg voicePromptArg : option jsstring)
        (w w' : World) (chunks : list AudiobookChunk.t) :
  createAudiobookChunks transliterate randomUUID input ai
                        bookFileNameBaseArg voicePromptArg w
  = Some (returns chunks, w') ->
  forall newId bookFileNameBase,
    ~ In (aggregateErrorChunk newId bookFileNameBase) chunks.
Proof.
  intros Hrun newId bookFileNameBase Hin.
  destruct (createAudiobookChunks_invariant transliterate randomUUID input ai
              bookFileNameBaseArg voicePromptArg w)
    as [completion [w0 [Hrun0 Hinv]]].
  rewrite Hrun in Hrun0. injection Hrun0 as <- <-.
  destruct (Hinv chunks eq_refl) as [_ [Hpushed _]]. cbn [fst] in Hpushed.
  apply In_nth_error in Hin. destruct Hin as [i Hi].
  destruct (Hpushed _ _ Hi) as [_ [source Hp]].
  inversion Hp as [? ? ? ? _ Htext _ _ _ _ | ? ? ? _ Hst _ _ _ _
                   | ? ? ? _ Hst _ _ _ _]; subst.
  - unfold errorSnippet in Htext. discriminate.
  - discriminate.
  - discriminate.
Qed.

Lemma aggregation_error_never_returned_witness :
  ~ In (aggregateErrorChunk [] (lit "Audiobook")) [flaggedHello].
Proof.
  refine (aggregation_error_never_returned
            sameTitle noUUID (strings [lit "hello"]) (Some alwaysHuge) None None
            initialWorld
            {| oracleCalls := 2; timeouts := []; uuidsDrawn := 1 |}
            [flaggedHello] _ [] (lit "Audiobook")).
  vm_compute. reflexivity.
Defined.

(** ** The requests of one token count *)

Lemma after_one (w : World) :
  {| oracleCalls := S (oracleCalls w); timeouts := timeouts w;
     uuidsDrawn := uuidsDrawn w |}
  = after w 1 [].
Proof. unfold after. rewrite app_nil_r. f_equal. lia. Qed.

Lemma after_two (w : World) :
  {| oracleCalls := S (S (oracleCalls w)); timeouts := timeouts w ++ [1000];
     uuidsDrawn := uuidsDrawn w |}
  = after w 2 [1000].
Proof. unfold after. f_equal. lia. Qed.

Lemma after_three (w : World) :
  {| oracleCalls := S (S (S (oracleCalls w)));
     timeouts := (timeouts w ++ [1000]) ++ [2000];
     uuidsDrawn := uuidsDrawn w |}
  = after w 3 [1000; 2000].
Proof. unfold after. rewrite <- app_assoc. f_equal. lia. Qed.

(** X11. For every token-counting service and every text, one call of
    [countTokensForText] ends after one, two or three requests, all for
    the same request text; before the second request it waits 1000 ms and
    before the third 2000 ms, and it draws no identifier. Every request
    but the last was rejected with a server error; the call returns the
    count of the last response, or throws the error of the last response,
    and an error thrown before the third request is not a server error. *)
Theorem count_request_budget (ai : Oracle) (voicePrompt textToCount : jsstring)
        (w : World) :
  exists r calls,
    countTokensForText ai voicePrompt textToCount w
    = Some (r, after w calls (firstn (calls - 1) [1000; 2000])) /\
    (1 <= calls <= 3)%nat /\
    (forall k, (k < calls - 1)%nat ->
               exists e,
                 ai (oracleCalls w + k)%nat (requestText voicePrompt textToCount)
                 = rejects e /\
                 isServerError e = true) /\
    match ai (oracleCalls w + (calls - 1))%nat
             (requestText voicePrompt textToCount) with
    | totalTokens n => r = inr n
    | rejects e => r = inl e /\ (isServerError e = true -> calls = 3%nat)
    end.
Proof.
  unfold countTokensForText. change (Z.to_nat (MAX_RETRIES + 1)) with 3%nat.
  cbn [countTokensAttempts]. unfold bind, ret, sleep, countTokens.
  cbn -[isServerError requestText Nat.add app after firstn Nat.sub].
  set (req := requestText voicePrompt textToCount).
  destruct (ai (oracleCalls w) req) as [n0|e0] eqn:E0.
  { exists (inr n0), 1%nat. rewrite after_one. split; [reflexivity|].
    split; [lia|]. split; [intros k Hk; lia|].
    cbn [Nat.sub]. rewrite Nat.add_0_r, E0. reflexivity. }
  destruct (isServerError e0) eqn:S0; cbn [andb].
  2:{ exists (inl e0), 1%nat. rewrite after_one. split; [reflexivity|].
      split; [lia|]. split; [intros k Hk; lia|].
      cbn [Nat.sub]. rewrite Nat.add_0_r, E0. split; [reflexivity|congruence]. }
  change (0 <? MAX_RETRIES) with true. cbv iota.
  cbn -[isServerError requestText Nat.add app after firstn Nat.sub].
  assert (Hfirst : forall k, (k < 1)%nat ->
             exists e, ai (oracleCalls w + k)%nat req = rejects e /\
                       isServerError e = true).
  { intros k Hk. assert (k = 0)%nat as -> by lia. rewrite Nat.add_0_r. eauto. }
  destruct (ai (S (oracleCalls w)) req) as [n1|e1] eqn:E1.
  { exists (inr n1), 2%nat. rewrite after_two. split; [reflexivity|].
    split; [lia|]. split; [exact Hfirst|].
    cbn [Nat.sub]. rewrite Nat.add_1_r, E1. reflexivity. }
  destruct (isServerError e1) eqn:S1; cbn [andb].
  2:{ exists (inl e1), 2%nat. rewrite after_two. split; [reflexivity|].
      split; [lia|]. split; [exact Hfirst|].
      cbn [Nat.sub]. rewrite Nat.add_1_r, E1. split; [reflexivity|congruence]. }
  change (0 + 1 <? MAX_RETRIES) with true. cbv iota.
  cbn -[isServerError requestText Nat.add app after firstn Nat.sub].
  assert (Hsecond : forall k, (k < 2)%nat ->
             exists e, ai (oracleCalls w + k)%nat req = rejects e /\
                       isServerError e = true).
  { intros k Hk. destruct k as [|[|k]]; [| |lia].
    - rewrite Nat.add_0_r. eauto.
    - rewrite Nat.add_1_r. eauto. }
  assert (Hthird : (oracleCalls w + 2 = S (S (oracleCalls w)))%nat) by lia.
  destruct (ai (S (S (oracleCalls w))) req) as [n2|e2] eqn:E2.
  { exists (inr n2), 3%nat. rewrite after_three. split; [reflexivity|].
    split; [lia|]. split; [exact Hsecond|].
    cbn [Nat.sub]. rewrite Hthird, E2. reflexivity. }
  exists (inl e2), 3%nat.
  rewrite after_three. rewrite andb_false_r. split; [reflexivity|].
  split; [lia|]. split; [exact Hsecond|].
  cbn [Nat.sub]. rewrite Hthird, E2. split; reflexivity.
Qed.

(** ** Identifiers, and runs with a service that never fails *)

(** A property of the loop variables and the world that each round
    maintains holds when the loop ends. *)
Lemma forEachM_world_invariant {A S : Type} (body : S -> A -> M S)
      (P : S -> World -> Prop) :
  (forall x acc w acc' w',
      P acc w -> body acc x w = Some (acc', w') -> P acc' w') ->
  forall l acc w acc' w',
    P acc w -> forEachM body l acc w = Some (acc', w') -> P acc' w'.
Proof.
  intro Hbody. induction l as [|x l IH]; intros acc w acc' w' HP H;
    cbn [forEachM] in H.
  - injection H as <- <-. exact HP.
  - unfold bind in H. destruct (body acc x w) as [[acc1 w1]|] eqn:E;
      [|discriminate].
    eapply IH; [|exact H]. eapply Hbody; eassumption.
Qed.

(** With a service, a run returns; for a text that is not blank the
    chunks are those of the validation loop over the candidates. *)
Lemma createAudiobookChunks_with_service
      (transliterate : jsstring -> jsstring) (randomUUID : nat -> jsstring)
      (input : ChunkingInput) (ai : Oracle)
      (bookFileNameBaseArg voicePromptArg : option jsstring) (w : World) :
  exists chunks w',
    createAudiobookChunks transliterate randomUUID input (Some ai)
                          bookFileNameBaseArg voicePromptArg w
    = Some (returns chunks, w') /\
    ((chunks = [] /\ w' = w) \/
     exists voicePrompt title base candidates chunkIndex,
       forEachM (validateCandidate randomUUID ai voicePrompt title base)
                candidates ([], 0) w
       = Some ((chunks, chunkIndex), w')).
Proof.
  unfold createAudiobookChunks.
  destruct (readInput input _) as [[fullTextContent title]|] eqn:Einput.
  2:{ eexists _, _. split; [reflexivity|]. left. split; reflexivity. }
  destruct (nonEmpty (trim fullTextContent)) eqn:Ene; cbn [negb].
  2:{ eexists _, _. split; [reflexivity|]. left. split; reflexivity. }
  pose proof (candidates_nonempty fullTextContent
                                  IDEAL_CHARS_PER_CHUNK_TARGET Ene) as Hcand.
  set (candidates := aggregateParagraphsIntoChunks _ _) in *.
  destruct candidates as [|cand cands] eqn:Ecands; [congruence|].
  cbn [List.length Nat.eqb andb]. unfold bind.
  destruct (validation_loop randomUUID ai
              (match voicePromptArg with Some v => v | None => [] end)
              title (sanitizeFileNameBase transliterate title)
              (cand :: cands) w) as [[chunks idx] [w' [Hrun _]]].
  rewrite Hrun. eexists _, _. split; [reflexivity|]. right.
  eexists _, _, _, _, _. exact Hrun.
Qed.

Section WorldFacts.

Variable randomUUID : nat -> jsstring.
Variable ai : Oracle.
Variable voicePrompt : jsstring.
Variable mainTitleForChunks : jsstring.
Variable sanitizedFileNameBase : jsstring.

Local Abbreviation push :=
  (pushChunk randomUUID mainTitleForChunks sanitizedFileNameBase).
Local Abbreviation validateSub :=
  (validateSubSegment randomUUID ai voicePrompt mainTitleForChunks
                      sanitizedFileNameBase).
Local Abbreviation validate :=
  (validateCandidate randomUUID ai voicePrompt mainTitleForChunks
                     sanitizedFileNameBase).

Lemma countTokensAttempts_uuids (remaining : nat) :
  forall attempt lastError textToCount w r w',
    countTokensAttempts ai voicePrompt remaining attempt lastError textToCount w
    = Some (r, w') ->
    uuidsDrawn w' = uuidsDrawn w.
Proof.
  induction remaining as [|n IH]; intros attempt lastError textToCount w r w' H;
    cbn [countTokensAttempts] in H.
  - now injection H as _ <-.
  - unfold bind, countTokens, sleep, ret in H.
    destruct (0 <? attempt);
      match type of H with
      | context [ai ?k ?t] => destruct (ai k t) as [n'|e]
      end;
      try (now injection H as _ <-);
      (destruct (isServerError e && (attempt <? MAX_RETRIES));
       [apply IH in H; exact H | now injection H as _ <-]).
Qed.

(** The identifiers drawn so far are those of the chunks, in order. *)
Definition identifiersInOrder (first : nat) (st : list AudiobookChunk.t * Z)
           (w : World) : Prop :=
  uuidsDrawn w = (first + List.length (fst st))%nat /\
  forall i c, nth_error (fst st) i = Some c ->
              AudiobookChunk.id c = randomUUID (first + i)%nat.

Lemma push_identifiers (first : nat) (st : list AudiobookChunk.t * Z)
      (text suffix : jsstring) (status : ChunkStatus)
      (tokenCount : option Z) (errorDetails : option jsstring)
      (w0 w : World) st' w' :
  identifiersInOrder first st w0 ->
  uuidsDrawn w = uuidsDrawn w0 ->
  push st text suffix status tokenCount errorDetails w = Some (st', w') ->
  identifiersInOrder first st' w'.
Proof.
  intros [Hn Hid] Hw H. destruct st as [chunks chunkIndex].
  rewrite push_spec in H. injection H as <- <-.
  unfold identifiersInOrder. cbn [fst] in *.
  split.
  - cbn [uuidsDrawn]. rewrite length_app. cbn [List.length]. lia.
  - intros i c Hi.
    destruct (Nat.lt_ge_cases i (List.length chunks)) as [Hlt|Hge].
    + rewrite nth_error_app1 in Hi by exact Hlt. now apply Hid.
    + rewrite nth_error_app2 in Hi by exact Hge.
      destruct (i - List.length chunks)%nat as [|k] eqn:Ek;
        [|destruct k; discriminate].
      injection Hi as <-. cbn [AudiobookChunk.id]. f_equal. lia.
Qed.

Lemma validateSubSegment_identifiers (first : nat) x st w st' w' :
  identifiersInOrder first st w ->
  validateSub st x w = Some (st', w') ->
  identifiersInOrder first st' w'.
Proof.
  intros HP H. unfold validateSubSegment in H.
  destruct (negb (nonEmpty (trim x))); [now injection H as <- <-|].
  unfold bind in H.
  destruct (countTokensForText ai voicePrompt x w) as [[r w1]|] eqn:Ec;
    [|discriminate].
  apply countTokensAttempts_uuids in Ec.
  destruct r as [e|n]; [|destruct (n <=? MAX_TTS_TOKENS)];
    eapply push_identifiers; eassumption.
Qed.

Lemma validateCandidate_identifiers (first : nat) x st w st' w' :
  identifiersInOrder first st w ->
  validate st x w = Some (st', w') ->
  identifiersInOrder first st' w'.
Proof.
  intros HP H. unfold validateCandidate in H. unfold bind in H.
  destruct (countTokensForText ai voicePrompt x w) as [[r w1]|] eqn:Ec;
    [|discriminate].
  apply countTokensAttempts_uuids in Ec.
  destruct r as [e|n]; [|destruct (n <=? IDEAL_CHUNK_TOKEN_UPPER_BOUND)];
    try (eapply push_identifiers; eassumption).
  unfold liftOption in H.
  destruct (forceSplitTextRecursive_SYNC _ _ _) as [frags|]; [|discriminate].
  eapply (forEachM_world_invariant validateSub (identifiersInOrder first));
    [| |exact H].
  - intros; eapply validateSubSegment_identifiers; eassumption.
  - destruct HP as [Hn Hid]. split; [lia | exact Hid].
Qed.

End WorldFacts.

(** X12. A run draws one identifier from [crypto.randomUUID] for each
    chunk it returns and no other, and the chunks carry them in the order
    drawn: chunk [i] holds the [i]-th identifier drawn by the run. So the
    identifiers of the chunks are pairwise distinct when the generator
    never repeats itself, which is what the application relies on when it
    updates a chunk found by its [id]. *)
Theorem identifiers_in_drawing_order
        (transliterate : jsstring -> jsstring) (randomUUID : nat -> jsstring)
        (input : ChunkingInput) (ai : option Oracle)
        (bookFileNameBaseArg voicePromptArg : option jsstring)
        (w w' : World) (chunks : list AudiobookChunk.t) :
  createAudiobookChunks transliterate randomUUID input ai
                        bookFileNameBaseArg voicePromptArg w
  = Some (returns chunks, w') ->
  uuidsDrawn w' = (uuidsDrawn w + List.length chunks)%nat /\
  (forall i c, nth_error chunks i = Some c ->
               AudiobookChunk.id c = randomUUID (uuidsDrawn w + i)%nat) /\
  ((forall m n, randomUUID m = randomUUID n -> m = n) ->
   NoDup (map AudiobookChunk.id chunks)).
Proof.
  intro Hrun.
  assert (H : identifiersInOrder randomUUID (uuidsDrawn w) (chunks, 0) w').
  { destruct ai as [ai|]; [|discriminate].
    destruct (createAudiobookChunks_with_service
                transliterate randomUUID input ai bookFileNameBaseArg
                voicePromptArg w)
      as [chunks0 [w0 [Hrun0 Hcases]]].
    rewrite Hrun in Hrun0. injection Hrun0 as <- <-.
    destruct Hcases as [[-> ->]|[vp [title [base [cands [idx Hloop]]]]]].
    - split; [cbn; lia|]. intros [|i] c Hi; discriminate.
    - pose proof (forEachM_world_invariant
                    (validateCandidate randomUUID ai vp title base)
                    (identifiersInOrder randomUUID (uuidsDrawn w))) as Hinv.
      assert (Hend : identifiersInOrder randomUUID (uuidsDrawn w)
                                        (chunks, idx) w').
      { eapply Hinv; [| |exact Hloop].
        - intros; eapply validateCandidate_identifiers; eassumption.
        - split; [cbn; lia|]. intros [|i] c Hi; discriminate. }
      exact Hend. }
  destruct H as [Hn Hid]. cbn [fst] in *. split; [exact Hn|].
  split; [exact Hid|]. intro Hinj.
  apply (NoDup_nth_error (map AudiobookChunk.id chunks)).
  intros i j Hi Hij. rewrite length_map in Hi.
  rewrite !nth_error_map in Hij.
  destruct (nth_error chunks i) as [ci|] eqn:Ei;
    [|apply nth_error_None in Ei; lia].
  destruct (nth_error chunks j) as [cj|] eqn:Ej; [|discriminate].
  cbn [option_map] in Hij. injection Hij as Hij.
  rewrite (Hid _ _ Ei), (Hid _ _ Ej) in Hij. apply Hinj in Hij. lia.
Qed.

Lemma identifiers_in_drawing_order_witness :
  uuidsDrawn {| oracleCalls := 2; timeouts := []; uuidsDrawn := 1 |}
  = (uuidsDrawn initialWorld + List.length [flaggedHello])%nat /\
  (forall i c, nth_error [flaggedHello] i = Some c ->
               AudiobookChunk.id c = noUUID (uuidsDrawn initialWorld + i)%nat) /\
  ((forall m n, noUUID m = noUUID n -> m = n) ->
   NoDup (map AudiobookChunk.id [flaggedHello])).
Proof.
  apply (identifiers_in_drawing_order
           sameTitle noUUID (strings [lit "hello"]) (Some alwaysHuge) None None
           initialWorld
           {| oracleCalls := 2; timeouts := []; uuidsDrawn := 1 |}
           [flaggedHello]).
  vm_compute. reflexivity.
Defined.

Section ReliableService.

Variable randomUUID : nat -> jsstring.
Variable ai : Oracle.
Variable voicePrompt : jsstring.
Variable mainTitleForChunks : jsstring.
Variable sanitizedFileNameBase : jsstring.

(** The service answers every request with a count. *)
Hypothesis reliable : forall k t, exists n, ai k t = totalTokens n.

Local Abbreviation push :=
  (pushChunk randomUUID mainTitleForChunks sanitizedFileNameBase).
Local Abbreviation validateSub :=
  (validateSubSegment randomUUID ai voicePrompt mainTitleForChunks
                      sanitizedFileNameBase).
Local Abbreviation validate :=
  (validateCandidate randomUUID ai voicePrompt mainTitleForChunks
                     sanitizedFileNameBase).

Lemma count_reliable (textToCount : jsstring) (w : World) r w' :
  countTokensForText ai voicePrompt textToCount w = Some (r, w') ->
  (exists n, r = inr n) /\ timeouts w' = timeouts w.
Proof.
  unfold countTokensForText. change (Z.to_nat (MAX_RETRIES + 1)) with 3%nat.
  cbn [countTokensAttempts]. unfold bind, ret, sleep, countTokens.
  cbn -[isServerError requestText].
  destruct (reliable (oracleCalls w) (requestText voicePrompt textToCount))
    as [n ->].
  intro H. injection H as <- <-. split; [eauto | reflexivity].
Qed.

(** No delay was waited for and every chunk is pending. *)
Definition quietAndPending (waited : list Z) (st : list AudiobookChunk.t * Z)
           (w : World) : Prop :=
  timeouts w = waited /\
  Forall (fun c => AudiobookChunk.status c = pending) (fst st).

Lemma push_pending (waited : list Z) (st : list AudiobookChunk.t * Z)
      (text suffix : jsstring) (tokenCount : option Z)
      (errorDetails : option jsstring) (w0 w : World) st' w' :
  quietAndPending waited st w0 ->
  timeouts w = timeouts w0 ->
  push st text suffix pending tokenCount errorDetails w = Some (st', w') ->
  quietAndPending waited st' w'.
Proof.
  intros [Ht Hall] Hw H. destruct st as [chunks chunkIndex].
  rewrite push_spec in H. injection H as <- <-.
  unfold quietAndPending. cbn [fst timeouts] in *. split; [congruence|].
  apply Forall_app. split; [exact Hall|]. now repeat constructor.
Qed.

Lemma validateSubSegment_quiet (waited : list Z) x st w st' w' :
  quietAndPending waited st w ->
  validateSub st x w = Some (st', w') ->
  quietAndPending waited st' w'.
Proof.
  intros HP H. unfold validateSubSegment in H.
  destruct (negb (nonEmpty (trim x))); [now injection H as <- <-|].
  unfold bind in H.
  destruct (countTokensForText ai voicePrompt x w) as [[r w1]|] eqn:Ec;
    [|discriminate].
  apply count_reliable in Ec. destruct Ec as [[n ->] Hw].
  destruct (n <=? MAX_TTS_TOKENS); eapply push_pending; eassumption.
Qed.

Lemma validateCandidate_quiet (waited : list Z) x st w st' w' :
  quietAndPending waited st w ->
  validate st x w = Some (st', w') ->
  quietAndPending waited st' w'.
Proof.
  intros HP H. unfold validateCandidate in H. unfold bind in H.
  destruct (countTokensForText ai voicePrompt x w) as [[r w1]|] eqn:Ec;
    [|discriminate].
  apply count_reliable in Ec. destruct Ec as [[n ->] Hw].
  destruct (n <=? IDEAL_CHUNK_TOKEN_UPPER_BOUND);
    [eapply push_pending; eassumption|].
  unfold liftOption in H.
  destruct (forceSplitTextRecursive_SYNC _ _ _) as [frags|]; [|discriminate].
  eapply (forEachM_world_invariant validateSub (quietAndPending waited));
    [| |exact H].
  - intros; eapply validateSubSegment_quiet; eassumption.
  - destruct HP as [Ht Hall]. split; [congruence | exact Hall].
Qed.

End ReliableService.

(** X13. With a service that answers every request with a count, a run
    waits for no delay and returns chunks that are all pending, none in
    error status, and their texts taken in order are the input text up to
    white space: nothing is lost and nothing is repeated. *)
Theorem reliable_service_run
        (transliterate : jsstring -> jsstring) (randomUUID : nat -> jsstring)
        (input : ChunkingInput) (ai : Oracle)
        (bookFileNameBaseArg voicePromptArg : option jsstring) (w : World) :
  (forall k t, exists n, ai k t = totalTokens n) ->
  exists chunks w',
    createAudiobookChunks transliterate randomUUID input (Some ai)
                          bookFileNameBaseArg voicePromptArg w
    = Some (returns chunks, w') /\
    Forall (fun c => AudiobookChunk.status c = pending) chunks /\
    coveredText chunks = stripWhiteSpace (inputText input) /\
    timeouts w' = timeouts w.
Proof.
  intro Hrel.
  destruct (createAudiobookChunks_with_service
              transliterate randomUUID input ai bookFileNameBaseArg
              voicePromptArg w)
    as [chunks [w' [Hrun Hcases]]].
  exists chunks, w'. split; [exact Hrun|].
  assert (H : quietAndPending (timeouts w) (chunks, 0) w').
  { destruct Hcases as [[-> ->]|[vp [title [base [cands [idx Hloop]]]]]].
    - split; [reflexivity | constructor].
    - pose proof (forEachM_world_invariant
                    (validateCandidate randomUUID ai vp title base)
                    (quietAndPending (timeouts w))) as Hinv.
      assert (Hend : quietAndPending (timeouts w) (chunks, idx) w').
      { eapply Hinv; [| |exact Hloop].
        - intros; eapply validateCandidate_quiet; eassumption.
        - split; [reflexivity | constructor]. }
      exact Hend. }
  destruct H as [Ht Hall]. cbn [fst] in Hall.
  split; [exact Hall|]. split; [|exact Ht].
  destruct (createAudiobookChunks_invariant transliterate randomUUID input
              (Some ai) bookFileNameBaseArg voicePromptArg w)
    as [completion [w0 [Hrun0 Hinv]]].
  rewrite Hrun in Hrun0. injection Hrun0 as <- <-.
  destruct (Hinv chunks eq_refl) as [_ [_ [[c [Hin Herr]]|Hcov]]];
    [|exact Hcov].
  exfalso. cbn [fst] in Hin. rewrite Forall_forall in Hall.
  unfold inErrorStatus in Herr. rewrite (Hall c Hin) in Herr. discriminate.
Qed.

Lemma reliable_service_run_witness :
  exists chunks w',
    createAudiobookChunks sameTitle noUUID (strings [lit "hello"])
                          (Some alwaysHuge) None None initialWorld
    = Some (returns chunks, w') /\
    Forall (fun c => AudiobookChunk.status c = pending) chunks /\
    coveredText chunks = stripWhiteSpace (inputText (strings [lit "hello"])) /\
    timeouts w' = timeouts initialWorld.
Proof.
  apply (reliable_service_run sameTitle noUUID (strings [lit "hello"])
                              alwaysHuge None None initialWorld).
  intros k t. exists 9000. reflexivity.
Defined.

(** ** The base of the file names *)

Lemma Forall_firstn_keep {A : Type} (P : A -> Prop) (n : nat) (l : list A) :
  Forall P l -> Forall P (firstn n l).
Proof.
  intro H. revert n. induction H as [|x l Hx Hl IH]; intros [|n];
    cbn [firstn]; constructor; auto.
Qed.

Lemma Forall_skipn_keep {A : Type} (P : A -> Prop) (n : nat) (l : list A) :
  Forall P l -> Forall P (skipn n l).
Proof.
  intro H. revert n. induction H as [|x l Hx Hl IH]; intros [|n];
    cbn [skipn]; auto.
Qed.

(** X14. Whatever the title and whatever [transliterate] returns for it,
    the base of the file names is not empty, is at most 50 characters
    long and holds only letters of the Latin alphabet, digits, the
    underscore and the hyphen. *)
Theorem sanitized_base_is_safe (transliterate : jsstring -> jsstring)
        (mainTitleForChunks : jsstring) :
  sanitizeFileNameBase transliterate mainTitleForChunks <> [] /\
  len (sanitizeFileNameBase transliterate mainTitleForChunks) <= 50 /\
  Forall (fun c => isFileNameChar c = true)
         (sanitizeFileNameBase transliterate mainTitleForChunks).
Proof.
  unfold sanitizeFileNameBase, orElse.
  set (s := replaceOtherChars (transliterate mainTitleForChunks)).
  destruct (nonEmpty (substring s 0 50)) eqn:E.
  - split; [intro H; rewrite H in E; discriminate|]. split.
    + unfold substring, len. rewrite length_firstn.
      unfold clamp. pose proof (len_nonneg s). lia.
    + unfold substring. apply Forall_firstn_keep, Forall_skipn_keep.
      subst s. unfold replaceOtherChars. apply Forall_forall.
      intros c Hc. apply in_map_iff in Hc. destruct Hc as [x [<- _]].
      destruct (isFileNameChar x) eqn:Ex; [exact Ex | reflexivity].
  - split; [discriminate|]. split; [vm_compute; discriminate|].
    repeat constructor.
Qed.

(* ================================================================== *)
(** * Further properties of [createWavBlobFromPcm]                      *)
(* ================================================================== *)

Module WavLayout.

Import Wav.
Import WavFacts.

(** ** Trimming *)

(** The sample read at a byte offset is louder than the threshold. *)
Definition loudAt (pcm : bytes) (offset : Z) : Prop :=
  SILENCE_THRESHOLD < Z.abs (getInt16 pcm offset).

(** What the backward scan returns: [-2] when all the samples it read
    are silent, and otherwise the offset of a loud sample after which
    all are silent. *)
Lemma scanBack_spec (pcm : bytes) :
  forall rounds offset,
    (scanBack pcm offset rounds = -2 /\
     forall j, (j < rounds)%nat -> ~ loudAt pcm (offset - 2 * Z.of_nat j)) \/
    (exists k, (k < rounds)%nat /\
               scanBack pcm offset rounds = offset - 2 * Z.of_nat k /\
               loudAt pcm (offset - 2 * Z.of_nat k) /\
               forall j, (j < k)%nat -> ~ loudAt pcm (offset - 2 * Z.of_nat j)).
Proof.
  unfold loudAt.
  induction rounds as [|rounds IH]; intro offset; cbn [scanBack].
  - left. split; [reflexivity|]. intros j Hj. lia.
  - destruct (Z.ltb_spec SILENCE_THRESHOLD (Z.abs (getInt16 pcm offset)))
      as [Hloud|Hquiet].
    + right. exists O. split; [lia|].
      replace (offset - 2 * Z.of_nat 0) with offset by lia.
      split; [reflexivity|]. split; [exact Hloud|]. intros j Hj. lia.
    + unfold BYTES_PER_SAMPLE.
      destruct (IH (offset - 2)) as [[E Hall]|[k [Hk [E [Hloud Hall]]]]].
      * left. split; [exact E|]. intros [|j] Hj.
        -- replace (offset - 2 * Z.of_nat 0) with offset by lia. lia.
        -- replace (offset - 2 * Z.of_nat (S j))
             with (offset - 2 - 2 * Z.of_nat j) by lia.
           apply Hall. lia.
      * right. exists (S k). split; [lia|].
        replace (offset - 2 * Z.of_nat (S k))
          with (offset - 2 - 2 * Z.of_nat k) by lia.
        split; [exact E|]. split; [exact Hloud|]. intros [|j] Hj.
        -- replace (offset - 2 * Z.of_nat 0) with offset by lia. lia.
        -- replace (offset - 2 * Z.of_nat (S j))
             with (offset - 2 - 2 * Z.of_nat j) by lia.
           apply Hall. lia.
Qed.

(** For a whole number of samples: no sample after the offset found is
    loud. *)
Lemma lastNonSilentOffset_spec (pcm : bytes) :
  len pcm mod 2 = 0 ->
  -2 <= lastNonSilentOffset pcm <= len pcm - 2 /\
  forall i, 0 <= i -> 2 * i + 1 < len pcm -> loudAt pcm (2 * i) ->
            2 * i <= lastNonSilentOffset pcm.
Proof.
  intro Heven. unfold lastNonSilentOffset, BYTES_PER_SAMPLE.
  pose proof (len_nonneg pcm) as Hlen.
  assert (Hm : len pcm = 2 * (len pcm / 2))
    by (pose proof (Z.div_mod (len pcm) 2 ltac:(lia)); lia).
  set (m := len pcm / 2) in *.
  assert (Hm0 : 0 <= m) by lia.
  destruct (scanBack_spec pcm (Z.to_nat m) (len pcm - 2))
    as [[E Hall]|[k [Hk [E [Hloud Hall]]]]]; rewrite E.
  - split; [lia|]. intros i Hi0 Hi Hl. exfalso.
    apply (Hall (Z.to_nat (m - 1 - i))); [lia|].
    replace (len pcm - 2 - 2 * Z.of_nat (Z.to_nat (m - 1 - i))) with (2 * i)
      by lia.
    exact Hl.
  - split; [lia|]. intros i Hi0 Hi Hl.
    destruct (Z.le_gt_cases (2 * i) (len pcm - 2 - 2 * Z.of_nat k))
      as [Hle|Hgt]; [exact Hle|].
    exfalso. apply (Hall (Z.to_nat (m - 1 - i))); [lia|].
    replace (len pcm - 2 - 2 * Z.of_nat (Z.to_nat (m - 1 - i))) with (2 * i)
      by lia.
    exact Hl.
Qed.

Lemma subarray0_firstn (b : bytes) (e : Z) :
  0 <= e -> subarray0 b e = firstn (Z.to_nat (Z.min e (len b))) b.
Proof.
  intro He. unfold subarray0. destruct (Z.ltb_spec e 0); [lia | reflexivity].
Qed.

Lemma lastNonSilentOffset_range (pcm : bytes) :
  lastNonSilentOffset pcm = -2 \/ 0 <= lastNonSilentOffset pcm <= len pcm - 2.
Proof.
  unfold lastNonSilentOffset, BYTES_PER_SAMPLE.
  pose proof (len_nonneg pcm) as Hlen.
  pose proof (Z.div_mod (len pcm) 2 ltac:(lia)) as Hdiv.
  pose proof (Z.mod_pos_bound (len pcm) 2 ltac:(lia)) as Hmod.
  destruct (scanBack_spec pcm (Z.to_nat (len pcm / 2)) (len pcm - 2))
    as [[E _]|[k [Hk [E _]]]]; rewrite E; [now left | right; lia].
Qed.

(** Either nothing is cut, or the buffer ends [paddingSamples] samples
    after the index of the last loud sample. *)
Lemma trimTrailingSilence_cases (pcm : bytes) (sampleRate bitDepth : Z) :
  0 <= sampleRate ->
  trimTrailingSilence pcm sampleRate bitDepth = pcm \/
  (bitDepth = 16 /\
   0 <= lastNonSilentOffset pcm /\
   4 * sampleRate < len pcm - lastNonSilentOffset pcm /\
   trimTrailingSilence pcm sampleRate bitDepth
   = firstn (Z.to_nat (Z.min (len pcm)
                             (lastNonSilentOffset pcm
                              + 2 * (500 * sampleRate / 1000)))) pcm).
Proof.
  intro Hsr. pose proof (len_nonneg pcm) as Hlen.
  unfold trimTrailingSilence.
  destruct (Z.eqb_spec bitDepth 16) as [Hbd|Hbd]; cbn [andb]; [|now left].
  destruct (Z.ltb_spec 0 (len pcm)); cbn [andb]; [|now left].
  unfold BYTES_PER_SAMPLE, MIN_SILENCE_DURATION_MS, PADDING_DURATION_MS.
  change (2000 / 1000) with 2.
  pose proof (lastNonSilentOffset_range pcm) as Hrange.
  set (o := lastNonSilentOffset pcm) in *.
  destruct (Z.ltb_spec (-1 * 2) o) as [Ho|Ho]; cbn [andb]; [|now left].
  destruct (Z.ltb_spec (2 * (2 * sampleRate)) (len pcm - o)) as [Hs|Hs];
    [|now left].
  assert (Hpad : 0 <= 500 * sampleRate / 1000) by (apply Z.div_pos; lia).
  right. split; [exact Hbd|]. split; [lia|]. split; [lia|].
  rewrite subarray0_firstn by lia. f_equal. lia.
Qed.

Lemma firstn_whole (pcm : bytes) : pcm = firstn (Z.to_nat (len pcm)) pcm.
Proof. unfold len. rewrite Nat2Z.id. now rewrite firstn_all. Qed.

(** X15. Trimming cuts silence only. For a buffer that holds a whole
    number of 16-bit samples and a sample rate of at least 2, what
    [createWavBlobFromPcm] keeps of the decoded bytes is a prefix of them
    that holds every sample louder than the threshold: all that is cut
    lies after the last loud sample. *)
Theorem trimming_cuts_only_silence (pcm : bytes) (sampleRate bitDepth : Z) :
  2 <= sampleRate ->
  len pcm mod 2 = 0 ->
  exists n,
    0 <= n <= len pcm /\
    trimTrailingSilence pcm sampleRate bitDepth = firstn (Z.to_nat n) pcm /\
    forall i, 0 <= i -> 2 * i + 1 < len pcm ->
              SILENCE_THRESHOLD < Z.abs (getInt16 pcm (2 * i)) ->
              2 * i + 2 <= n.
Proof.
  intros Hsr Heven. pose proof (len_nonneg pcm) as Hlen.
  destruct (trimTrailingSilence_cases pcm sampleRate bitDepth ltac:(lia))
    as [E|[_ [Ho [_ E]]]].
  - exists (len pcm). split; [lia|]. split; [|intros; lia].
    rewrite E. apply firstn_whole.
  - destruct (lastNonSilentOffset_spec pcm Heven) as [Hrange Hlast].
    assert (Hpad : 1 <= 500 * sampleRate / 1000)
      by (apply Z.div_le_lower_bound; lia).
    eexists. split; [|split; [exact E|]]; [lia|].
    intros i Hi0 Hi Hloud. specialize (Hlast i Hi0 Hi Hloud). lia.
Qed.

Lemma trimming_cuts_only_silence_witness :
  exists n,
    0 <= n <= len (encodeInt16 [1000; 0; 0; 0; 0; 0; 0]) /\
    trimTrailingSilence (encodeInt16 [1000; 0; 0; 0; 0; 0; 0]) 2 16
    = firstn (Z.to_nat n) (encodeInt16 [1000; 0; 0; 0; 0; 0; 0]) /\
    forall i, 0 <= i ->
              2 * i + 1 < len (encodeInt16 [1000; 0; 0; 0; 0; 0; 0]) ->
              SILENCE_THRESHOLD
              < Z.abs (getInt16 (encodeInt16 [1000; 0; 0; 0; 0; 0; 0]) (2 * i)) ->
              2 * i + 2 <= n.
Proof.
  apply (trimming_cuts_only_silence (encodeInt16 [1000; 0; 0; 0; 0; 0; 0]) 2 16).
  - lia.
  - reflexivity.
Defined.

(** X16. Nothing is cut unless the end is silent for two seconds: when
    the trimmed buffer differs from the decoded bytes (a whole number of
    samples), the bit depth is 16 and none of the last [2 * sampleRate]
    samples is louder than the threshold. *)
Theorem cut_needs_two_silent_seconds (pcm : bytes) (sampleRate bitDepth : Z) :
  0 <= sampleRate ->
  len pcm mod 2 = 0 ->
  trimTrailingSilence pcm sampleRate bitDepth <> pcm ->
  bitDepth = 16 /\
  forall i, 0 <= i -> 2 * i + 1 < len pcm ->
            len pcm / 2 - i <= 2 * sampleRate ->
            Z.abs (getInt16 pcm (2 * i)) <= SILENCE_THRESHOLD.
Proof.
  intros Hsr Heven Hcut.
  destruct (trimTrailingSilence_cases pcm sampleRate bitDepth Hsr)
    as [E|[Hbd [Ho [Hs E]]]]; [congruence|].
  split; [exact Hbd|]. intros i Hi0 Hi Hlast.
  destruct (lastNonSilentOffset_spec pcm Heven) as [_ Hspec].
  destruct (Z.le_gt_cases (Z.abs (getInt16 pcm (2 * i))) SILENCE_THRESHOLD)
    as [Hq|Hl]; [exact Hq|].
  exfalso. specialize (Hspec i Hi0 Hi Hl).
  pose proof (Z.div_mod (len pcm) 2 ltac:(lia)). lia.
Qed.

Lemma cut_needs_two_silent_seconds_witness :
  16 = 16 /\
  forall i, 0 <= i ->
            2 * i + 1 < len (encodeInt16 [1000; 0; 0; 0; 0; 0; 0]) ->
            len (encodeInt16 [1000; 0; 0; 0; 0; 0; 0]) / 2 - i <= 2 * 2 ->
            Z.abs (getInt16 (encodeInt16 [1000; 0; 0; 0; 0; 0; 0]) (2 * i))
            <= SILENCE_THRESHOLD.
Proof.
  apply (cut_needs_two_silent_seconds
           (encodeInt16 [1000; 0; 0; 0; 0; 0; 0]) 2 16).
  - lia.
  - reflexivity.
  - vm_compute. discriminate.
Defined.

(** ** The layout of the file *)

(** The 44 bytes written before the samples. *)
Definition writeHeader (view : bytes) (dataSize sampleRate channels bitDepth : Z)
  : bytes :=
  let view := writeString view 0 (lit "RIFF") in
  let view := setUint32 view 4 (headerSize + dataSize - 8) in
  let view := writeString view 8 (lit "WAVE") in
  let view := writeString view 12 (lit "fmt ") in
  let view := setUint32 view 16 16 in
  let view := setUint16 view 20 1 in
  let view := setUint16 view 22 channels in
  let view := setUint32 view 24 sampleRate in
  let view := setUint32 view 28 (sampleRate * (channels * (bitDepth / 8))) in
  let view := setUint16 view 32 (channels * (bitDepth / 8)) in
  let view := setUint16 view 34 bitDepth in
  let view := writeString view 36 (lit "data") in
  setUint32 view 40 dataSize.

(** The size of the data section: the trimmed bytes, cut down to whole
    sample frames. *)
Definition alignedSize (pcm : bytes) (channels bitDepth : Z) : Z :=
  len pcm / (channels * (bitDepth / 8)) * (channels * (bitDepth / 8)).

Section Layout.

Variable atob : jsstring -> option (list Z).

Lemma createWavBlobFromPcm_blank (base64PcmData : jsstring)
      (sampleRate channels bitDepth : Z) :
  nonEmpty (trim base64PcmData) = false ->
  createWavBlobFromPcm atob base64PcmData sampleRate channels bitDepth = [].
Proof.
  intro H. unfold createWavBlobFromPcm. rewrite H. cbn [negb].
  now rewrite orb_true_r.
Qed.

Lemma createWavBlobFromPcm_layout (base64PcmData : jsstring)
      (byteCharacters : list Z) (sampleRate channels bitDepth : Z) :
  nonEmpty (trim base64PcmData) = true ->
  atob base64PcmData = Some byteCharacters ->
  0 < channels * (bitDepth / 8) ->
  let pcm := trimTrailingSilence (map (fun c => c mod 256) byteCharacters)
                                 sampleRate bitDepth in
  let dataSize := alignedSize pcm channels bitDepth in
  createWavBlobFromPcm atob base64PcmData sampleRate channels bitDepth
  = writePcm (writeHeader (repeat 0 (Z.to_nat (headerSize + dataSize)))
                          dataSize sampleRate channels bitDepth)
             headerSize (firstn (Z.to_nat dataSize) pcm).
Proof.
  intros Hne Hatob Hba pcm dataSize.
  assert (Hne' : nonEmpty base64PcmData = true).
  { destruct base64PcmData; [discriminate Hne | reflexivity]. }
  unfold createWavBlobFromPcm. rewrite Hne, Hne', Hatob. cbn [negb orb].
  fold pcm. unfold dataSize, alignedSize.
  set (blockAlign := channels * (bitDepth / 8)) in *.
  pose proof (len_nonneg pcm) as Hlen.
  pose proof (Z.div_mod (len pcm) blockAlign ltac:(lia)) as Hdiv.
  pose proof (Z.mod_pos_bound (len pcm) blockAlign Hba) as Hmod.
  assert (Hq : 0 <= len pcm / blockAlign) by (apply Z.div_pos; lia).
  destruct (Z.eqb_spec (len pcm mod blockAlign) 0) as [E|E]; cbn [negb].
  - assert (Hsame : len pcm / blockAlign * blockAlign = len pcm) by lia.
    rewrite Hsame. reflexivity.
  - unfold writeHeader.
    rewrite subarray0_firstn by nia.
    rewrite firstn_firstn.
    replace (Init.Nat.min (Z.to_nat (len pcm / blockAlign * blockAlign))
               (Z.to_nat (Z.min (len pcm / blockAlign * blockAlign) (len pcm))))
      with (Z.to_nat (len pcm / blockAlign * blockAlign)) by lia.
    reflexivity.
Qed.

End Layout.

(** ** Size of the file *)

Lemma len_writeHeader (view : bytes) (dataSize sampleRate channels bitDepth : Z) :
  len (writeHeader view dataSize sampleRate channels bitDepth) = len view.
Proof.
  unfold writeHeader.
  now rewrite len_setUint32, len_writeString, !len_setUint16, !len_setUint32,
    !len_setUint16, len_setUint32, !len_writeString, len_setUint32,
    len_writeString.
Qed.

Lemma trimTrailingSilence_length (pcm : bytes) (sampleRate bitDepth : Z) :
  len (trimTrailingSilence pcm sampleRate bitDepth) <= len pcm.
Proof.
  unfold trimTrailingSilence.
  destruct (_ && _); [|lia]. destruct (_ && _); [|lia].
  unfold subarray0, len. rewrite length_firstn. lia.
Qed.

Lemma alignedSize_bounds (pcm : bytes) (channels bitDepth : Z) :
  0 < channels * (bitDepth / 8) ->
  0 <= alignedSize pcm channels bitDepth <= len pcm /\
  alignedSize pcm channels bitDepth mod (channels * (bitDepth / 8)) = 0 /\
  len pcm - alignedSize pcm channels bitDepth < channels * (bitDepth / 8).
Proof.
  intro Hba. unfold alignedSize.
  set (blockAlign := channels * (bitDepth / 8)) in *.
  pose proof (len_nonneg pcm) as Hlen.
  pose proof (Z.div_mod (len pcm) blockAlign ltac:(lia)) as Hdiv.
  pose proof (Z.mod_pos_bound (len pcm) blockAlign Hba) as Hmod.
  assert (Hq : 0 <= len pcm / blockAlign) by (apply Z.div_pos; lia).
  split; [nia|]. split; [apply Z.mod_mul; lia | nia].
Qed.

Lemma positive_blockAlign (channels bitDepth : Z) :
  0 < channels -> 0 < bitDepth -> bitDepth mod 8 = 0 ->
  0 < channels * (bitDepth / 8).
Proof.
  intros Hc Hb Hm. pose proof (Z.div_mod bitDepth 8 ltac:(lia)). nia.
Qed.

Section Size.

Variable atob : jsstring -> option (list Z).

Lemma len_createWavBlobFromPcm (base64PcmData : jsstring)
      (byteCharacters : list Z) (sampleRate channels bitDepth : Z) :
  nonEmpty (trim base64PcmData) = true ->
  atob base64PcmData = Some byteCharacters ->
  0 < channels * (bitDepth / 8) ->
  len (createWavBlobFromPcm atob base64PcmData sampleRate channels bitDepth)
  = headerSize
    + alignedSize (trimTrailingSilence (map (fun c => c mod 256) byteCharacters)
                                       sampleRate bitDepth)
                  channels bitDepth.
Proof.
  intros Hne Hatob Hba.
  rewrite (createWavBlobFromPcm_layout atob _ _ _ _ _ Hne Hatob Hba).
  rewrite len_writePcm, len_writeHeader. unfold len at 1.
  rewrite repeat_length.
  pose proof (alignedSize_bounds
                (trimTrailingSilence (map (fun c => c mod 256) byteCharacters)
                                     sampleRate bitDepth)
                channels bitDepth Hba).
  unfold headerSize. lia.
Qed.

(** X17. The size of the file. For at least one channel and a bit depth
    that is a positive multiple of 8: the blob is empty when the base64
    string is empty or blank or when [atob] throws; otherwise it holds the
    44 bytes of the header and then a whole number of sample frames, no
    more bytes than were decoded, and fewer than one frame of the trimmed
    bytes is left out. *)
Theorem blob_size (base64PcmData : jsstring) (sampleRate channels bitDepth : Z) :
  0 < channels -> 0 < bitDepth -> bitDepth mod 8 = 0 ->
  match (if nonEmpty (trim base64PcmData) then atob base64PcmData else None) with
  | None =>
    createWavBlobFromPcm atob base64PcmData sampleRate channels bitDepth = []
  | Some byteCharacters =>
    let size :=
      len (createWavBlobFromPcm atob base64PcmData sampleRate channels
                                bitDepth) in
    let trimmed :=
      len (trimTrailingSilence (map (fun c => c mod 256) byteCharacters)
                               sampleRate bitDepth) in
    44 <= size <= 44 + len byteCharacters /\
    (size - 44) mod (channels * (bitDepth / 8)) = 0 /\
    size - 44 <= trimmed < size - 44 + channels * (bitDepth / 8)
  end.
Proof.
  intros Hc Hb Hm.
  pose proof (positive_blockAlign channels bitDepth Hc Hb Hm) as Hba.
  destruct (nonEmpty (trim base64PcmData)) eqn:Hne.
  2:{ now apply createWavBlobFromPcm_blank. }
  destruct (atob base64PcmData) as [byteCharacters|] eqn:Hatob.
  2:{ unfold createWavBlobFromPcm. rewrite Hatob.
      now destruct (_ || _). }
  cbv zeta.
  rewrite (len_createWavBlobFromPcm _ _ _ _ _ Hne Hatob Hba).
  set (pcm := trimTrailingSilence _ _ _).
  pose proof (alignedSize_bounds pcm channels bitDepth Hba) as [H1 [H2 H3]].
  pose proof (trimTrailingSilence_length
                (map (fun c => c mod 256) byteCharacters) sampleRate bitDepth)
    as Htrim.
  fold pcm in Htrim. unfold len at 2 in Htrim. rewrite length_map in Htrim.
  fold (len byteCharacters) in Htrim.
  unfold headerSize.
  replace (44 + alignedSize pcm channels bitDepth - 44)
    with (alignedSize pcm channels bitDepth) by lia.
  repeat split; first [lia | exact H2].
Qed.

End Size.

Definition threeSamples : bytes := encodeInt16 [1000; 2000; 3000].

(** A decoder that knows one string. *)
Definition decodeThree (base64 : jsstring) : option (list Z) :=
  Some threeSamples.

Lemma blob_size_witness :
  44 <= len (createWavBlobFromPcm decodeThree (lit "6AfQB7gL") 24000 1 16)
  <= 44 + len threeSamples /\
  (len (createWavBlobFromPcm decodeThree (lit "6AfQB7gL") 24000 1 16) - 44)
    mod (1 * (16 / 8)) = 0 /\
  len (createWavBlobFromPcm decodeThree (lit "6AfQB7gL") 24000 1 16) - 44
  <= len (trimTrailingSilence (map (fun c => c mod 256) threeSamples) 24000 16)
  < len (createWavBlobFromPcm decodeThree (lit "6AfQB7gL") 24000 1 16) - 44
    + 1 * (16 / 8).
Proof.
  apply (blob_size decodeThree (lit "6AfQB7gL") 24000 1 16);
    [lia | lia | reflexivity].
Defined.

(** ** The bytes of the file *)

(** Little-endian bytes, as [setUint16] and [setUint32] store them. *)
Definition le16 (value : Z) : bytes :=
  let v := value mod 65536 in [v mod 256; (v / 256) mod 256].

Definition le32 (value : Z) : bytes :=
  let v := value mod 4294967296 in
  [v mod 256; (v / 256) mod 256; (v / 65536) mod 256; (v / 16777216) mod 256].

(** The canonical 44-byte header of a PCM WAV file. *)
Definition headerBytes (dataSize sampleRate channels bitDepth : Z) : bytes :=
  lit "RIFF" ++ le32 (36 + dataSize) ++ lit "WAVE" ++
  lit "fmt " ++ le32 16 ++ le16 1 ++ le16 channels ++ le32 sampleRate ++
  le32 (sampleRate * (channels * (bitDepth / 8))) ++
  le16 (channels * (bitDepth / 8)) ++ le16 bitDepth ++
  lit "data" ++ le32 dataSize.

Lemma setNth_app (a b : bytes) (n : nat) (v : Z) :
  (n < List.length a)%nat -> setNth (a ++ b) n v = setNth a n v ++ b.
Proof.
  revert n. induction a as [|x a IH]; intros [|n] H; cbn [List.length] in H;
    try lia; cbn [app setNth]; [reflexivity|].
  now rewrite IH by lia.
Qed.

Lemma setUint8_app (a b : bytes) (offset value : Z) :
  offset < len a -> setUint8 (a ++ b) offset value = setUint8 a offset value ++ b.
Proof.
  intro H. unfold setUint8. destruct (Z.ltb_spec offset 0); [reflexivity|].
  apply setNth_app. unfold len in H. lia.
Qed.

Lemma setUint16_app (a b : bytes) (offset value : Z) :
  offset + 1 < len a ->
  setUint16 (a ++ b) offset value = setUint16 a offset value ++ b.
Proof.
  intro H. unfold setUint16.
  now rewrite !setUint8_app by (rewrite ?len_setUint8; lia).
Qed.

Lemma setUint32_app (a b : bytes) (offset value : Z) :
  offset + 3 < len a ->
  setUint32 (a ++ b) offset value = setUint32 a offset value ++ b.
Proof.
  intro H. unfold setUint32.
  now rewrite !setUint8_app by (rewrite ?len_setUint8; lia).
Qed.

Lemma writeString_app (s : jsstring) :
  forall a b offset,
    offset + len s <= len a ->
    writeString (a ++ b) offset s = writeString a offset s ++ b.
Proof.
  induction s as [|c s IH]; intros a b offset H; cbn [writeString];
    [reflexivity|].
  assert (Hl : len (c :: s) = 1 + len s)
    by (unfold len; cbn [List.length]; lia).
  pose proof (len_nonneg s).
  rewrite setUint8_app by lia. apply IH. rewrite len_setUint8. lia.
Qed.

(** The header is written into the first 44 bytes. *)
Lemma writeHeader_app (a b : bytes) (dataSize sampleRate channels bitDepth : Z) :
  len a = 44 ->
  writeHeader (a ++ b) dataSize sampleRate channels bitDepth
  = writeHeader a dataSize sampleRate channels bitDepth ++ b.
Proof.
  intro Ha. unfold writeHeader.
  assert (H4 : forall t, In t [lit "RIFF"; lit "WAVE"; lit "fmt "; lit "data"] ->
                         len t = 4).
  { intros t [<-|[<-|[<-|[<-|[]]]]]; reflexivity. }
  rewrite (writeString_app _ a) by (rewrite H4 by (cbn; tauto); lia).
  rewrite setUint32_app by (rewrite ?len_writeString; lia).
  rewrite (writeString_app (lit "WAVE"))
    by (rewrite H4 by (cbn; tauto);
        rewrite ?len_setUint32, ?len_writeString; lia).
  rewrite (writeString_app (lit "fmt "))
    by (rewrite H4 by (cbn; tauto);
        rewrite ?len_writeString, ?len_setUint32, ?len_writeString; lia).
  rewrite setUint32_app
    by (rewrite ?len_writeString, ?len_setUint32, ?len_writeString; lia).
  rewrite !setUint16_app
    by (rewrite ?len_setUint16, ?len_setUint32, ?len_writeString,
          ?len_setUint32, ?len_writeString; lia).
  rewrite !setUint32_app
    by (rewrite ?len_setUint32, ?len_setUint16, ?len_setUint32,
          ?len_writeString, ?len_setUint32, ?len_writeString; lia).
  rewrite !setUint16_app
    by (rewrite ?len_setUint16, ?len_setUint32, ?len_setUint16,
          ?len_setUint32, ?len_writeString, ?len_setUint32,
          ?len_writeString; lia).
  rewrite (writeString_app (lit "data"))
    by (rewrite H4 by (cbn; tauto);
        rewrite ?len_setUint16, ?len_setUint32, ?len_setUint16,
          ?len_setUint32, ?len_writeString, ?len_setUint32,
          ?len_writeString; lia).
  rewrite setUint32_app
    by (rewrite ?len_writeString, ?len_setUint16, ?len_setUint32,
          ?len_setUint16, ?len_setUint32, ?len_writeString, ?len_setUint32,
          ?len_writeString; lia).
  reflexivity.
Qed.

Lemma writeHeader_zeros (dataSize sampleRate channels bitDepth : Z) :
  writeHeader (repeat 0 44) dataSize sampleRate channels bitDepth
  = headerBytes dataSize sampleRate channels bitDepth.
Proof.
  unfold headerBytes, headerSize.
  replace (36 + dataSize) with (44 + dataSize - 8) by lia.
  reflexivity.
Qed.

Lemma setUint8_at_end (pre : bytes) (z : Z) (zs : bytes) (value : Z) :
  setUint8 (pre ++ z :: zs) (len pre) value = pre ++ (value mod 256) :: zs.
Proof.
  unfold setUint8. pose proof (len_nonneg pre).
  destruct (Z.ltb_spec (len pre) 0); [lia|].
  unfold len. rewrite Nat2Z.id. clear.
  induction pre as [|x pre IH]; cbn [app List.length setNth]; [reflexivity|].
  now rewrite IH.
Qed.

(** The sample loop overwrites the bytes after the header with the data. *)
Lemma writePcm_over (data : bytes) :
  forall pre zeros,
    List.length zeros = List.length data ->
    Forall (fun x => 0 <= x < 256) data ->
    writePcm (pre ++ zeros) (len pre) data = pre ++ data.
Proof.
  induction data as [|x data IH]; intros pre zeros Hlen Hbytes;
    destruct zeros as [|z zeros]; try discriminate; cbn [writePcm];
    [reflexivity|].
  inversion Hbytes as [|? ? Hx Hdata]; subst.
  rewrite setUint8_at_end, Z.mod_small by exact Hx.
  replace (pre ++ x :: zeros) with ((pre ++ [x]) ++ zeros)
    by (now rewrite <- app_assoc).
  replace (len pre + 1) with (len (pre ++ [x]))
    by (rewrite len_app; reflexivity).
  rewrite IH; [now rewrite <- app_assoc | | exact Hdata].
  cbn [List.length] in Hlen. lia.
Qed.

Lemma trimTrailingSilence_bytes (pcm : bytes) (sampleRate bitDepth : Z) :
  Forall (fun x => 0 <= x < 256) pcm ->
  Forall (fun x => 0 <= x < 256) (trimTrailingSilence pcm sampleRate bitDepth).
Proof.
  intro H. unfold trimTrailingSilence.
  destruct (_ && _); [|exact H]. destruct (_ && _); [|exact H].
  unfold subarray0. now apply Forall_firstn_keep.
Qed.

Lemma len_headerBytes (dataSize sampleRate channels bitDepth : Z) :
  len (headerBytes dataSize sampleRate channels bitDepth) = 44.
Proof. reflexivity. Qed.

(** [view.getUint16(offset, true)] and the four characters of a chunk
    identifier, as a reader of the file would take them. *)
Definition getUint16 (view : bytes) (offset : Z) : Z :=
  byteAt view offset + 256 * byteAt view (offset + 1).

Definition readTag (view : bytes) (offset : Z) : jsstring :=
  [byteAt view offset; byteAt view (offset + 1);
   byteAt view (offset + 2); byteAt view (offset + 3)].

Section Bytes.

Variable atob : jsstring -> option (list Z).

Lemma createWavBlobFromPcm_bytes (base64PcmData : jsstring)
      (byteCharacters : list Z) (sampleRate channels bitDepth : Z) :
  nonEmpty (trim base64PcmData) = true ->
  atob base64PcmData = Some byteCharacters ->
  0 < channels * (bitDepth / 8) ->
  let pcm := trimTrailingSilence (map (fun c => c mod 256) byteCharacters)
                                 sampleRate bitDepth in
  let dataSize := alignedSize pcm channels bitDepth in
  createWavBlobFromPcm atob base64PcmData sampleRate channels bitDepth
  = headerBytes dataSize sampleRate channels bitDepth
    ++ firstn (Z.to_nat dataSize) pcm.
Proof.
  intros Hne Hatob Hba pcm dataSize.
  rewrite (createWavBlobFromPcm_layout atob _ _ _ _ _ Hne Hatob Hba).
  fold pcm. fold dataSize.
  pose proof (alignedSize_bounds pcm channels bitDepth Hba) as [Hds _].
  fold dataSize in Hds.
  replace (Z.to_nat (headerSize + dataSize))
    with (44 + Z.to_nat dataSize)%nat by (unfold headerSize; lia).
  rewrite repeat_app, writeHeader_app by reflexivity.
  rewrite writeHeader_zeros.
  change headerSize
    with (len (headerBytes dataSize sampleRate channels bitDepth)).
  apply writePcm_over.
  - rewrite repeat_length, length_firstn. unfold len in Hds. lia.
  - apply Forall_firstn_keep. apply trimTrailingSilence_bytes.
    apply Forall_forall. intros x Hx. apply in_map_iff in Hx.
    destruct Hx as [c [<- _]]. apply Z.mod_pos_bound. lia.
Qed.


(** ** The header, read back *)

Lemma getUint32_le32 (value : Z) (post : bytes) :
  0 <= value < 4294967296 -> getUint32 (le32 value ++ post) 0 = value.
Proof.
  intro Hv. unfold le32. rewrite (Z.mod_small value 4294967296) by lia.
  cbv zeta.
  match goal with
  | |- getUint32 ([?a; ?b; ?c; ?d] ++ _) 0 = _ =>
    change (a + 256 * b + 65536 * c + 16777216 * d = value)
  end.
  pose proof (Z.div_mod value 256 ltac:(lia)).
  pose proof (Z.div_mod (value / 256) 256 ltac:(lia)).
  pose proof (Z.div_mod (value / 256 / 256) 256 ltac:(lia)).
  pose proof (Z.mod_pos_bound value 256 ltac:(lia)).
  pose proof (Z.mod_pos_bound (value / 256) 256 ltac:(lia)).
  pose proof (Z.mod_pos_bound (value / 256 / 256) 256 ltac:(lia)).
  replace (value / 65536) with (value / 256 / 256)
    by (rewrite Z.div_div by lia; reflexivity).
  replace (value / 16777216) with (value / 256 / 256 / 256)
    by (rewrite !Z.div_div by lia; reflexivity).
  assert (0 <= value / 256 / 256 / 256 < 256).
  { split; [repeat apply Z.div_pos; lia|].
    repeat (apply Z.div_lt_upper_bound; [lia|]). lia. }
  rewrite (Z.mod_small (value / 256 / 256 / 256) 256) by lia.
  lia.
Qed.

Lemma getUint16_le16 (value : Z) (post : bytes) :
  0 <= value < 65536 -> getUint16 (le16 value ++ post) 0 = value.
Proof.
  intro Hv. unfold le16. rewrite (Z.mod_small value 65536) by lia.
  cbv zeta.
  match goal with
  | |- getUint16 ([?a; ?b] ++ _) 0 = _ => change (a + 256 * b = value)
  end.
  pose proof (Z.div_mod value 256 ltac:(lia)).
  pose proof (Z.mod_pos_bound value 256 ltac:(lia)).
  assert (0 <= value / 256 < 256).
  { split; [apply Z.div_pos; lia|]. apply Z.div_lt_upper_bound; lia. }
  rewrite (Z.mod_small (value / 256) 256) by lia. lia.
Qed.

(** X19. The header reads back. When moreover the bit depth is a
    positive multiple of 8 below 65536, there is at least one channel, the
    block alignment is below 65536, and the byte rate and the size of the
    file are below 2^32, a reader of the file finds: the tags RIFF, WAVE,
    fmt and data at offsets 0, 8, 12 and 36; the size of the file less 8
    at offset 4; 16 and format 1 at offsets 16 and 20; the channels, the
    sample rate, the byte rate [sampleRate * channels * bitDepth / 8], the
    block alignment and the bit depth, as given; and at offset 40 the
    number of bytes that follow the header. *)
Theorem header_reads_back (base64PcmData : jsstring)
        (byteCharacters : list Z) (sampleRate channels bitDepth : Z) :
  nonEmpty (trim base64PcmData) = true ->
  atob base64PcmData = Some byteCharacters ->
  0 < channels ->
  0 < bitDepth < 65536 ->
  bitDepth mod 8 = 0 ->
  channels * (bitDepth / 8) < 65536 ->
  0 <= sampleRate ->
  sampleRate * (channels * (bitDepth / 8)) < 4294967296 ->
  len byteCharacters + 36 < 4294967296 ->
  let wav :=
    createWavBlobFromPcm atob base64PcmData sampleRate channels bitDepth in
  readTag wav 0 = lit "RIFF" /\
  getUint32 wav 4 = len wav - 8 /\
  readTag wav 8 = lit "WAVE" /\
  readTag wav 12 = lit "fmt " /\
  getUint32 wav 16 = 16 /\
  getUint16 wav 20 = 1 /\
  getUint16 wav 22 = channels /\
  getUint32 wav 24 = sampleRate /\
  getUint32 wav 28 = sampleRate * channels * (bitDepth / 8) /\
  getUint16 wav 32 = channels * (bitDepth / 8) /\
  getUint16 wav 34 = bitDepth /\
  readTag wav 36 = lit "data" /\
  getUint32 wav 40 = len (dataSection wav).
Proof.
  intros Hne Hatob Hc Hb Hm Hba16 Hsr Hrate Hsize wav.
  pose proof (positive_blockAlign channels bitDepth Hc (proj1 Hb) Hm) as Hba.
  pose proof (createWavBlobFromPcm_bytes _ _ sampleRate _ _ Hne Hatob Hba)
    as Hblob.
  cbv zeta in Hblob. fold wav in Hblob.
  set (pcm := trimTrailingSilence _ _ _) in *.
  set (dataSize := alignedSize pcm channels bitDepth) in *.
  set (data := firstn (Z.to_nat dataSize) pcm) in *.
  pose proof (alignedSize_bounds pcm channels bitDepth Hba) as [Hds _].
  fold dataSize in Hds.
  pose proof (trimTrailingSilence_length
                (map (fun c => c mod 256) byteCharacters) sampleRate bitDepth)
    as Htrim.
  fold pcm in Htrim. unfold len at 2 in Htrim. rewrite length_map in Htrim.
  fold (len byteCharacters) in Htrim.
  assert (Hdata : len data = dataSize).
  { unfold data, len. rewrite length_firstn. unfold len in Hds. lia. }
  assert (Hwav : len wav = 44 + dataSize).
  { rewrite Hblob, len_app, Hdata. reflexivity. }
  assert (Hsection : len (dataSection wav) = dataSize).
  { rewrite Hblob. exact Hdata. }
  assert (Hbd8 : 1 <= bitDepth / 8)
    by (pose proof (Z.div_mod bitDepth 8 ltac:(lia)); lia).
  assert (Hch : 0 <= channels < 65536) by nia.
  assert (Hsr32 : 0 <= sampleRate < 4294967296) by nia.
  assert (Hrate0 : 0 <= sampleRate * (channels * (bitDepth / 8)) < 4294967296)
    by nia.
  assert (Hba0 : 0 <= channels * (bitDepth / 8) < 65536) by lia.
  assert (Hriff : 0 <= 36 + dataSize < 4294967296) by lia.
  assert (Hds32 : 0 <= dataSize < 4294967296) by lia.
  rewrite Hwav, Hsection. rewrite Hblob. clear Hblob wav Hwav Hsection.
  split; [reflexivity|].
  split.
  { replace (44 + dataSize - 8) with (36 + dataSize) by lia.
    exact (getUint32_le32 (36 + dataSize) [] Hriff). }
  split; [reflexivity|]. split; [reflexivity|].
  split; [reflexivity|]. split; [reflexivity|].
  split; [exact (getUint16_le16 channels [] Hch)|].
  split; [exact (getUint32_le32 sampleRate [] Hsr32)|].
  split.
  { rewrite <- Z.mul_assoc.
    exact (getUint32_le32 (sampleRate * (channels * (bitDepth / 8))) []
                          Hrate0). }
  split; [exact (getUint16_le16 (channels * (bitDepth / 8)) [] Hba0)|].
  split; [exact (getUint16_le16 bitDepth [] ltac:(lia))|].
  split; [reflexivity|].
  exact (getUint32_le32 dataSize [] Hds32).
Qed.

End Bytes.


Lemma header_reads_back_witness :
  readTag (createWavBlobFromPcm decodeThree (lit "6AfQB7gL") 24000 1 16) 0
  = lit "RIFF" /\
  getUint32 (createWavBlobFromPcm decodeThree (lit "6AfQB7gL") 24000 1 16) 4
  = len (createWavBlobFromPcm decodeThree (lit "6AfQB7gL") 24000 1 16) - 8 /\
  readTag (createWavBlobFromPcm decodeThree (lit "6AfQB7gL") 24000 1 16) 8
  = lit "WAVE" /\
  readTag (createWavBlobFromPcm decodeThree (lit "6AfQB7gL") 24000 1 16) 12
  = lit "fmt " /\
  getUint32 (createWavBlobFromPcm decodeThree (lit "6AfQB7gL") 24000 1 16) 16
  = 16 /\
  getUint16 (createWavBlobFromPcm decodeThree (lit "6AfQB7gL") 24000 1 16) 20
  = 1 /\
  getUint16 (createWavBlobFromPcm decodeThree (lit "6AfQB7gL") 24000 1 16) 22
  = 1 /\
  getUint32 (createWavBlobFromPcm decodeThree (lit "6AfQB7gL") 24000 1 16) 24
  = 24000 /\
  getUint32 (createWavBlobFromPcm decodeThree (lit "6AfQB7gL") 24000 1 16) 28
  = 24000 * 1 * (16 / 8) /\
  getUint16 (createWavBlobFromPcm decodeThree (lit "6AfQB7gL") 24000 1 16) 32
  = 1 * (16 / 8) /\
  getUint16 (createWavBlobFromPcm decodeThree (lit "6AfQB7gL") 24000 1 16) 34
  = 16 /\
  readTag (createWavBlobFromPcm decodeThree (lit "6AfQB7gL") 24000 1 16) 36
  = lit "data" /\
  getUint32 (createWavBlobFromPcm decodeThree (lit "6AfQB7gL") 24000 1 16) 40
  = len (dataSection
           (createWavBlobFromPcm decodeThree (lit "6AfQB7gL") 24000 1 16)).
Proof.
  apply (header_reads_back decodeThree (lit "6AfQB7gL") threeSamples
                           24000 1 16);
    first [reflexivity | lia].
Defined.

End WavLayout.

(* ================================================================== *)
(** * utils/mimeUtils.ts                                                *)
(* ================================================================== *)

Module Mime.

(** The result of [parseInt(s, 10)]: an integer, [NaN], or a value beyond
    2^53, where the language rounds to the nearest double and this model
    does not follow it. The sign of a zero is not kept. *)
Inductive ParsedInt :=
| integer (n : Z)
| notANumber
| beyondSafeInteger.

Record AudioParameters := {
  sampleRate : ParsedInt;
  bitDepth : ParsedInt;
  channels : Z
}.

Definition defaults : AudioParameters :=
  {| sampleRate := integer 24000; bitDepth := integer 16; channels := 1 |}.

(** [\d] *)
Definition isDecimalDigit (c : Z) : bool := (48 <=? c) && (c <=? 57).

Fixpoint takeWhile (f : Z -> bool) (s : jsstring) : jsstring :=
  match s with
  | [] => []
  | c :: s' => if f c then c :: takeWhile f s' else []
  end.

(** [s.split(sep)] and [s.split(sep, limit)] for a one-character [sep]. *)
Fixpoint splitOnLoop (sep : Z) (cur s : jsstring) : list jsstring :=
  match s with
  | [] => [rev cur]
  | c :: s' =>
    if c =? sep then rev cur :: splitOnLoop sep [] s'
    else splitOnLoop sep (c :: cur) s'
  end.

Definition splitOn (sep : Z) (s : jsstring) : list jsstring :=
  splitOnLoop sep [] s.

Definition splitOnLimit (sep : Z) (s : jsstring) (limit : nat) : list jsstring :=
  firstn limit (splitOn sep s).

(** The value of a string of decimal digits. *)
Definition decimalValue (digits : jsstring) : Z :=
  fold_left (fun acc d => 10 * acc + (d - 48)) digits 0.

(** [parseInt(s, 10)]: leading white space is skipped, a sign is taken,
    then the longest run of digits; [NaN] when there is no digit. *)
Definition parseInt (s : jsstring) : ParsedInt :=
  let s := trimStart s in
  let '(negative, s) :=
    match s with
    | c :: r =>
      if c =? 45 then (true, r) else if c =? 43 then (false, r) else (false, s)
    | [] => (false, s)
    end in
  match takeWhile isDecimalDigit s with
  | [] => notANumber
  | digits =>
    let v := decimalValue digits in
    if v <=? 9007199254740992
    then integer (if negative then - v else v)
    else beyondSafeInteger
  end.

(** [mainType.match(/l(\d+)/)]: the first capture group of the leftmost
    match, when there is one. *)
Fixpoint matchBitDepth (s : jsstring) : option jsstring :=
  match s with
  | [] => None
  | c :: s' =>
    match takeWhile isDecimalDigit s' with
    | [] => matchBitDepth s'
    | digits => if c =? 108 then Some digits else matchBitDepth s'
    end
  end.

(** The body of [for (let i = 1; i < parts.length; i++)]. *)
Definition rateStep (parsedRate : ParsedInt) (part : jsstring) : ParsedInt :=
  let param := trim part in
  if startsWith param (lit "rate=") then
    match nth_error (splitOnLimit 61 param 2) 1 with
    | Some (c :: rateStr) => parseInt (c :: rateStr)
    | _ => parsedRate
    end
  else parsedRate.

Section ParseAudioMimeType.

(** [String.prototype.toLowerCase] follows the Unicode case mappings; it
    is a parameter. *)
Variable toLowerCase : jsstring -> jsstring.

Definition parseAudioMimeType (mimeType : jsstring) : AudioParameters :=
  if negb (nonEmpty mimeType) then defaults
  else
    let parts := splitOn 59 (toLowerCase mimeType) in
    let mainType := hd [] parts in
    let parsedBitDepth :=
      match matchBitDepth mainType with
      | Some (c :: digits) => parseInt (c :: digits)
      | _ => bitDepth defaults
      end in
    let parsedRate := fold_left rateStep (tl parts) (sampleRate defaults) in
    {| sampleRate := parsedRate;
       bitDepth := parsedBitDepth;
       channels := channels defaults |}.

End ParseAudioMimeType.

(** ASCII lower-casing, for sample runs. *)
Definition asciiLower (s : jsstring) : jsstring :=
  map (fun c => if (65 <=? c) && (c <=? 90) then c + 32 else c) s.

Example parseAudioMimeType_sample :
  parseAudioMimeType asciiLower (lit "audio/L16;codec=pcm;rate=24000")
  = {| sampleRate := integer 24000; bitDepth := integer 16; channels := 1 |}.
Proof. vm_compute. reflexivity. Qed.

Example parseAudioMimeType_nan :
  parseAudioMimeType asciiLower (lit "audio/L8; rate=fast")
  = {| sampleRate := notANumber; bitDepth := integer 8; channels := 1 |}.
Proof. vm_compute. reflexivity. Qed.

End Mime.

(* ================================================================== *)
(** * Properties of [parseAudioMimeType]                                *)
(* ================================================================== *)

Module MimeFacts.

Import Mime.

Local Abbreviation digit := (fun c => isDecimalDigit c = true).

Lemma takeWhile_all (f : Z -> bool) (s : jsstring) :
  Forall (fun c => f c = true) s -> takeWhile f s = s.
Proof.
  induction 1 as [|c s Hc _ IH]; cbn [takeWhile]; [reflexivity|].
  now rewrite Hc, IH.
Qed.

Lemma takeWhile_holds (f : Z -> bool) (s : jsstring) :
  Forall (fun c => f c = true) (takeWhile f s).
Proof.
  induction s as [|c s IH]; cbn [takeWhile]; [constructor|].
  destruct (f c) eqn:E; constructor; assumption.
Qed.

Lemma digit_not_space (c : Z) : isDecimalDigit c = true -> isWhiteSpace c = false.
Proof.
  unfold isDecimalDigit, isWhiteSpace. intro H. apply andb_prop in H.
  destruct H as [H1 H2]. apply Z.leb_le in H1, H2.
  repeat match goal with
         | |- context [?a =? ?b] => destruct (Z.eqb_spec a b); [lia|]
         end.
  destruct (Z.leb_spec 8192 c); [lia|]. reflexivity.
Qed.

Lemma decimalValue_from (digits : jsstring) :
  Forall digit digits ->
  forall acc, 0 <= acc ->
              0 <= fold_left (fun acc d => 10 * acc + (d - 48)) digits acc.
Proof.
  induction 1 as [|d ds Hd _ IH]; intros acc Hacc; cbn [fold_left]; [exact Hacc|].
  apply IH. unfold isDecimalDigit in Hd. apply andb_prop in Hd.
  destruct Hd as [H1 H2]. apply Z.leb_le in H1, H2. lia.
Qed.

(** [parseInt] on a string of digits. *)
Lemma parseInt_digits (digits : jsstring) :
  digits <> [] -> Forall digit digits ->
  parseInt digits
  = if decimalValue digits <=? 9007199254740992
    then integer (decimalValue digits) else beyondSafeInteger.
Proof.
  intros Hne Hd. destruct digits as [|d ds]; [congruence|].
  inversion Hd as [|? ? Hd0 Hds]; subst.
  unfold parseInt, trimStart. cbn [dropWhile].
  rewrite (digit_not_space d Hd0).
  assert (Hrange : 48 <= d <= 57).
  { unfold isDecimalDigit in Hd0. apply andb_prop in Hd0.
    destruct Hd0 as [H1 H2]. apply Z.leb_le in H1, H2. lia. }
  destruct (Z.eqb_spec d 45); [lia|]. destruct (Z.eqb_spec d 43); [lia|].
  rewrite (takeWhile_all _ _ Hd). reflexivity.
Qed.

Section Robust.

Variable toLowerCase : jsstring -> jsstring.

(** X20. Whatever the MIME type and whatever its lower-case form, the
    parameters have one channel and a bit depth that is not [NaN] and not
    negative: 16, or the digits that follow the first letter l followed by
    a digit in the part before the first semicolon. (The sample rate has
    no such guarantee: a [rate] parameter without digits gives [NaN].)
    An empty string gives the defaults. *)
Theorem bit_depth_is_a_number (mimeType : jsstring) :
  channels (parseAudioMimeType toLowerCase mimeType) = 1 /\
  (bitDepth (parseAudioMimeType toLowerCase mimeType) = beyondSafeInteger \/
   exists n, 0 <= n /\
             bitDepth (parseAudioMimeType toLowerCase mimeType) = integer n) /\
  parseAudioMimeType toLowerCase [] = defaults.
Proof.
  split; [|split; [|reflexivity]].
  - unfold parseAudioMimeType. now destruct (negb (nonEmpty mimeType)).
  - unfold parseAudioMimeType. destruct (negb (nonEmpty mimeType)).
    { right. exists 16. split; [lia | reflexivity]. }
    cbn [bitDepth].
    set (mainType := hd [] _). clearbody mainType.
    assert (Hm : forall digits, matchBitDepth mainType = Some digits ->
                                digits <> [] /\ Forall digit digits).
    { induction mainType as [|c s IH]; intros digits H; [discriminate|].
      cbn [matchBitDepth] in H.
      pose proof (takeWhile_holds isDecimalDigit s) as Hall.
      destruct (takeWhile isDecimalDigit s) as [|d ds] eqn:E; [now apply IH|].
      destruct (c =? 108); [|now apply IH].
      injection H as <-. split; [discriminate | exact Hall]. }
    destruct (matchBitDepth mainType) as [[|c digits]|] eqn:E;
      try (right; exists 16; split; [lia | reflexivity]).
    destruct (Hm _ eq_refl) as [Hne Hd].
    rewrite (parseInt_digits _ Hne Hd).
    destruct (_ <=? _); [right | now left].
    eexists. split; [|reflexivity].
    apply (decimalValue_from _ Hd 0). lia.
Qed.

End Robust.

Lemma splitOnLoop_nosep (sep : Z) (s : jsstring) :
  ~ In sep s -> forall cur, splitOnLoop sep cur s = [rev cur ++ s].
Proof.
  induction s as [|c s IH]; intros Hs cur; cbn [splitOnLoop].
  - now rewrite app_nil_r.
  - destruct (Z.eqb_spec c sep) as [->|Hne]; [elim Hs; now left|].
    rewrite IH by (intro H; apply Hs; now right).
    cbn [rev]. now rewrite <- app_assoc.
Qed.

Lemma splitOnLoop_app (sep : Z) (a b : jsstring) :
  ~ In sep a ->
  forall cur,
    splitOnLoop sep cur (a ++ sep :: b) = (rev cur ++ a) :: splitOnLoop sep [] b.
Proof.
  induction a as [|c a IH]; intros Ha cur; cbn [app splitOnLoop].
  - rewrite Z.eqb_refl. now rewrite app_nil_r.
  - destruct (Z.eqb_spec c sep) as [->|Hne]; [elim Ha; now left|].
    rewrite IH by (intro H; apply Ha; now right).
    cbn [rev]. now rewrite <- app_assoc.
Qed.

(** Splitting what was joined. *)
Lemma splitOn_join (sep : Z) (parts : list jsstring) :
  parts <> [] ->
  Forall (fun p => ~ In sep p) parts ->
  splitOn sep (join [sep] parts) = parts.
Proof.
  intros Hne Hall. unfold splitOn. revert Hne.
  induction Hall as [|p parts Hp Hparts IH]; intro Hne;
    [exfalso; apply Hne; reflexivity|].
  destruct parts as [|q parts].
  - cbn [join]. now rewrite splitOnLoop_nosep.
  - change (join [sep] (p :: q :: parts))
      with (p ++ sep :: join [sep] (q :: parts)).
    rewrite splitOnLoop_app by exact Hp. cbn [rev app].
    now rewrite IH.
Qed.

Lemma digits_no_char (c : Z) (digits : jsstring) :
  isDecimalDigit c = false -> Forall digit digits -> ~ In c digits.
Proof.
  intros Hc Hd Hin. rewrite Forall_forall in Hd. specialize (Hd c Hin).
  cbv beta in Hd. rewrite Hc in Hd. discriminate.
Qed.

Lemma digits_noWhiteSpace (digits : jsstring) :
  Forall digit digits -> noWhiteSpace digits.
Proof.
  unfold noWhiteSpace. intro H. eapply Forall_impl; [|exact H].
  intros c Hc. now apply digit_not_space.
Qed.

(** A [rate=] parameter with digits sets the rate. *)
Lemma rateStep_rate (parsedRate : ParsedInt) (digits : jsstring) :
  digits <> [] -> Forall digit digits ->
  rateStep parsedRate (lit "rate=" ++ digits) = parseInt digits.
Proof.
  intros Hne Hd. unfold rateStep.
  rewrite trim_noWhiteSpace.
  2:{ apply Forall_app. split; [|now apply digits_noWhiteSpace].
      repeat constructor. }
  rewrite startsWith_app. unfold splitOnLimit, splitOn.
  change (lit "rate=" ++ digits) with (lit "rate" ++ 61 :: digits).
  rewrite splitOnLoop_app.
  2:{ cbn. intros [H|[H|[H|[H|[]]]]]; discriminate. }
  rewrite splitOnLoop_nosep by (apply digits_no_char; [reflexivity | exact Hd]).
  cbn [rev app firstn nth_error].
  destruct digits; [congruence | reflexivity].
Qed.

Lemma matchBitDepth_audio (digits : jsstring) :
  digits <> [] -> Forall digit digits ->
  matchBitDepth (lit "audio/l" ++ digits) = Some digits.
Proof.
  intros Hne Hd.
  change (lit "audio/l" ++ digits)
    with (97 :: 117 :: 100 :: 105 :: 111 :: 47 :: 108 :: digits).
  do 6 (cbn [matchBitDepth takeWhile];
        match goal with
        | |- context [isDecimalDigit ?c] =>
          change (isDecimalDigit c) with false
        end; cbv iota).
  cbn [matchBitDepth]. rewrite (takeWhile_all _ _ Hd).
  destruct digits; [congruence | reflexivity].
Qed.

Section Canonical.

Variable toLowerCase : jsstring -> jsstring.

(** X21. A MIME type of the form the service sends is read in full.
    When the lower-case form of a MIME type that is not empty is
    [audio/l], the digits of the bit depth, then parameters separated by
    semicolons of which the last is [rate=] with the digits of the rate,
    and both numbers are at most 2^53, the parameters are that rate, that
    bit depth and one channel, whatever the parameters in between: the
    last rate wins. *)
Theorem canonical_mime_type_is_read (mimeType : jsstring)
        (depthDigits rateDigits : jsstring) (others : list jsstring) :
  mimeType <> [] ->
  depthDigits <> [] -> Forall (fun c => isDecimalDigit c = true) depthDigits ->
  rateDigits <> [] -> Forall (fun c => isDecimalDigit c = true) rateDigits ->
  Forall (fun p => ~ In 59 p) others ->
  decimalValue depthDigits <= 9007199254740992 ->
  decimalValue rateDigits <= 9007199254740992 ->
  toLowerCase mimeType
  = join [59] ((lit "audio/l" ++ depthDigits)
                 :: others ++ [lit "rate=" ++ rateDigits]) ->
  parseAudioMimeType toLowerCase mimeType
  = {| sampleRate := integer (decimalValue rateDigits);
       bitDepth := integer (decimalValue depthDigits);
       channels := 1 |}.
Proof.
  intros Hm Hdne Hd Hrne Hr Hothers Hdv Hrv Hlower.
  unfold parseAudioMimeType.
  destruct mimeType as [|m0 mimeType]; [congruence|]. cbn [nonEmpty negb].
  rewrite Hlower, splitOn_join.
  2:{ discriminate. }
  2:{ constructor.
      - intro H. apply in_app_or in H. destruct H as [H|H].
        + cbn in H. repeat (destruct H as [H|H]; [discriminate|]). exact H.
        + revert H. apply digits_no_char; [reflexivity | exact Hd].
      - apply Forall_app. split.
        + exact Hothers.
        + constructor; [|constructor].
          intro H. apply in_app_or in H. destruct H as [H|H].
          * cbn in H. repeat (destruct H as [H|H]; [discriminate|]). exact H.
          * revert H. apply digits_no_char; [reflexivity | exact Hr]. }
  cbn [hd tl].
  rewrite (matchBitDepth_audio _ Hdne Hd).
  rewrite fold_left_app. cbn [fold_left].
  rewrite (rateStep_rate _ _ Hrne Hr).
  assert (Hdepth : parseInt depthDigits = integer (decimalValue depthDigits)).
  { rewrite parseInt_digits by assumption.
    now destruct (Z.leb_spec (decimalValue depthDigits) 9007199254740992);
      [|lia]. }
  assert (Hrate : parseInt rateDigits = integer (decimalValue rateDigits)).
  { rewrite parseInt_digits by assumption.
    now destruct (Z.leb_spec (decimalValue rateDigits) 9007199254740992);
      [|lia]. }
  rewrite Hrate. destruct depthDigits as [|d0 dd]; [congruence|].
  now rewrite Hdepth.
Qed.

End Canonical.

Lemma canonical_mime_type_is_read_witness :
  parseAudioMimeType asciiLower (lit "audio/L16;codec=pcm;rate=24000")
  = {| sampleRate := integer (decimalValue (lit "24000"));
       bitDepth := integer (decimalValue (lit "16"));
       channels := 1 |}.
Proof.
  apply (canonical_mime_type_is_read
           asciiLower (lit "audio/L16;codec=pcm;rate=24000")
           (lit "16") (lit "24000") [lit "codec=pcm"]).
  - discriminate.
  - discriminate.
  - repeat constructor.
  - discriminate.
  - repeat constructor.
  - constructor; [|constructor].
    cbn. intros H. repeat (destruct H as [H|H]; [discriminate|]). exact H.
  - vm_compute. discriminate.
  - vm_compute. discriminate.
  - reflexivity.
Defined.

End MimeFacts.

(* ================================================================== *)
(** * Fragments separated by white space                                *)
(* ================================================================== *)

Definition allWhiteSpace (s : jsstring) : Prop :=
  Forall (fun c => isWhiteSpace c = true) s.

(** [separatedFragments text fragments]: the text is the fragments, in
    order, each as it stands, with white space and nothing else before,
    between and after them (a separator may be empty). *)
Inductive separatedFragments : jsstring -> list jsstring -> Prop :=
| separated_end (space : jsstring) :
    allWhiteSpace space -> separatedFragments space []
| separated_next (space fragment rest : jsstring) (fragments : list jsstring) :
    allWhiteSpace space ->
    separatedFragments rest fragments ->
    separatedFragments (space ++ fragment ++ rest) (fragment :: fragments).

Lemma allWhiteSpace_app (a b : jsstring) :
  allWhiteSpace a -> allWhiteSpace b -> allWhiteSpace (a ++ b).
Proof. intros Ha Hb. apply Forall_app. now split. Qed.

Lemma separated_space_left (space text : jsstring) (fragments : list jsstring) :
  allWhiteSpace space ->
  separatedFragments text fragments ->
  separatedFragments (space ++ text) fragments.
Proof.
  intros Hs H. destruct H as [ws Hws | ws f rest frags Hws Hrest].
  - constructor. now apply allWhiteSpace_app.
  - rewrite app_assoc. constructor; [now apply allWhiteSpace_app | exact Hrest].
Qed.

Lemma separated_app (a b : jsstring) (fa fb : list jsstring) :
  separatedFragments a fa ->
  separatedFragments b fb ->
  separatedFragments (a ++ b) (fa ++ fb).
Proof.
  intros Ha Hb. induction Ha as [ws Hws | ws f rest frags Hws Hrest IH].
  - cbn [app]. now apply separated_space_left.
  - rewrite <- !app_assoc. cbn [app]. constructor; [exact Hws | exact IH].
Qed.

Lemma separated_space_right (space text : jsstring) (fragments : list jsstring) :
  separatedFragments text fragments ->
  allWhiteSpace space ->
  separatedFragments (text ++ space) fragments.
Proof.
  intros H Hs. rewrite <- (app_nil_r fragments).
  apply separated_app; [exact H | now constructor].
Qed.

Lemma separated_single (text : jsstring) : separatedFragments text [text].
Proof.
  rewrite <- (app_nil_r text) at 1. change (text ++ []) with ([] ++ text ++ []).
  constructor; [constructor|]. constructor. constructor.
Qed.

Lemma separated_snoc (text part : jsstring) (fragments : list jsstring) :
  separatedFragments text fragments ->
  separatedFragments (text ++ part) (fragments ++ [part]).
Proof. intro H. apply separated_app; [exact H | apply separated_single]. Qed.

(** Fragments separated by white space cover the text. *)
Lemma separated_strip (text : jsstring) (fragments : list jsstring) :
  separatedFragments text fragments ->
  stripWhiteSpace (concat fragments) = stripWhiteSpace text.
Proof.
  induction 1 as [ws Hws | ws f rest frags Hws Hrest IH].
  - cbn [concat]. now rewrite (strip_all_space _ Hws).
  - cbn [concat]. rewrite !strip_app, IH, (strip_all_space _ Hws). reflexivity.
Qed.

Lemma separated_filter_nonEmpty (text : jsstring) (fragments : list jsstring) :
  separatedFragments text fragments ->
  separatedFragments text (filter nonEmpty fragments).
Proof.
  induction 1 as [ws Hws | ws f rest frags Hws Hrest IH]; cbn [filter].
  - now constructor.
  - destruct f as [|c f]; cbn [nonEmpty].
    + cbn [app]. now apply separated_space_left.
    + now constructor.
Qed.

(** What [trim] removes is white space. *)
Lemma dropWhile_split (f : Z -> bool) (s : jsstring) :
  exists a, s = a ++ dropWhile f s /\ Forall (fun c => f c = true) a.
Proof.
  induction s as [|c s [a [E Ha]]]; cbn [dropWhile].
  - exists []. split; [reflexivity | constructor].
  - destruct (f c) eqn:Ec.
    + exists (c :: a). split; [cbn [app]; now rewrite <- E | now constructor].
    + exists []. split; [reflexivity | constructor].
Qed.

Lemma trim_split (s : jsstring) :
  exists a b, s = a ++ trim s ++ b /\ allWhiteSpace a /\ allWhiteSpace b.
Proof.
  unfold trim, trimStart, trimEnd.
  destruct (dropWhile_split isWhiteSpace s) as [a [Ea Ha]].
  destruct (dropWhile_split isWhiteSpace (rev (dropWhile isWhiteSpace s)))
    as [b [Eb Hb]].
  exists a, (rev b). split; [|split; [exact Ha|]].
  - rewrite <- rev_app_distr, <- Eb, rev_involutive. exact Ea.
  - unfold allWhiteSpace. apply Forall_forall. intros c Hc.
    apply in_rev in Hc. rewrite Forall_forall in Hb. now apply Hb.
Qed.

Lemma separated_trim (s : jsstring) (fragments : list jsstring) :
  separatedFragments (trim s) fragments -> separatedFragments s fragments.
Proof.
  intro H. destruct (trim_split s) as [a [b [E [Ha Hb]]]].
  rewrite E. apply separated_space_left; [exact Ha|].
  now apply separated_space_right.
Qed.

Lemma separated_blank (s : jsstring) :
  trim s = [] -> separatedFragments s [].
Proof.
  intro H. constructor. apply strip_nil_all_space. now apply trim_nil_iff.
Qed.

(** ** The pieces of [split] *)

Section SplitSeparated.

Variable matchAt : jsstring -> jsstring -> option nat.

Hypothesis matchAt_space :
  forall before rest k,
    matchAt before rest = Some k ->
    Forall (fun c => isWhiteSpace c = true) (firstn k rest).

(** Fragments separated within the pieces are separated within the
    string: the separators of the expression are white space. *)
Lemma splitLoop_separated (rest : jsstring) :
  forall before cur skip fss,
    Forall (fun c => isWhiteSpace c = true) (firstn skip rest) ->
    (skip <> O -> cur = []) ->
    Forall2 separatedFragments (splitLoop matchAt before cur skip rest) fss ->
    separatedFragments (rev cur ++ rest) (concat fss).
Proof.
  induction rest as [|c rest IH]; intros before cur skip fss Hskip Hcur H.
  - cbn [splitLoop] in H. inversion H as [|? fs ? fss' Hfs Hnil]; subst.
    inversion Hnil; subst. cbn [concat]. now rewrite !app_nil_r.
  - cbn [splitLoop] in H. destruct skip as [|k].
    + destruct (matchAt before (c :: rest)) as [[|k]|] eqn:E.
      * destruct cur as [|d cur].
        -- apply (IH _ [c] O fss) in H; [exact H | constructor | easy].
        -- inversion H as [|? fs ? fss' Hfs Hrest]; subst.
           apply (IH _ [c] O fss') in Hrest; [| constructor | easy].
           cbn [concat]. now apply separated_app.
      * apply matchAt_space in E. cbn [firstn] in E.
        inversion E as [|? ? Hc Hk]; subst.
        inversion H as [|? fs ? fss' Hfs Hrest]; subst.
        apply (IH _ [] k fss') in Hrest; [| exact Hk | reflexivity].
        cbn [concat]. apply separated_app; [exact Hfs|].
        apply (separated_space_left [c]); [now repeat constructor | exact Hrest].
      * apply (IH _ (c :: cur) O fss) in H; [| constructor | easy].
        cbn [rev] in H. now rewrite <- app_assoc in H.
    + rewrite (Hcur ltac:(discriminate)) in *.
      cbn [firstn] in Hskip. inversion Hskip as [|? ? Hc Hk]; subst.
      apply (IH _ [] k fss) in H; [| exact Hk | reflexivity].
      apply (separated_space_left [c]); [now repeat constructor | exact H].
Qed.

Lemma split_separated (s : jsstring) (fss : list (list jsstring)) :
  Forall2 separatedFragments (split matchAt s) fss ->
  separatedFragments s (concat fss).
Proof.
  intro H. apply (splitLoop_separated s [] [] O fss); [constructor | easy | exact H].
Qed.

End SplitSeparated.

(** ** The results of the recursive calls *)

Lemma flatMapM_separated (f : jsstring -> option (list jsstring))
      (pieces : list jsstring) :
  (forall x ys, f x = Some ys -> separatedFragments x ys) ->
  forall zs,
    flatMapM f pieces = Some zs ->
    exists fss, Forall2 separatedFragments pieces fss /\ concat fss = zs.
Proof.
  intro Hf. induction pieces as [|x l IH]; intros zs H; cbn [flatMapM] in H.
  - injection H as <-. exists []. split; [constructor | reflexivity].
  - destruct (f x) as [ys|] eqn:Ef; [|discriminate].
    destruct (flatMapM f l) as [zs'|] eqn:El; [|discriminate].
    injection H as <-. destruct (IH zs' eq_refl) as [fss [H2 Hc]].
    exists (ys :: fss). split; [constructor; [now apply Hf | exact H2]|].
    cbn [concat]. now rewrite Hc.
Qed.

Lemma flatMapM_separated_trimmed (f : jsstring -> option (list jsstring))
      (pieces : list jsstring) :
  (forall x ys, f x = Some ys -> separatedFragments x ys) ->
  forall zs,
    flatMapM f (filter nonEmpty (map trim pieces)) = Some zs ->
    exists fss, Forall2 separatedFragments pieces fss /\ concat fss = zs.
Proof.
  intro Hf. induction pieces as [|x l IH]; intros zs H; cbn [map filter] in H.
  - cbn [flatMapM] in H. injection H as <-.
    exists []. split; [constructor | reflexivity].
  - destruct (trim x) as [|c t] eqn:Ex; cbn [nonEmpty] in H.
    + destruct (IH zs H) as [fss [H2 Hc]]. exists ([] :: fss).
      split; [constructor; [now apply separated_blank | exact H2] | exact Hc].
    + cbn [flatMapM] in H. destruct (f (c :: t)) as [ys|] eqn:Ef; [|discriminate].
      destruct (flatMapM f _) as [zs'|] eqn:El; [|discriminate].
      injection H as <-. destruct (IH zs' eq_refl) as [fss [H2 Hc]].
      exists (ys :: fss). split; [|cbn [concat]; now rewrite Hc].
      constructor; [|exact H2]. apply separated_trim. rewrite Ex. now apply Hf.
Qed.

(** ** The windows *)

Lemma firstn_plus (l : jsstring) (a n : nat) :
  firstn (a + n) l = firstn a l ++ firstn n (skipn a l).
Proof.
  revert l. induction a as [|a IH]; intros [|x l]; cbn [Nat.add firstn skipn app];
    try reflexivity.
  - now rewrite firstn_nil.
  - now rewrite IH.
Qed.

Lemma firstn_substring (text : jsstring) (a b : Z) :
  0 <= a <= b -> b <= len text ->
  firstn (Z.to_nat b) text = firstn (Z.to_nat a) text ++ substring text a b.
Proof.
  intros Ha Hb. rewrite substring_inside by lia.
  replace (Z.to_nat b) with (Z.to_nat a + Z.to_nat (b - a))%nat by lia.
  rewrite firstn_plus. reflexivity.
Qed.

Lemma nextSplitPoint_inside (text : jsstring) (targetCharLength currentPos : Z) :
  0 < targetCharLength ->
  0 <= currentPos < len text ->
  nextSplitPoint text targetCharLength currentPos <= len text.
Proof.
  intros Ht Hc. unfold nextSplitPoint.
  destruct (Z.ltb_spec (Z.min (currentPos + targetCharLength) (len text)) (len text));
    [|lia].
  destruct (findSpaceBack _ _ _) as [i|] eqn:E.
  - apply findSpaceBack_range in E. destruct E as [E1 E2].
    apply isSpaceAt_inside in E2. lia.
  - destruct (_ && _) eqn:E2; [|lia].
    apply andb_prop in E2. destruct E2 as [_ E2]. apply Z.ltb_lt in E2. lia.
Qed.

Lemma charWindowLoop_separated (text : jsstring) (targetCharLength : Z) :
  0 < targetCharLength ->
  forall fuel currentPos results r,
    0 <= currentPos <= len text ->
    charWindowLoop fuel text targetCharLength currentPos results = Some r ->
    separatedFragments (firstn (Z.to_nat currentPos) text) results ->
    separatedFragments text r.
Proof.
  intros Ht. induction fuel as [|fuel IH]; intros currentPos results r Hc H Hres;
    cbn [charWindowLoop] in H;
    destruct (Z.ltb_spec currentPos (len text)) as [Hlt|Hge];
    try discriminate.
  - injection H as <-. rewrite firstn_all2 in Hres by (unfold len in *; lia).
    exact Hres.
  - pose proof (nextSplitPoint_progress text targetCharLength currentPos Ht
                                        (conj (proj1 Hc) Hlt)) as Hp.
    pose proof (nextSplitPoint_inside text targetCharLength currentPos Ht
                                      (conj (proj1 Hc) Hlt)) as Hin.
    eapply IH; [|exact H|]; [lia|].
    rewrite (firstn_substring text currentPos
               (nextSplitPoint text targetCharLength currentPos)) by lia.
    destruct (trim (substring text currentPos _)) as [|c t] eqn:E;
      cbn [nonEmpty].
    + apply separated_space_right; [exact Hres|].
      apply strip_nil_all_space. now apply trim_nil_iff.
    + apply separated_app; [exact Hres|].
      apply separated_trim. rewrite E. apply separated_single.
  - injection H as <-. rewrite firstn_all2 in Hres by (unfold len in *; lia).
    exact Hres.
Qed.

(** ** The splitter *)

Lemma forceSplit_separated (targetCharLength : Z) (lfuel : nat) :
  0 < targetCharLength ->
  forall rfuel text depth r,
    forceSplit rfuel lfuel text targetCharLength depth = Some r ->
    separatedFragments text r.
Proof.
  intros Ht. induction rfuel as [|rfuel IH]; intros text depth r H;
    [discriminate|].
  cbn [forceSplit] in H.
  destruct (trim text) as [|c0 t0] eqn:Etrim; cbn [nonEmpty negb] in H.
  { injection H as <-. now apply separated_blank. }
  destruct (15 <? depth)%nat.
  { injection H as <-. apply separated_single. }
  destruct (_ && _).
  { injection H as <-. apply separated_single. }
  assert (Hrec : forall x ys,
             (if nonEmpty (trim x)
              then forceSplit rfuel lfuel (trim x) targetCharLength (S depth)
              else Some []) = Some ys ->
             separatedFragments x ys).
  { intros x ys Hx. destruct (trim x) as [|c t] eqn:Ex; cbn [nonEmpty] in Hx.
    - injection Hx as <-. now apply separated_blank.
    - apply separated_trim. rewrite Ex. now apply IH in Hx. }
  destruct (1 <? List.length (split matchBlankLines text))%nat.
  { destruct (flatMapM _ (split matchBlankLines text)) as [zs|] eqn:E;
      [|discriminate].
    injection H as <-. apply separated_filter_nonEmpty.
    destruct (flatMapM_separated _ _ Hrec _ E) as [fss [H2 <-]].
    exact (split_separated _ matchBlankLines_space _ _ H2). }
  destruct (1 <? List.length _)%nat.
  { destruct (flatMapM _ (filter _ _)) as [zs|] eqn:E; [|discriminate].
    injection H as <-. apply separated_filter_nonEmpty.
    destruct (flatMapM_separated_trimmed _ _ Hrec _ E) as [fss [H2 <-]].
    exact (split_separated _ matchSentenceBreak_space _ _ H2). }
  destruct (charWindowLoop lfuel _ _ _ _) as [results|] eqn:E; [|discriminate].
  injection H as <-. apply separated_filter_nonEmpty.
  apply charWindowLoop_separated in E;
    [| assumption | pose proof (len_nonneg text); lia
     | cbn [Z.to_nat firstn]; constructor; constructor].
  destruct (_ && _) eqn:Eb; [|exact E].
  apply andb_prop in Eb. destruct Eb as [Eb _]. apply Nat.eqb_eq in Eb.
  destruct results; [|discriminate]. cbn [app]. apply separated_single.
Qed.

(** C9, as the code has it (splitter totality). For every text, every
    depth and every positive target length,
    [forceSplitTextRecursive_SYNC] returns, with a list of fragments such
    that the text is exactly these fragments, in order and each as it
    stands, with white space and nothing else before, between and after
    them (so that only separator white space is lost, and the
    concatenation is the text up to white space); no fragment is empty or
    blank. The list is not empty when the text holds a character other
    than white space, and it is empty for every text of white space
    only. *)
Theorem splitter_returns_separated_fragments (text : jsstring)
        (targetCharLength : Z) (depth : nat) :
  0 < targetCharLength ->
  exists fragments,
    forceSplitTextRecursive_SYNC text targetCharLength depth = Some fragments /\
    separatedFragments text fragments /\
    stripWhiteSpace (concat fragments) = stripWhiteSpace text /\
    Forall (fun f => nonEmpty (trim f) = true) fragments /\
    (nonEmpty (trim text) = true -> fragments <> []) /\
    (nonEmpty (trim text) = false -> fragments = []).
Proof.
  intro Ht.
  destruct (forceSplitTextRecursive_SYNC_total text targetCharLength depth Ht)
    as [fragments H].
  exists fragments. split; [exact H|].
  rewrite forceSplitTextRecursive_SYNC_eq in H.
  pose proof (forceSplit_separated _ _ Ht _ _ _ _ H) as Hsep.
  pose proof (separated_strip _ _ Hsep) as Hstrip.
  pose proof (forceSplit_nonblank _ _ Ht _ _ _ _ H) as Hnb.
  split; [exact Hsep|]. split; [exact Hstrip|]. split; [exact Hnb|]. split.
  - intros Hne ->. cbn [concat stripWhiteSpace filter] in Hstrip.
    rewrite nonEmpty_trim_strip, <- Hstrip in Hne. discriminate.
  - intro Hblank. destruct fragments as [|f fragments]; [reflexivity|].
    exfalso. inversion Hnb as [|? ? Hf _]; subst.
    rewrite nonEmpty_trim_strip in Hblank, Hf.
    cbn [concat] in Hstrip. rewrite strip_app in Hstrip.
    destruct (stripWhiteSpace text); [|discriminate].
    destruct (stripWhiteSpace f); [discriminate|]. discriminate.
Qed.

Lemma splitter_returns_separated_fragments_witness :
  exists fragments,
    forceSplitTextRecursive_SYNC (lit "One.  Two") 3 0 = Some fragments /\
    separatedFragments (lit "One.  Two") fragments /\
    stripWhiteSpace (concat fragments) = stripWhiteSpace (lit "One.  Two") /\
    Forall (fun f => nonEmpty (trim f) = true) fragments /\
    (nonEmpty (trim (lit "One.  Two")) = true -> fragments <> []) /\
    (nonEmpty (trim (lit "One.  Two")) = false -> fragments = []).
Proof.
  apply (splitter_returns_separated_fragments (lit "One.  Two") 3 0). lia.
Defined.

(* ================================================================== *)
(** * One token count, for every behaviour of the service               *)
(* ================================================================== *)

Section CountCases.

Variable ai : Oracle.
Variable voicePrompt : jsstring.

(** The ways in which a call of [countTokensForText] ends. *)
Lemma countTokensForText_cases (textToCount : jsstring) (w : World) :
  exists r calls,
    countTokensForText ai voicePrompt textToCount w
    = Some (r, after w calls (firstn (calls - 1) [1000; 2000])) /\
    (1 <= calls <= 3)%nat /\
    (forall k, (k < calls - 1)%nat ->
               exists e,
                 ai (oracleCalls w + k)%nat (requestText voicePrompt textToCount)
                 = rejects e /\
                 isServerError e = true) /\
    match ai (oracleCalls w + (calls - 1))%nat
             (requestText voicePrompt textToCount) with
    | totalTokens n => r = inr n
    | rejects e => r = inl e /\ (isServerError e = true -> calls = 3%nat)
    end.
Proof.
  unfold countTokensForText. change (Z.to_nat (MAX_RETRIES + 1)) with 3%nat.
  cbn [countTokensAttempts]. unfold bind, ret, sleep, countTokens.
  cbn -[isServerError requestText Nat.add app after firstn Nat.sub].
  set (req := requestText voicePrompt textToCount).
  destruct (ai (oracleCalls w) req) as [n0|e0] eqn:E0.
  { exists (inr n0), 1%nat. rewrite after_one. split; [reflexivity|].
    split; [lia|]. split; [intros k Hk; lia|].
    cbn [Nat.sub]. rewrite Nat.add_0_r, E0. reflexivity. }
  destruct (isServerError e0) eqn:S0; cbn [andb].
  2:{ exists (inl e0), 1%nat. rewrite after_one. split; [reflexivity|].
      split; [lia|]. split; [intros k Hk; lia|].
      cbn [Nat.sub]. rewrite Nat.add_0_r, E0. split; [reflexivity|congruence]. }
  change (0 <? MAX_RETRIES) with true. cbv iota.
  cbn -[isServerError requestText Nat.add app after firstn Nat.sub].
  assert (Hfirst : forall k, (k < 1)%nat ->
             exists e, ai (oracleCalls w + k)%nat req = rejects e /\
                       isServerError e = true).
  { intros k Hk. assert (k = 0)%nat as -> by lia. rewrite Nat.add_0_r. eauto. }
  destruct (ai (S (oracleCalls w)) req) as [n1|e1] eqn:E1.
  { exists (inr n1), 2%nat. rewrite after_two. split; [reflexivity|].
    split; [lia|]. split; [exact Hfirst|].
    cbn [Nat.sub]. rewrite Nat.add_1_r, E1. reflexivity. }
  destruct (isServerError e1) eqn:S1; cbn [andb].
  2:{ exists (inl e1), 2%nat. rewrite after_two. split; [reflexivity|].
      split; [lia|]. split; [exact Hfirst|].
      cbn [Nat.sub]. rewrite Nat.add_1_r, E1. split; [reflexivity|congruence]. }
  change (0 + 1 <? MAX_RETRIES) with true. cbv iota.
  cbn -[isServerError requestText Nat.add app after firstn Nat.sub].
  assert (Hsecond : forall k, (k < 2)%nat ->
             exists e, ai (oracleCalls w + k)%nat req = rejects e /\
                       isServerError e = true).
  { intros k Hk. destruct k as [|[|k]]; [| |lia].
    - rewrite Nat.add_0_r. eauto.
    - rewrite Nat.add_1_r. eauto. }
  assert (Hthird : (oracleCalls w + 2 = S (S (oracleCalls w)))%nat) by lia.
  destruct (ai (S (S (oracleCalls w))) req) as [n2|e2] eqn:E2.
  { exists (inr n2), 3%nat. rewrite after_three. split; [reflexivity|].
    split; [lia|]. split; [exact Hsecond|].
    cbn [Nat.sub]. rewrite Hthird, E2. reflexivity. }
  exists (inl e2), 3%nat.
  rewrite after_three. rewrite andb_false_r. split; [reflexivity|].
  split; [lia|]. split; [exact Hsecond|].
  cbn [Nat.sub]. rewrite Hthird, E2. split; reflexivity.
Qed.

End CountCases.

Section RetryForEveryService.

Variable randomUUID : nat -> jsstring.
Variable ai : Oracle.
Variable voicePrompt : jsstring.
Variable mainTitleForChunks : jsstring.
Variable sanitizedFileNameBase : jsstring.

Local Abbreviation count := (countTokensForText ai voicePrompt).
Local Abbreviation validate :=
  (validateCandidate randomUUID ai voicePrompt mainTitleForChunks
                     sanitizedFileNameBase).

(** The classification of the source, written out: the string form of
    the error includes [500] or [Internal error]. *)
Local Abbreviation transient e :=
  (match Thrown.toString e with
   | None => false
   | Some s => includes s (lit "500") || includes s (lit "Internal error")
   end).

(** C7 (retry semantics), for every behaviour of the service. From any
    world, one call of [countTokensForText] for a candidate makes one, two
    or three requests, waiting 1000 ms before the second and 2000 ms
    before the third: a request is repeated only after a failure
    classified as transient, and at most twice. The call ends with the
    last response: its count, or its error, which is then either not
    transient or the third failure. In particular two transient failures
    followed by a success give the count after exactly two retries, a
    first failure that is not transient is thrown at once, and three
    failures throw the third. The validation of the candidate makes no
    other request: after a count within the ideal bound it adds exactly one
    chunk, pending, without error details, holding the candidate and the
    count; after an error it adds exactly one chunk in error status, without
    token count, whose details are [Token counting failed for this
    candidate chunk: ] followed by the message of the error (or its string
    form when it is not an [Error]) and whose text holds the first 100
    characters of the candidate, and the candidate is not split. *)
Theorem retry_semantics (chunks : list AudiobookChunk.t) (chunkIndex : Z)
        (candidateText : jsstring) (w : World) :
  exists r calls,
    count candidateText w
    = Some (r, after w calls (firstn (calls - 1) [1000; 2000])) /\
    (1 <= calls <= 3)%nat /\
    (forall k, (k < calls - 1)%nat ->
               exists e,
                 ai (oracleCalls w + k)%nat (requestText voicePrompt candidateText)
                 = rejects e /\
                 transient e = true) /\
    match ai (oracleCalls w + (calls - 1))%nat
             (requestText voicePrompt candidateText) with
    | totalTokens n =>
      r = inr n /\
      (n <= IDEAL_CHUNK_TOKEN_UPPER_BOUND ->
       exists c w',
         validate (chunks, chunkIndex) candidateText w
         = Some ((chunks ++ [c], chunkIndex + 1), w') /\
         AudiobookChunk.status c = pending /\
         AudiobookChunk.tokenCount c = Some n /\
         AudiobookChunk.errorDetails c = None /\
         AudiobookChunk.text c = candidateText /\
         oracleCalls w' = (oracleCalls w + calls)%nat /\
         timeouts w' = timeouts w ++ firstn (calls - 1) [1000; 2000])
    | rejects e =>
      r = inl e /\
      (transient e = true -> calls = 3%nat) /\
      exists c w',
        validate (chunks, chunkIndex) candidateText w
        = Some ((chunks ++ [c], chunkIndex + 1), w') /\
        AudiobookChunk.status c = error /\
        AudiobookChunk.tokenCount c = None /\
        AudiobookChunk.errorDetails c
        = Some (lit "Token counting failed for this candidate chunk: "
                ++ (if Thrown.instanceofError e
                    then Thrown.message e else Thrown.asString e)) /\
        AudiobookChunk.text c
        = lit "Error: Token counting failed. Snippet: "
          ++ substring candidateText 0 100 ++ lit "..." /\
        oracleCalls w' = (oracleCalls w + calls)%nat /\
        timeouts w' = timeouts w ++ firstn (calls - 1) [1000; 2000]
    end /\
    (forall e1 e2 n,
        ai (oracleCalls w) (requestText voicePrompt candidateText) = rejects e1 ->
        transient e1 = true ->
        ai (S (oracleCalls w)) (requestText voicePrompt candidateText)
        = rejects e2 ->
        transient e2 = true ->
        ai (S (S (oracleCalls w))) (requestText voicePrompt candidateText)
        = totalTokens n ->
        r = inr n /\ calls = 3%nat) /\
    (forall e,
        ai (oracleCalls w) (requestText voicePrompt candidateText) = rejects e ->
        transient e = false ->
        r = inl e /\ calls = 1%nat) /\
    (forall e1 e2 e3,
        ai (oracleCalls w) (requestText voicePrompt candidateText) = rejects e1 ->
        transient e1 = true ->
        ai (S (oracleCalls w)) (requestText voicePrompt candidateText)
        = rejects e2 ->
        transient e2 = true ->
        ai (S (S (oracleCalls w))) (requestText voicePrompt candidateText)
        = rejects e3 ->
        r = inl e3 /\ calls = 3%nat).
Proof.
  destruct (countTokensForText_cases ai voicePrompt candidateText w)
    as [r [calls [Hrun [Hcalls [Hearlier Hlast]]]]].
  exists r, calls. split; [exact Hrun|]. split; [exact Hcalls|].
  split; [exact Hearlier|].
  set (req := requestText voicePrompt candidateText) in *.
  assert (Hzero : forall x, ai (oracleCalls w) req = x ->
                            ai (oracleCalls w + 0)%nat req = x)
    by (intros x; now rewrite Nat.add_0_r).
  assert (Hone : forall x, ai (S (oracleCalls w)) req = x ->
                           ai (oracleCalls w + 1)%nat req = x)
    by (intros x; now rewrite Nat.add_1_r).
  assert (Htwo : forall x, ai (S (S (oracleCalls w))) req = x ->
                           ai (oracleCalls w + 2)%nat req = x)
    by (intros x; now replace (oracleCalls w + 2)%nat
                        with (S (S (oracleCalls w))) by lia).
  split; [|split; [|split]].
  - destruct (ai (oracleCalls w + (calls - 1))%nat req) as [n|e].
    + split; [exact Hlast|]. intro Hn. subst r.
      unfold validateCandidate, bind. rewrite Hrun.
      destruct (Z.leb_spec n IDEAL_CHUNK_TOKEN_UPPER_BOUND); [|lia].
      rewrite push_spec. eexists _, _. split; [reflexivity|].
      repeat split.
    + destruct Hlast as [-> Hthird]. split; [reflexivity|].
      split; [exact Hthird|].
      unfold validateCandidate, bind. rewrite Hrun.
      rewrite push_spec. eexists _, _. split; [reflexivity|].
      repeat split.
  - intros e1 e2 n H1 S1 H2 S2 H3.
    apply Hzero in H1. apply Hone in H2. apply Htwo in H3.
    assert (calls = 1 \/ calls = 2 \/ calls = 3)%nat as [-> | [-> | ->]] by lia;
      cbn [Nat.sub] in Hlast.
    + rewrite H1 in Hlast. destruct Hlast as [_ Hc].
      specialize (Hc S1). discriminate.
    + rewrite H2 in Hlast. destruct Hlast as [_ Hc].
      specialize (Hc S2). discriminate.
    + rewrite H3 in Hlast. now split.
  - intros e H1 S1. apply Hzero in H1.
    assert (calls = 1 \/ (1 < calls))%nat as [-> | Hmore] by lia.
    + cbn [Nat.sub] in Hlast. rewrite H1 in Hlast. now destruct Hlast.
    + destruct (Hearlier 0%nat ltac:(lia)) as [e' [He' Se']].
      rewrite H1 in He'. injection He' as <-.
      unfold isServerError in Se'. congruence.
  - intros e1 e2 e3 H1 S1 H2 S2 H3.
    apply Hzero in H1. apply Hone in H2. apply Htwo in H3.
    assert (calls = 1 \/ calls = 2 \/ calls = 3)%nat as [-> | [-> | ->]] by lia;
      cbn [Nat.sub] in Hlast.
    + rewrite H1 in Hlast. destruct Hlast as [_ Hc].
      specialize (Hc S1). discriminate.
    + rewrite H2 in Hlast. destruct Hlast as [_ Hc].
      specialize (Hc S2). discriminate.
    + rewrite H3 in Hlast. now destruct Hlast.
Qed.

End RetryForEveryService.

Lemma retry_semantics_witness :
  (countTokensForText twiceFailing [] (lit "hello") initialWorld
   = Some (inr 7, after initialWorld 3 [1000; 2000]) /\
   exists c w',
     validateCandidate noUUID twiceFailing [] (lit "Title") (lit "Title")
                       ([], 0) (lit "hello") initialWorld
     = Some (([] ++ [c], 0 + 1), w') /\
     AudiobookChunk.status c = pending /\
     AudiobookChunk.tokenCount c = Some 7 /\
     AudiobookChunk.errorDetails c = None /\
     AudiobookChunk.text c = lit "hello" /\
     oracleCalls w' = 3%nat /\
     timeouts w' = [1000; 2000])
  /\
  (countTokensForText (fun _ _ => rejects quotaError) [] (lit "hello") initialWorld
   = Some (inl quotaError, after initialWorld 1 []) /\
   exists c w',
     validateCandidate noUUID (fun _ _ => rejects quotaError) []
                       (lit "Title") (lit "Title")
                       ([], 0) (lit "hello") initialWorld
     = Some (([] ++ [c], 0 + 1), w') /\
     AudiobookChunk.status c = error /\
     AudiobookChunk.tokenCount c = None /\
     AudiobookChunk.errorDetails c
     = Some (lit "Token counting failed for this candidate chunk: quota exceeded") /\
     AudiobookChunk.text c
     = lit "Error: Token counting failed. Snippet: hello..." /\
     oracleCalls w' = 1%nat /\
     timeouts w' = [])
  /\
  (countTokensForText (fun _ _ => rejects serverError) [] (lit "hello") initialWorld
   = Some (inl serverError, after initialWorld 3 [1000; 2000]) /\
   exists c w',
     validateCandidate noUUID (fun _ _ => rejects serverError) []
                       (lit "Title") (lit "Title")
                       ([], 0) (lit "hello") initialWorld
     = Some (([] ++ [c], 0 + 1), w') /\
     AudiobookChunk.status c = error /\
     AudiobookChunk.tokenCount c = None /\
     AudiobookChunk.errorDetails c
     = Some (lit "Token counting failed for this candidate chunk: 500 Internal error") /\
     AudiobookChunk.text c
     = lit "Error: Token counting failed. Snippet: hello..." /\
     oracleCalls w' = 3%nat /\
     timeouts w' = [1000; 2000]).
Proof.
  split; [|split].
  - destruct (retry_semantics noUUID twiceFailing [] (lit "Title") (lit "Title")
                              [] 0 (lit "hello") initialWorld)
      as [r [calls [Hrun [_ [_ [Hlast [Hthird _]]]]]]].
    destruct (Hthird serverError serverError 7
                eq_refl eq_refl eq_refl eq_refl eq_refl) as [Hr Hcalls].
    rewrite Hr, Hcalls in Hrun. rewrite Hcalls in Hlast.
    split; [exact Hrun|]. destruct Hlast as [_ Hv]. apply Hv.
    vm_compute. discriminate.
  - destruct (retry_semantics noUUID (fun _ _ => rejects quotaError) []
                              (lit "Title") (lit "Title")
                              [] 0 (lit "hello") initialWorld)
      as [r [calls [Hrun [_ [_ [Hlast [_ [Hfirst _]]]]]]]].
    destruct (Hfirst quotaError eq_refl eq_refl) as [Hr Hcalls].
    rewrite Hr, Hcalls in Hrun. rewrite Hcalls in Hlast.
    split; [exact Hrun|]. destruct Hlast as [_ [_ Hv]]. exact Hv.
  - destruct (retry_semantics noUUID (fun _ _ => rejects serverError) []
                              (lit "Title") (lit "Title")
                              [] 0 (lit "hello") initialWorld)
      as [r [calls [Hrun [_ [_ [Hlast [_ [_ Hthird]]]]]]]].
    destruct (Hthird serverError serverError serverError
                eq_refl eq_refl eq_refl eq_refl eq_refl) as [Hr Hcalls].
    rewrite Hr, Hcalls in Hrun. rewrite Hcalls in Hlast.
    split; [exact Hrun|]. destruct Hlast as [_ [_ Hv]]. exact Hv.
Defined.

(* ================================================================== *)
(** * The run, candidate by candidate                                   *)
(* ================================================================== *)

Lemma paragraphs_separated (text : jsstring) :
  separatedFragments text (splitTextIntoParagraphs text).
Proof.
  unfold splitTextIntoParagraphs.
  assert (H : forall pieces : list jsstring,
             exists fss, Forall2 separatedFragments pieces fss /\
                         concat fss = filter nonEmpty (map trim pieces)).
  { induction pieces as [|x l [fss [H2 Hc]]].
    - exists []. split; [constructor | reflexivity].
    - cbn [map filter]. destruct (trim x) as [|c t] eqn:Ex; cbn [nonEmpty].
      + exists ([] :: fss). split; [|exact Hc].
        constructor; [now apply separated_blank | exact H2].
      + exists ([c :: t] :: fss). split; [|cbn [concat app]; now rewrite Hc].
        constructor; [|exact H2]. apply separated_trim. rewrite Ex.
        apply separated_single. }
  destruct (H (split matchBlankLines text)) as [fss [H2 <-]].
  exact (split_separated _ matchBlankLines_space _ _ H2).
Qed.

Lemma join_separated (group : list jsstring) :
  separatedFragments (join BLANK_LINE group) group.
Proof.
  induction group as [|p [|q group] IH].
  - constructor. constructor.
  - cbn [join]. apply separated_single.
  - change (join BLANK_LINE (p :: q :: group))
      with (p ++ BLANK_LINE ++ join BLANK_LINE (q :: group)).
    apply (separated_app p _ [p] (q :: group)); [apply separated_single|].
    apply separated_space_left; [|exact IH].
    repeat constructor.
Qed.

(** The candidates of a text: its paragraphs, in order, in consecutive
    groups, each group joined by blank lines. *)
Lemma candidates_of_paragraphs (text : jsstring) (charTarget : Z) :
  exists groups,
    concat groups = splitTextIntoParagraphs text /\
    aggregateParagraphsIntoChunks (splitTextIntoParagraphs text) charTarget
    = map (join BLANK_LINE) groups.
Proof.
  assert (Hps : Forall (fun p : jsstring => p <> [])
                       (splitTextIntoParagraphs text)).
  { unfold splitTextIntoParagraphs. apply Forall_forall. intros p Hp.
    apply filter_In in Hp. destruct Hp as [_ Hp]. now destruct p. }
  unfold aggregateParagraphsIntoChunks.
  destruct (splitTextIntoParagraphs text) as [|p ps] eqn:E.
  - exists []. split; reflexivity.
  - destruct (aggregate_groups_fold charTarget (p :: ps) Hps [] [])
      as [groups [Hc [_ He]]].
    + constructor.
    + constructor.
    + right. cbn. lia.
    + exists groups. split; [exact Hc | exact He].
Qed.

Section ValidationTrace.

Variable randomUUID : nat -> jsstring.
Variable ai : Oracle.
Variable voicePrompt : jsstring.
Variable mainTitleForChunks : jsstring.
Variable sanitizedFileNameBase : jsstring.

Local Abbreviation count := (countTokensForText ai voicePrompt).
Local Abbreviation validateSub :=
  (validateSubSegment randomUUID ai voicePrompt mainTitleForChunks
                      sanitizedFileNameBase).
Local Abbreviation validate :=
  (validateCandidate randomUUID ai voicePrompt mainTitleForChunks
                     sanitizedFileNameBase).

(** A count takes at least one request, and a count returned is the
    answer to one of the requests made for it. *)
Lemma count_answered (textToCount : jsstring) (w w1 : World)
      (r : Thrown.t + Z) :
  count textToCount w = Some (r, w1) ->
  (oracleCalls w < oracleCalls w1)%nat /\
  forall n, r = inr n ->
            exists k, (oracleCalls w <= k < oracleCalls w1)%nat /\
                      ai k (requestText voicePrompt textToCount) = totalTokens n.
Proof.
  intro H.
  destruct (countTokensForText_cases ai voicePrompt textToCount w)
    as [r' [calls [Hrun [Hcalls [_ Hlast]]]]].
  rewrite Hrun in H. injection H as -> <-. cbn [oracleCalls after].
  split; [lia|]. intros n ->.
  exists (oracleCalls w + (calls - 1))%nat. split; [lia|].
  destruct (ai (oracleCalls w + (calls - 1))%nat
               (requestText voicePrompt textToCount)) as [n'|e].
  - now injection Hlast as ->.
  - destruct Hlast as [Hlast _]. discriminate.
Qed.

(** The chunk of a fragment of a candidate that was split again, with the
    requests of its count among those numbered from [lo] to [hi - 1]. *)
Definition fragmentChunk (lo hi : nat) (fragment : jsstring)
           (c : AudiobookChunk.t) : Prop :=
  (AudiobookChunk.status c = error /\
   AudiobookChunk.text c = errorSnippet fragment /\
   AudiobookChunk.tokenCount c = None) \/
  (exists n k,
      AudiobookChunk.status c = pending /\
      AudiobookChunk.text c = fragment /\
      AudiobookChunk.tokenCount c = Some n /\
      (lo <= k < hi)%nat /\
      ai k (requestText voicePrompt fragment) = totalTokens n /\
      AudiobookChunk.fileName c
      = partFileName sanitizedFileNameBase (AudiobookChunk.index c + 1)
                     (if n <=? MAX_TTS_TOKENS then [] else lit "_OVERSIZED")).

Lemma fragmentChunk_wider (lo hi lo' hi' : nat) (fragment : jsstring)
      (c : AudiobookChunk.t) :
  (lo' <= lo)%nat -> (hi <= hi')%nat ->
  fragmentChunk lo hi fragment c -> fragmentChunk lo' hi' fragment c.
Proof.
  intros Hlo Hhi [H|[n [k [H1 [H2 [H3 [H4 H5]]]]]]]; [now left|right].
  exists n, k. repeat (split; [assumption || lia|]). exact H5.
Qed.

Lemma validateSubSegment_trace (chunks : list AudiobookChunk.t) (chunkIndex : Z)
      (fragment : jsstring) (w w' : World) (st' : list AudiobookChunk.t * Z) :
  nonEmpty (trim fragment) = true ->
  validateSub (chunks, chunkIndex) fragment w = Some (st', w') ->
  exists c,
    st' = (chunks ++ [c], chunkIndex + 1) /\
    (oracleCalls w <= oracleCalls w')%nat /\
    fragmentChunk (oracleCalls w) (oracleCalls w') fragment c.
Proof.
  intros Hne H. unfold validateSubSegment in H. rewrite Hne in H.
  cbn [negb] in H. unfold bind in H.
  destruct (count fragment w) as [[[subError|subTokenCount] w1]|] eqn:Ec;
    [| |discriminate];
    destruct (count_answered _ _ _ _ Ec) as [Hcalls Hanswer].
  - rewrite push_spec in H. injection H as <- <-.
    eexists. split; [reflexivity|]. cbn [oracleCalls]. split; [lia|].
    left. repeat split.
  - destruct (Hanswer _ eq_refl) as [k [Hk Hai]].
    destruct (subTokenCount <=? MAX_TTS_TOKENS) eqn:Eb;
      rewrite push_spec in H; injection H as <- <-;
      (eexists; split; [reflexivity|]; cbn [oracleCalls]; split; [lia|];
       right; exists subTokenCount, k; cbn; rewrite Eb; repeat split;
       solve [lia | exact Hai]).
Qed.

Lemma fragments_trace (fragments : list jsstring) :
  Forall (fun f => nonEmpty (trim f) = true) fragments ->
  forall chunks chunkIndex w st' w',
    forEachM validateSub fragments (chunks, chunkIndex) w = Some (st', w') ->
    exists cs,
      fst st' = chunks ++ cs /\
      (oracleCalls w <= oracleCalls w')%nat /\
      Forall2 (fragmentChunk (oracleCalls w) (oracleCalls w')) fragments cs.
Proof.
  induction 1 as [|f fragments Hf _ IH]; intros chunks chunkIndex w st' w' H;
    cbn [forEachM] in H.
  - injection H as <- <-. exists []. rewrite app_nil_r.
    split; [reflexivity|]. split; [lia | constructor].
  - unfold bind in H.
    destruct (validateSub (chunks, chunkIndex) f w) as [[st1 w1]|] eqn:E1;
      [|discriminate].
    destruct (validateSubSegment_trace _ _ _ _ _ _ Hf E1)
      as [c [-> [Hcalls Hc]]].
    destruct (IH _ _ _ _ _ H) as [cs [Hst [Hcalls' Hcs]]].
    exists (c :: cs). rewrite Hst, <- app_assoc. split; [reflexivity|].
    split; [lia|]. constructor.
    + eapply fragmentChunk_wider; [| |exact Hc]; lia.
    + eapply Forall2_impl; [|exact Hcs]. intros a b Hab.
      eapply fragmentChunk_wider; [| |exact Hab]; lia.
Qed.

(** What the validation of one candidate adds: the pieces of the
    candidate that were counted, and their chunks. *)
Inductive candidateChunks (lo hi : nat) (candidate : jsstring)
  : list jsstring -> list AudiobookChunk.t -> Prop :=
| candidate_failed (c : AudiobookChunk.t) :
    AudiobookChunk.status c = error ->
    AudiobookChunk.text c = errorSnippet candidate ->
    AudiobookChunk.tokenCount c = None ->
    candidateChunks lo hi candidate [candidate] [c]
| candidate_accepted (c : AudiobookChunk.t) (n : Z) (k : nat) :
    AudiobookChunk.status c = pending ->
    AudiobookChunk.text c = candidate ->
    AudiobookChunk.tokenCount c = Some n ->
    (lo <= k < hi)%nat ->
    ai k (requestText voicePrompt candidate) = totalTokens n ->
    n <= IDEAL_CHUNK_TOKEN_UPPER_BOUND ->
    candidateChunks lo hi candidate [candidate] [c]
| candidate_split_again (m : Z) (j : nat) (fragments : list jsstring)
                        (cs : list AudiobookChunk.t) :
    (lo <= j < hi)%nat ->
    ai j (requestText voicePrompt candidate) = totalTokens m ->
    IDEAL_CHUNK_TOKEN_UPPER_BOUND < m ->
    forceSplitTextRecursive_SYNC candidate FINE_GRAINED_RECURSIVE_CHAR_TARGET 0
    = Some fragments ->
    Forall2 (fragmentChunk (S j) hi) fragments cs ->
    candidateChunks lo hi candidate fragments cs.

Lemma candidateChunks_wider (lo hi lo' hi' : nat) (candidate : jsstring)
      (pieces : list jsstring) (cs : list AudiobookChunk.t) :
  (lo' <= lo)%nat -> (hi <= hi')%nat ->
  candidateChunks lo hi candidate pieces cs ->
  candidateChunks lo' hi' candidate pieces cs.
Proof.
  intros Hlo Hhi [c H1 H2 H3 | c n k H1 H2 H3 H4 H5 H6 | m j fs cs' H1 H2 H3 H4 H5].
  - now apply candidate_failed.
  - apply (candidate_accepted _ _ _ c n k); try assumption. lia.
  - apply (candidate_split_again _ _ _ m j); try assumption; [lia|].
    eapply Forall2_impl; [|exact H5]. intros a b Hab.
    eapply fragmentChunk_wider; [| |exact Hab]; lia.
Qed.

Lemma validateCandidate_trace (chunks : list AudiobookChunk.t) (chunkIndex : Z)
      (candidate : jsstring) (w w' : World) (st' : list AudiobookChunk.t * Z) :
  validate (chunks, chunkIndex) candidate w = Some (st', w') ->
  exists pieces cs,
    fst st' = chunks ++ cs /\
    (oracleCalls w <= oracleCalls w')%nat /\
    candidateChunks (oracleCalls w) (oracleCalls w') candidate pieces cs.
Proof.
  intro H. unfold validateCandidate, bind in H.
  destruct (count candidate w) as [[[err|tokenCount] w1]|] eqn:Ec;
    [| |discriminate];
    destruct (count_answered _ _ _ _ Ec) as [Hcalls Hanswer].
  - rewrite push_spec in H. injection H as <- <-.
    eexists _, _. split; [reflexivity|]. cbn [oracleCalls]. split; [lia|].
    now apply candidate_failed.
  - destruct (Hanswer _ eq_refl) as [k [Hk Hai]].
    destruct (Z.leb_spec tokenCount IDEAL_CHUNK_TOKEN_UPPER_BOUND) as [Hle|Hgt].
    + rewrite push_spec in H. injection H as <- <-.
      eexists _, _. split; [reflexivity|]. cbn [oracleCalls]. split; [lia|].
      apply (candidate_accepted _ _ _ _ tokenCount k); try reflexivity;
        assumption.
    + unfold liftOption in H.
      destruct (forceSplitTextRecursive_SYNC candidate
                  FINE_GRAINED_RECURSIVE_CHAR_TARGET 0)
        as [fragments|] eqn:Esplit; [|discriminate].
      assert (Hnb : Forall (fun f => nonEmpty (trim f) = true) fragments).
      { rewrite forceSplitTextRecursive_SYNC_eq in Esplit.
        eapply forceSplit_nonblank; [|exact Esplit]. reflexivity. }
      destruct (fragments_trace _ Hnb _ _ _ _ _ H) as [cs [Hst [Hcalls' Hcs]]].
      exists fragments, cs. split; [exact Hst|]. split; [lia|].
      apply (candidate_split_again _ _ _ tokenCount k); try assumption; [lia|].
      eapply Forall2_impl; [|exact Hcs]. intros a b Hab.
      eapply fragmentChunk_wider; [| |exact Hab]; lia.
Qed.

Lemma candidates_trace (candidates : list jsstring) :
  forall chunks chunkIndex w st' w',
    forEachM validate candidates (chunks, chunkIndex) w = Some (st', w') ->
    exists parts : list (list jsstring * list AudiobookChunk.t),
      fst st' = chunks ++ concat (map snd parts) /\
      (oracleCalls w <= oracleCalls w')%nat /\
      Forall2 (fun candidate part =>
                 candidateChunks (oracleCalls w) (oracleCalls w') candidate
                                 (fst part) (snd part))
              candidates parts.
Proof.
  induction candidates as [|x candidates IH];
    intros chunks chunkIndex w st' w' H; cbn [forEachM] in H.
  - injection H as <- <-. exists []. cbn [map concat fst]. rewrite app_nil_r.
    split; [reflexivity|]. split; [lia | constructor].
  - unfold bind in H.
    destruct (validate (chunks, chunkIndex) x w) as [[[chunks1 index1] w1]|] eqn:E1;
      [|discriminate].
    destruct (validateCandidate_trace _ _ _ _ _ _ E1)
      as [pieces [cs [Hst1 [Hcalls Hx]]]].
    cbn [fst] in Hst1. subst chunks1.
    destruct (IH _ _ _ _ _ H) as [parts [Hst [Hcalls' Hparts]]].
    exists ((pieces, cs) :: parts). cbn [map concat fst snd].
    rewrite Hst, <- app_assoc. split; [reflexivity|]. split; [lia|].
    constructor.
    + cbn [fst snd]. eapply candidateChunks_wider; [| |exact Hx]; lia.
    + eapply Forall2_impl; [|exact Hparts]. intros a b Hab.
      eapply candidateChunks_wider; [| |exact Hab]; lia.
Qed.

End ValidationTrace.

(** With a service, a run returns chunks: none for a blank text, and
    otherwise those of the validation loop over the candidates of the
    trimmed text. *)
Lemma createAudiobookChunks_run
      (transliterate : jsstring -> jsstring) (randomUUID : nat -> jsstring)
      (input : ChunkingInput) (ai : Oracle)
      (bookFileNameBaseArg voicePromptArg : option jsstring) (w : World) :
  exists chunks w',
    createAudiobookChunks transliterate randomUUID input (Some ai)
                          bookFileNameBaseArg voicePromptArg w
    = Some (returns chunks, w') /\
    ((trim (inputText input) = [] /\ chunks = [] /\ w' = w) \/
     exists title chunkIndex,
       forEachM (validateCandidate
                   randomUUID ai
                   (match voicePromptArg with Some v => v | None => [] end)
                   title (sanitizeFileNameBase transliterate title))
                (aggregateParagraphsIntoChunks
                   (splitTextIntoParagraphs (trim (inputText input)))
                   IDEAL_CHARS_PER_CHUNK_TARGET)
                ([], 0) w
       = Some ((chunks, chunkIndex), w')).
Proof.
  unfold createAudiobookChunks.
  destruct (readInput input _) as [[fullTextContent title]|] eqn:Einput.
  2:{ eexists _, _. split; [reflexivity|]. left.
      rewrite (readInput_none _ _ Einput). repeat split. }
  rewrite (readInput_text _ _ _ _ Einput).
  destruct (trim fullTextContent) as [|c0 t0] eqn:Etrim; cbn [nonEmpty negb].
  { eexists _, _. split; [reflexivity|]. left. repeat split. }
  assert (Ene : nonEmpty (trim fullTextContent) = true) by now rewrite Etrim.
  pose proof (candidates_nonempty fullTextContent
                                  IDEAL_CHARS_PER_CHUNK_TARGET Ene) as Hcand.
  rewrite Etrim in Hcand.
  set (candidates := aggregateParagraphsIntoChunks _ _) in *.
  destruct candidates as [|cand cands] eqn:Ecands; [congruence|].
  cbn [List.length Nat.eqb andb]. unfold bind.
  destruct (validation_loop randomUUID ai
              (match voicePromptArg with Some v => v | None => [] end)
              title (sanitizeFileNameBase transliterate title)
              (cand :: cands) w) as [[chunks idx] [w' [Hrun _]]].
  rewrite Hrun. eexists _, _. split; [reflexivity|]. right.
  eexists _, _. exact Hrun.
Qed.

Lemma Forall2_In_right {A B : Type} (R : A -> B -> Prop)
      (l : list A) (l' : list B) (y : B) :
  Forall2 R l l' -> In y l' -> exists x, In x l /\ R x y.
Proof.
  induction 1 as [|a b l l' Hab _ IH]; intros Hin; [destruct Hin|].
  destruct Hin as [<-|Hin].
  - exists a. split; [now left | exact Hab].
  - destruct (IH Hin) as [x [Hx HR]]. exists x. split; [now right | exact HR].
Qed.

Lemma Forall2_concat {A B : Type} (R : A -> B -> Prop)
      (ls : list (list A)) (ls' : list (list B)) :
  Forall2 (Forall2 R) ls ls' -> Forall2 R (concat ls) (concat ls').
Proof.
  induction 1 as [|l l' ls ls' Hl _ IH]; [constructor|].
  cbn [concat]. now apply Forall2_app.
Qed.

Lemma Forall2_map_both {A B C D : Type} (R : C -> D -> Prop)
      (f : A -> C) (g : B -> D) (l : list A) (l' : list B) :
  Forall2 (fun a b => R (f a) (g b)) l l' -> Forall2 R (map f l) (map g l').
Proof. induction 1; cbn [map]; constructor; assumption. Qed.

Lemma Forall2_map_left {A B C : Type} (R : C -> B -> Prop)
      (f : A -> C) (l : list A) (l' : list B) :
  Forall2 R (map f l) l' -> Forall2 (fun a b => R (f a) b) l l'.
Proof.
  revert l'. induction l as [|a l IH]; intros l' H; cbn [map] in H;
    inversion H; subst; constructor; auto.
Qed.

Lemma strip_concat_separated (texts : list jsstring)
      (fss : list (list jsstring)) :
  Forall2 separatedFragments texts fss ->
  stripWhiteSpace (concat (concat fss)) = stripWhiteSpace (concat texts).
Proof.
  induction 1 as [|t fs texts fss Hfs _ IH]; [reflexivity|].
  cbn [concat]. rewrite concat_app, !strip_app, IH.
  now rewrite (separated_strip _ _ Hfs).
Qed.

(** The text of a chunk, by the piece it was made for. *)
Definition holdsPiece (piece : jsstring) (c : AudiobookChunk.t) : Prop :=
  (AudiobookChunk.status c = pending /\ AudiobookChunk.text c = piece) \/
  (AudiobookChunk.status c = error /\
   AudiobookChunk.text c
   = lit "Error: Token counting failed. Snippet: "
     ++ substring piece 0 100 ++ lit "...").

Lemma candidateChunks_pieces (ai : Oracle) (voicePrompt base : jsstring)
      (lo hi : nat) (candidate : jsstring) (pieces : list jsstring)
      (cs : list AudiobookChunk.t) :
  candidateChunks ai voicePrompt base lo hi candidate pieces cs ->
  (pieces = [candidate] \/
   forceSplitTextRecursive_SYNC candidate FINE_GRAINED_RECURSIVE_CHAR_TARGET 0
   = Some pieces) /\
  separatedFragments candidate pieces /\
  Forall2 holdsPiece pieces cs.
Proof.
  intros [c H1 H2 H3 | c n k H1 H2 H3 H4 H5 H6 | m j fs cs' H1 H2 H3 H4 H5].
  - split; [now left|]. split; [apply separated_single|].
    constructor; [|constructor]. right. split; [exact H1 | exact H2].
  - split; [now left|]. split; [apply separated_single|].
    constructor; [|constructor]. left. split; [exact H1 | exact H2].
  - split; [now right|]. split.
    + rewrite forceSplitTextRecursive_SYNC_eq in H4.
      eapply forceSplit_separated; [|exact H4]. reflexivity.
    + eapply Forall2_impl; [|exact H5]. intros a b [[Hs [Ht _]]|Hb].
      * right. split; [exact Hs | exact Ht].
      * destruct Hb as [n [k [Hs [Ht _]]]]. left. split; [exact Hs | exact Ht].
Qed.

Lemma holdsPiece_texts (pieces : list jsstring) (chunks : list AudiobookChunk.t) :
  Forall2 holdsPiece pieces chunks ->
  (forall c, In c chunks -> inErrorStatus c = false) ->
  pieces = map AudiobookChunk.text chunks.
Proof.
  induction 1 as [|p c pieces chunks Hc _ IH]; intro Hok; [reflexivity|].
  cbn [map]. f_equal.
  - destruct Hc as [[_ Ht]|[Hs _]]; [now rewrite Ht|].
    specialize (Hok c (or_introl eq_refl)). unfold inErrorStatus in Hok.
    rewrite Hs in Hok. discriminate.
  - apply IH. intros c' Hin. apply Hok. now right.
Qed.

(** C1 (coverage), as the code has it. Every run ends, with chunks or,
    when no token-counting service is given, with an exception. The text
    that is chunked is the content of the first chapter of the input, or
    the pasted strings joined by blank lines. When chunks are returned:
    - the paragraphs of the trimmed text lie in the text in their order,
      with nothing but white space before, between and after them;
      consecutive paragraphs are grouped, and the candidates are the
      groups, each joined by blank lines;
    - the pieces of a candidate are the candidate itself, or its
      fragments when it was split again (target 3000, depth 0); in both
      cases they lie in the candidate in their order with nothing but
      white space before, between and after them;
    - the chunks, whose indexes are their positions, are one for each
      piece of each candidate
      in order: a pending chunk holds its piece unchanged, also when it is
      flagged oversized, and a chunk in error status holds an error
      message around the first 100 characters of its piece, for which no
      other chunk is made.
    So no character other than white space is dropped, repeated or moved
    on the way from the text to the pieces: the pieces and the text are
    equal once white space is removed; and when no chunk is in error
    status, the chunk texts are the pieces, and the chunk texts in index
    order equal the text once white space is removed. *)
Theorem coverage_piece_by_piece
        (transliterate : jsstring -> jsstring) (randomUUID : nat -> jsstring)
        (input : ChunkingInput) (ai : option Oracle)
        (bookFileNameBaseArg voicePromptArg : option jsstring) (w : World) :
  exists completion w',
    createAudiobookChunks transliterate randomUUID input ai
                          bookFileNameBaseArg voicePromptArg w
    = Some (completion, w') /\
    forall chunks,
      completion = returns chunks ->
      (forall i c, nth_error chunks i = Some c ->
                   AudiobookChunk.index c = Z.of_nat i) /\
      exists (groups pieces : list (list jsstring)),
        concat groups = splitTextIntoParagraphs (trim (inputText input)) /\
        separatedFragments (inputText input) (concat groups) /\
        aggregateParagraphsIntoChunks (concat groups)
                                      IDEAL_CHARS_PER_CHUNK_TARGET
        = map (join BLANK_LINE) groups /\
        Forall2 (fun group ps =>
                   (ps = [join BLANK_LINE group] \/
                    forceSplitTextRecursive_SYNC
                      (join BLANK_LINE group)
                      FINE_GRAINED_RECURSIVE_CHAR_TARGET 0 = Some ps) /\
                   separatedFragments (join BLANK_LINE group) ps)
                groups pieces /\
        Forall2 (fun piece c =>
                   (AudiobookChunk.status c = pending /\
                    AudiobookChunk.text c = piece) \/
                   (AudiobookChunk.status c = error /\
                    AudiobookChunk.text c
                    = lit "Error: Token counting failed. Snippet: "
                      ++ substring piece 0 100 ++ lit "..."))
                (concat pieces) chunks /\
        FINE_GRAINED_RECURSIVE_CHAR_TARGET = 3000 /\
        stripWhiteSpace (concat (concat pieces))
        = stripWhiteSpace (inputText input) /\
        ((forall c, In c chunks -> inErrorStatus c = false) ->
         map AudiobookChunk.text chunks = concat pieces /\
         coveredText chunks = stripWhiteSpace (inputText input)).
Proof.
  destruct ai as [ai|].
  2:{ eexists _, _. split; [reflexivity|]. intros chunks H. discriminate. }
  destruct (createAudiobookChunks_run transliterate randomUUID input ai
              bookFileNameBaseArg voicePromptArg w)
    as [chunks [w' [Hrun Hcases]]].
  exists (returns chunks), w'. split; [exact Hrun|].
  intros chunks' Heq. injection Heq as <-.
  split.
  { destruct (createAudiobookChunks_invariant
                transliterate randomUUID input (Some ai)
                bookFileNameBaseArg voicePromptArg w)
      as [completion0 [w0 [Hrun0 Hinv]]].
    rewrite Hrun in Hrun0. injection Hrun0 as <- <-.
    destruct (Hinv chunks eq_refl) as [_ [Hall _]]. cbn [fst] in Hall.
    intros i c Hi. exact (proj1 (Hall i c Hi)). }
  destruct Hcases as [[Hblank [-> _]]|[title [chunkIndex Hloop]]].
  { exists [], []. cbn [concat map].
    assert (Hstrip : [] = stripWhiteSpace (inputText input))
      by (symmetry; now apply trim_nil_iff).
    split; [now rewrite Hblank|].
    split; [now apply separated_blank|]. split; [reflexivity|].
    split; [constructor|]. split; [constructor|]. split; [reflexivity|].
    split; [exact Hstrip|].
    intros _. split; [reflexivity | exact Hstrip]. }
  destruct (candidates_trace _ _ _ _ _ _ _ _ _ _ _ Hloop)
    as [parts [Hchunks [_ Hparts]]].
  cbn [fst app] in Hchunks. subst chunks.
  destruct (candidates_of_paragraphs (trim (inputText input))
                                     IDEAL_CHARS_PER_CHUNK_TARGET)
    as [groups [Hgroups Hcands]].
  rewrite Hcands in Hparts.
  assert (Hpieces : Forall2 (fun group ps =>
                               (ps = [join BLANK_LINE group] \/
                                forceSplitTextRecursive_SYNC
                                  (join BLANK_LINE group)
                                  FINE_GRAINED_RECURSIVE_CHAR_TARGET 0 = Some ps) /\
                               separatedFragments (join BLANK_LINE group) ps)
                            groups (map fst parts)).
  { apply (Forall2_map_left
             (fun candidate ps =>
                (ps = [candidate] \/
                 forceSplitTextRecursive_SYNC
                   candidate FINE_GRAINED_RECURSIVE_CHAR_TARGET 0 = Some ps) /\
                separatedFragments candidate ps)
             (join BLANK_LINE)).
    rewrite <- (map_id (map (join BLANK_LINE) groups)).
    apply Forall2_map_both. eapply Forall2_impl; [|exact Hparts].
    intros a b Hab. apply candidateChunks_pieces in Hab.
    destruct Hab as [H1 [H2 _]]. split; assumption. }
  assert (Hsep : Forall2 separatedFragments (map (join BLANK_LINE) groups)
                         (map fst parts)).
  { rewrite <- (map_id (map (join BLANK_LINE) groups)).
    apply Forall2_map_both. eapply Forall2_impl; [|exact Hparts].
    intros a b Hab. now apply candidateChunks_pieces in Hab. }
  assert (Hholds : Forall2 holdsPiece (concat (map fst parts))
                           (concat (map snd parts))).
  { apply Forall2_concat. apply Forall2_map_both.
    clear -Hparts. induction Hparts as [|a b l l' Hab _ IH]; constructor.
    - now apply candidateChunks_pieces in Hab.
    - exact IH. }
  assert (Hinput : separatedFragments (inputText input) (concat groups)).
  { apply separated_trim. rewrite Hgroups. apply paragraphs_separated. }
  assert (Hstrip : stripWhiteSpace (concat (concat (map fst parts)))
                   = stripWhiteSpace (inputText input)).
  { rewrite (strip_concat_separated _ _ Hsep).
    rewrite <- (separated_strip _ _ Hinput).
    symmetry. apply strip_concat_separated.
    clear. induction groups as [|g groups IH]; cbn [map]; constructor.
    - apply join_separated.
    - exact IH. }
  exists groups, (map fst parts).
  split; [exact Hgroups|]. split; [exact Hinput|].
  split; [rewrite Hgroups; exact Hcands|].
  split; [exact Hpieces|].
  split; [exact Hholds|]. split; [reflexivity|]. split; [exact Hstrip|].
  intro Hok. pose proof (holdsPiece_texts _ _ Hholds Hok) as Htexts.
  split; [now symmetry|]. unfold coveredText. now rewrite <- Htexts.
Qed.

Lemma coverage_piece_by_piece_witness :
  (forall i c, nth_error [flaggedHello] i = Some c ->
               AudiobookChunk.index c = Z.of_nat i) /\
  exists (groups pieces : list (list jsstring)),
    concat groups = [lit "hello"] /\
    separatedFragments (lit "hello") (concat groups) /\
    aggregateParagraphsIntoChunks (concat groups) 6000
    = map (join BLANK_LINE) groups /\
    Forall2 (fun group ps =>
               (ps = [join BLANK_LINE group] \/
                forceSplitTextRecursive_SYNC (join BLANK_LINE group) 3000 0
                = Some ps) /\
               separatedFragments (join BLANK_LINE group) ps)
            groups pieces /\
    Forall2 (fun piece c =>
               (AudiobookChunk.status c = pending /\
                AudiobookChunk.text c = piece) \/
               (AudiobookChunk.status c = error /\
                AudiobookChunk.text c
                = lit "Error: Token counting failed. Snippet: "
                  ++ substring piece 0 100 ++ lit "..."))
            (concat pieces) [flaggedHello] /\
    FINE_GRAINED_RECURSIVE_CHAR_TARGET = 3000 /\
    stripWhiteSpace (concat (concat pieces)) = lit "hello" /\
    ((forall c, In c [flaggedHello] -> inErrorStatus c = false) ->
     [lit "hello"] = concat pieces /\
     coveredText [flaggedHello] = lit "hello").
Proof.
  destruct (coverage_piece_by_piece
              sameTitle noUUID (strings [lit "hello"]) (Some alwaysHuge)
              None None initialWorld) as [completion [w' [Hrun H]]].
  apply H. vm_compute in Hrun. injection Hrun as <- _. reflexivity.
Defined.

(** ** White space collapsed

    The usual normalisation of white space, [s.replace(/\s+/g, ' ').trim()]:
    every run of white space becomes one space and the ends are trimmed.
    The code has no such function; it is the normalisation under which
    the words of a text stay apart. *)
Fixpoint collapseRuns (inRun : bool) (s : jsstring) : jsstring :=
  match s with
  | [] => []
  | c :: s' =>
    if isWhiteSpace c
    then (if inRun then collapseRuns true s' else 32 :: collapseRuns true s')
    else c :: collapseRuns false s'
  end.

Definition collapseWhiteSpace (s : jsstring) : jsstring :=
  trim (collapseRuns false s).

(** Two paragraphs of 1500 letters each; joined by a blank line they
    are beyond the 3000 characters of a fragment. *)
Definition twoLongParagraphs : ChunkingInput :=
  strings [repeat 97 1500; repeat 98 1500].

(** A service that counts 9000 tokens at the first request and 1000 at
    every other. *)
Definition hugeThenSmall : Oracle :=
  fun k _ => if Nat.eqb k 0 then totalTokens 9000 else totalTokens 1000.

(** Two chapters. *)
Definition twoChapters : ChunkingInput :=
  chapters [ {| ExtractedChapter.title := Some (lit "First");
                ExtractedChapter.content := lit "One" |};
             {| ExtractedChapter.title := Some (lit "Second");
                ExtractedChapter.content := lit "Two" |} ].

(** C1, as stated, fails in three ways.
    - When a token count fails: for the one-paragraph input [hello] and a
      service that rejects the request with an error that is not retried,
      the only chunk returned is in error status and its text is an error
      message around a snippet, so the texts of the chunks do not give back
      the input, even with all white space removed.
    - When white space is normalised by collapsing it: two paragraphs of
      1500 letters make one candidate, which the service counts at 9000
      tokens and which is split again into its two paragraphs, counted
      1000 tokens each: two pending chunks, one paragraph each.
      Concatenated, the chunk texts run the two paragraphs together,
      where the collapsed input keeps a space between them; only with
      white space removed are the two equal.
    - When the input has several chapters: of two chapters [One] and
      [Two], only the first is chunked; the single chunk returned holds
      [One], and no chunk holds the content of the second chapter. *)
Lemma coverage_counterexample :
  (exists c w',
      createAudiobookChunks sameTitle noUUID (strings [lit "hello"])
                            (Some (fun _ _ => rejects quotaError)) None None
                            initialWorld
      = Some (returns [c], w') /\
      AudiobookChunk.status c = error /\
      AudiobookChunk.text c = lit "Error: Token counting failed. Snippet: hello..." /\
      coveredText [c] <> stripWhiteSpace (inputText (strings [lit "hello"])))
  /\
  (exists c1 c2 w',
      createAudiobookChunks sameTitle noUUID twoLongParagraphs
                            (Some hugeThenSmall) None None initialWorld
      = Some (returns [c1; c2], w') /\
      AudiobookChunk.status c1 = pending /\
      AudiobookChunk.status c2 = pending /\
      AudiobookChunk.text c1 = repeat 97 1500 /\
      AudiobookChunk.text c2 = repeat 98 1500 /\
      inputText twoLongParagraphs = repeat 97 1500 ++ [NL; NL] ++ repeat 98 1500 /\
      collapseWhiteSpace (AudiobookChunk.text c1 ++ AudiobookChunk.text c2)
      = repeat 97 1500 ++ repeat 98 1500 /\
      collapseWhiteSpace (inputText twoLongParagraphs)
      = repeat 97 1500 ++ [32] ++ repeat 98 1500 /\
      collapseWhiteSpace (AudiobookChunk.text c1 ++ AudiobookChunk.text c2)
      <> collapseWhiteSpace (inputText twoLongParagraphs) /\
      coveredText [c1; c2] = stripWhiteSpace (inputText twoLongParagraphs))
  /\
  (exists c w',
      createAudiobookChunks sameTitle noUUID twoChapters
                            (Some (fun _ _ => totalTokens 1)) None None
                            initialWorld
      = Some (returns [c], w') /\
      AudiobookChunk.status c = pending /\
      AudiobookChunk.text c = lit "One" /\
      coveredText [c] <> stripWhiteSpace (lit "One" ++ lit "Two")).
Proof.
  split; [|split].
  - eexists _, _. split; [vm_compute; reflexivity|].
    split; [reflexivity|]. split; [reflexivity|]. vm_compute. discriminate.
  - eexists _, _, _. split; [vm_compute; reflexivity|].
    split; [reflexivity|]. split; [reflexivity|].
    split; [vm_compute; reflexivity|]. split; [vm_compute; reflexivity|].
    split; [vm_compute; reflexivity|].
    match goal with
    | |- ?A /\ ?B /\ _ =>
      assert (Ha : A) by (vm_compute; reflexivity);
      assert (Hb : B) by (vm_compute; reflexivity)
    end.
    split; [exact Ha|]. split; [exact Hb|].
    split; [|vm_compute; reflexivity].
    rewrite Ha, Hb. intro H. apply (f_equal (@List.length Z)) in H.
    rewrite !length_app, !repeat_length in H. cbn [List.length] in H. lia.
  - eexists _, _. split; [vm_compute; reflexivity|].
    split; [reflexivity|]. split; [reflexivity|]. vm_compute. discriminate.
Qed.

Lemma oversized_name_flagged (base : jsstring) (n : Z) :
  endsWith (partFileName base n (lit "_OVERSIZED")) (lit "_OVERSIZED.wav") = true.
Proof.
  unfold partFileName.
  change (lit "_OVERSIZED" ++ lit ".wav") with (lit "_OVERSIZED.wav").
  rewrite !app_assoc. apply endsWith_app.
Qed.

(** C2 (bound respected), as the code has it. Every run with a
    token-counting service returns chunks. A chunk that is neither in
    error status nor flagged oversized carries a token count [n] that the
    service returned during the run to a request for the text of the
    chunk, and [n <= MAX_TTS_TOKENS = 8000]. Moreover
    [n <= IDEAL_CHUNK_TOKEN_UPPER_BOUND = 3000], unless the chunk is a
    fragment of a candidate that was split again: a candidate for which
    the service had returned, to an earlier request of the run, a count
    above 3000; the text of the chunk is then one of the fragments that
    [forceSplitTextRecursive_SYNC] gives for that candidate with target
    3000 at depth 0. So a candidate is accepted as it is only up to 3000
    tokens, and the fragments of a candidate split again up to 8000. *)
Theorem accepted_chunks_token_bounds
        (transliterate : jsstring -> jsstring) (randomUUID : nat -> jsstring)
        (input : ChunkingInput) (ai : Oracle)
        (bookFileNameBaseArg voicePromptArg : option jsstring) (w : World) :
  exists chunks w',
    createAudiobookChunks transliterate randomUUID input (Some ai)
                          bookFileNameBaseArg voicePromptArg w
    = Some (returns chunks, w') /\
    IDEAL_CHUNK_TOKEN_UPPER_BOUND = 3000 /\
    MAX_TTS_TOKENS = 8000 /\
    FINE_GRAINED_RECURSIVE_CHAR_TARGET = 3000 /\
    forall c,
      In c chunks ->
      inErrorStatus c = false ->
      flaggedOversized c = false ->
      exists n k,
        AudiobookChunk.tokenCount c = Some n /\
        n <= MAX_TTS_TOKENS /\
        (oracleCalls w <= k < oracleCalls w')%nat /\
        ai k (requestText (match voicePromptArg with Some v => v | None => [] end)
                          (AudiobookChunk.text c))
        = totalTokens n /\
        (n <= IDEAL_CHUNK_TOKEN_UPPER_BOUND \/
         exists candidate m j fragments,
           In candidate
              (aggregateParagraphsIntoChunks
                 (splitTextIntoParagraphs (trim (inputText input)))
                 IDEAL_CHARS_PER_CHUNK_TARGET) /\
           (oracleCalls w <= j < k)%nat /\
           ai j (requestText (match voicePromptArg with Some v => v | None => [] end)
                             candidate)
           = totalTokens m /\
           IDEAL_CHUNK_TOKEN_UPPER_BOUND < m /\
           forceSplitTextRecursive_SYNC
             candidate FINE_GRAINED_RECURSIVE_CHAR_TARGET 0 = Some fragments /\
           In (AudiobookChunk.text c) fragments).
Proof.
  destruct (createAudiobookChunks_run transliterate randomUUID input ai
              bookFileNameBaseArg voicePromptArg w)
    as [chunks [w' [Hrun Hcases]]].
  exists chunks, w'. split; [exact Hrun|].
  split; [reflexivity|]. split; [reflexivity|]. split; [reflexivity|].
  intros c Hin Herr Hflag.
  destruct Hcases as [[_ [-> _]]|[title [chunkIndex Hloop]]]; [destruct Hin|].
  destruct (candidates_trace _ _ _ _ _ _ _ _ _ _ _ Hloop)
    as [parts [Hchunks [_ Hparts]]].
  cbn [fst app] in Hchunks. subst chunks.
  apply in_concat in Hin. destruct Hin as [cs [Hcs Hc]].
  apply in_map_iff in Hcs. destruct Hcs as [part [<- Hpart]].
  destruct (Forall2_In_right _ _ _ _ Hparts Hpart) as [candidate [Hcand Hx]].
  unfold inErrorStatus in Herr.
  destruct Hx as [c0 H1 H2 H3 | c0 n k H1 H2 H3 H4 H5 H6
                  | m j fragments cs H1 H2 H3 H4 H5].
  - destruct Hc as [<-|[]]. rewrite H1 in Herr. discriminate.
  - destruct Hc as [<-|[]]. exists n, k. split; [exact H3|].
    split; [unfold IDEAL_CHUNK_TOKEN_UPPER_BOUND, MAX_TTS_TOKENS in *;
            cbn in H6 |- *; lia|].
    split; [exact H4|]. split; [now rewrite H2|]. now left.
  - cbn [snd] in Hc.
    destruct (Forall2_In_right _ _ _ _ H5 Hc) as [fragment [Hfrag Hfc]].
    destruct Hfc as [[Hs _]|[n [k [Hs [Ht [Hn [Hk [Hai Hname]]]]]]]].
    { rewrite Hs in Herr. discriminate. }
    exists n, k. split; [exact Hn|].
    destruct (Z.leb_spec n MAX_TTS_TOKENS) as [Hle|Hgt].
    2:{ unfold flaggedOversized in Hflag.
        rewrite Hname, oversized_name_flagged in Hflag. discriminate. }
    split; [exact Hle|]. split; [lia|]. split; [now rewrite Ht|].
    right. exists candidate, m, j, fragments.
    split; [exact Hcand|]. split; [lia|]. split; [exact H2|].
    split; [exact H3|]. split; [exact H4|]. now rewrite Ht.
Qed.

Lemma accepted_chunks_token_bounds_witness :
  exists c1 c2 w',
    createAudiobookChunks sameTitle noUUID
                          (strings [lit "Hello there. Another one"])
                          (Some (fun k _ => if Nat.eqb k 0 then totalTokens 9000
                                            else totalTokens 5000))
                          None None initialWorld
    = Some (returns [c1; c2], w') /\
    exists n k,
      AudiobookChunk.tokenCount c1 = Some n /\
      n <= 8000 /\
      (0 <= k < oracleCalls w')%nat /\
      (if Nat.eqb k 0 then totalTokens 9000 else totalTokens 5000)
      = totalTokens n /\
      (n <= 3000 \/
       exists candidate m j fragments,
         In candidate [lit "Hello there. Another one"] /\
         (0 <= j < k)%nat /\
         (if Nat.eqb j 0 then totalTokens 9000 else totalTokens 5000)
         = totalTokens m /\
         3000 < m /\
         forceSplitTextRecursive_SYNC candidate 3000 0 = Some fragments /\
         In (AudiobookChunk.text c1) fragments).
Proof.
  destruct (accepted_chunks_token_bounds
              sameTitle noUUID (strings [lit "Hello there. Another one"])
              (fun k _ => if Nat.eqb k 0 then totalTokens 9000
                          else totalTokens 5000)
              None None initialWorld) as [chunks [w' [Hrun [_ [_ [_ H]]]]]].
  vm_compute in Hrun. injection Hrun as <- <-.
  eexists _, _, _. split; [vm_compute; reflexivity|].
  exact (H _ (or_introl eq_refl) eq_refl eq_refl).
Defined.
